(** * Synced: the server-side session and resource-coordination core

    A shallow embedding of the Node server of [src/public/main.js] (the
    module that starts with the imports at line 2102): the
    insertion-ordered tables [fileMetaCache], [ipRateLimits] and
    [activeHues], the upload ledger [pendingUploadBytes], hue assignment,
    MIME detection, upload admission, the naming rule of stored files and
    the listener that relays messages.

    Conventions of the embedding:
    - a JS [Map] is an association list in insertion order (oldest first);
    - a JS number is the rational it stands for, and every operation that
      rounds in the code rounds here, to the nearest binary64 number with
      ties to even ([binary64]): so for the hues ([Q]) and for the result
      of [parseInt]; numbers that are integers by construction (byte
      counts, clock readings, counters) are [Z], on which the code's
      arithmetic is exact below 2^53; infinities and NaN are not numbers
      here, the one NaN the code can meet ([parseInt] of text without
      digits) is [None];
    - a JS string is a [string]; every [ascii] stands for one code unit;
    - a [Buffer] is a [list byte];
    - a thrown exception is an explicit outcome;
    - [await] points are not modelled: a handler runs to its end on the
      state and the outside world it is given. *)

From Stdlib Require Import Strings.String Strings.Ascii Strings.Byte.
From Stdlib Require Import List Bool Arith ZArith Lia.
From Stdlib Require Import QArith Qround Qabs Qpower Lqa DecimalString.
From Stdlib Require Import Sorting.Permutation Sorting.Sorted.
From Stdlib Require DecimalN DecimalPos.
Import ListNotations.

Set Warnings "-register-all".

Open Scope string_scope.
Open Scope list_scope.
Open Scope Z_scope.

(* ================================================================== *)
(** * Insertion-ordered maps (the JS [Map]) *)
(* ================================================================== *)

Module JsMap.
Section Defs.
Context {V : Type}.

(** Entries are kept oldest-inserted first, as [Map] iterates them. *)
Definition t := list (string * V).

Definition empty : t := [].

Definition size (m : t) : Z := Z.of_nat (length m).

Definition keys (m : t) : list string := map fst m.

Fixpoint get (k : string) (m : t) : option V :=
  match m with
  | [] => None
  | (k', v) :: r => if String.eqb k' k then Some v else get k r
  end.

Definition has (k : string) (m : t) : bool :=
  match get k m with Some _ => true | None => false end.

(** [Map.prototype.set]: an existing key keeps its place, a new key goes
    last. *)
Fixpoint set (k : string) (v : V) (m : t) : t :=
  match m with
  | [] => [(k, v)]
  | (k', v') :: r =>
      if String.eqb k' k then (k, v) :: r else (k', v') :: set k v r
  end.

(** [Map.prototype.delete]. *)
Fixpoint delete (k : string) (m : t) : t :=
  match m with
  | [] => []
  | (k', v') :: r =>
      if String.eqb k' k then r else (k', v') :: delete k r
  end.

(** [m.keys().next().value]; [None] is [undefined] (empty map). *)
Definition first_key (m : t) : option string :=
  match m with
  | [] => None
  | (k, _) :: _ => Some k
  end.

(** [m.delete(m.keys().next().value)]; deleting [undefined] does
    nothing. *)
Definition delete_oldest (m : t) : t :=
  match first_key m with
  | Some k => delete k m
  | None => m
  end.

(** Keys are pairwise distinct in every map built from [empty]. *)
Definition wf (m : t) : Prop := NoDup (keys m).
End Defs.
Arguments t : clear implicits.
End JsMap.

(* ================================================================== *)
(** * Numbers: rounding to binary64 *)
(* ================================================================== *)

(** The binary exponent of a positive rational: the [k] with
    [2^k <= x < 2^(k+1)]. *)
Definition ilog2 (x : Q) : Z :=
  let k := Z.log2 (Qnum x) - Z.log2 (Z.pos (Qden x)) in
  if Qle_bool (2 ^ k)%Q x then k else k - 1.

(** The nearest integer, the even one of the two when they are equally
    near. *)
Definition round_half_even (y : Q) : Z :=
  let f := Qfloor y in
  match Qcompare (y - inject_Z f) (1 # 2) with
  | Lt => f
  | Gt => f + 1
  | Eq => if Z.even f then f else f + 1
  end.

(** The exponent of the last of the 53 bits of a binary64 number of the
    magnitude of [x]; subnormal numbers share the exponent -1074. *)
Definition exponent64 (x : Q) : Z := Z.max (ilog2 (Qabs x) - 52) (-1074).

(** The binary64 number nearest to [x], ties to even: what an arithmetic
    operation of the code returns when its exact result is [x].  (A result
    of magnitude 2^1024 or more, [Infinity] in the code, stays a finite
    number here, greater than every binary64 number as [Infinity] is; the
    hues stay below 720.) *)
Definition binary64 (x : Q) : Q :=
  if Qeq_bool x 0 then 0%Q
  else (inject_Z (round_half_even (x / 2 ^ exponent64 x))
        * 2 ^ exponent64 x)%Q.

(** The rationals that are binary64 numbers. *)
Definition is_binary64 (x : Q) : Prop := (binary64 x == x)%Q.

(** The Number for a mathematical integer: itself below 2^53, the nearest
    binary64 number (an integer again) from there on. *)
Definition to_number (z : Z) : Z := Qfloor (binary64 (inject_Z z)).

(* ================================================================== *)
(** * Numbers read from text: [parseInt] *)
(* ================================================================== *)

Definition code (c : ascii) : Z := Z.of_N (N_of_ascii c).

(** White space skipped by [parseInt], among the code units below 256:
    TAB, LF, VT, FF, CR, SP, NBSP. *)
Definition is_js_space (c : ascii) : bool :=
  let n := code c in
  ((9 <=? n) && (n <=? 13)) || (n =? 32) || (n =? 160).

Fixpoint skip_space (s : string) : string :=
  match s with
  | String c r => if is_js_space c then skip_space r else s
  | EmptyString => s
  end.

(** Value of a digit in the given radix (10 or 16). *)
Definition digit_val (radix : Z) (c : ascii) : option Z :=
  let n := code c in
  if (48 <=? n) && (n <=? 57) then Some (n - 48)
  else if (radix =? 16) && (97 <=? n) && (n <=? 102) then Some (n - 87)
  else if (radix =? 16) && (65 <=? n) && (n <=? 70) then Some (n - 55)
  else None.

(** The longest run of digits at the front of [s]; [acc] is [None] until a
    digit has been read. *)
Fixpoint parse_digits (radix : Z) (s : string) (acc : option Z) : option Z :=
  match s with
  | String c r =>
      match digit_val radix c with
      | Some d =>
          parse_digits radix r
            (Some (match acc with Some a => a * radix + d | None => d end))
      | None => acc
      end
  | EmptyString => acc
  end.

Definition strip_hex_prefix (s : string) : option string :=
  match s with
  | String "0" (String "x" r) => Some r
  | String "0" (String "X" r) => Some r
  | _ => None
  end.

(** The mathematical integer that [parseInt(s)], with no radix, reads off
    the text; [None] when there is no digit to read. *)
Definition parseInt_exact (s : string) : option Z :=
  let s1 := skip_space s in
  let '(sign, s2) :=
    match s1 with
    | String "-" r => (-1, r)
    | String "+" r => (1, r)
    | _ => (1, s1)
    end in
  let r :=
    match strip_hex_prefix s2 with
    | Some s3 => parse_digits 16 s3 None
    | None => parse_digits 10 s2 None
    end in
  option_map (Z.mul sign) r.

(** [parseInt(s)]: the Number for that integer; [None] is [NaN]. *)
Definition parseInt_string (s : string) : option Z :=
  option_map to_number (parseInt_exact s).

(** [parseInt(x)] where [x] may be [undefined] ([None]): the text
    ["undefined"] has no digits. *)
Definition parseInt (x : option string) : option Z :=
  match x with
  | Some s => parseInt_string s
  | None => None
  end.

(** [parseInt(x) || d]: [NaN] and [0] are falsy. *)
Definition parseInt_or (x : option string) (d : Z) : Z :=
  match parseInt x with
  | Some 0 | None => d
  | Some n => n
  end.

(* ================================================================== *)
(** * Configuration *)
(* ================================================================== *)

(** The recognised entries of [process.env]. *)
Record Env := {
  DISK_RESERVED_MB : option string;
  MAX_REQ_PER_MIN_PER_IP : option string;
  MAX_UPLOAD_MB : option string;
  MAX_USERS_env : option string
}.

Record Config := {
  CACHE_LIMIT_FILES : Z;
  CACHE_LIMIT_IPS : Z;
  DISK_RESERVED : Z;
  MAX_REQ_PER_MIN : Z;
  MAX_UPLOAD_SIZE : Z;
  MAX_USERS : Z
}.

(** [CONFIG], lines 2121-2132. *)
Definition CONFIG (e : Env) : Config := {|
  CACHE_LIMIT_FILES := 1000;
  CACHE_LIMIT_IPS := 1000;
  DISK_RESERVED := parseInt_or (DISK_RESERVED_MB e) 1024 * 1024 * 1024;
  MAX_REQ_PER_MIN := parseInt_or (MAX_REQ_PER_MIN_PER_IP e) 100;
  MAX_UPLOAD_SIZE := parseInt_or (MAX_UPLOAD_MB e) 8192 * 1024 * 1024;
  MAX_USERS := parseInt_or (MAX_USERS_env e) 100
|}.

Definition empty_env : Env := {|
  DISK_RESERVED_MB := None;
  MAX_REQ_PER_MIN_PER_IP := None;
  MAX_UPLOAD_MB := None;
  MAX_USERS_env := None
|}.

Definition default_config : Config := CONFIG empty_env.

Definition MAX_PATH_LENGTH : Z := 256.

(* ================================================================== *)
(** * The outside world *)
(* ================================================================== *)

(** What the handlers read from outside the process.  The [file-type]
    package is not part of the sources: what it answers for the file at a
    path and for a buffer are parameters, [None] standing for
    [undefined]. *)
Record World := {
  (** the MIME type [fileTypeFromFile] reports for the file at a path *)
  fileTypeFromFile : string -> option string;
  (** the MIME type [fileTypeFromBuffer] reports for a buffer *)
  fileTypeFromBuffer : list byte -> option string;
  (** content of a path; [None] when [stat], [open] or [read] fails *)
  files : string -> option (list byte);
  (** [Buffer.from(s, 'base64')] *)
  base64_decode : string -> list byte;
  (** [bavail * bsize] of [statfs(UPLOAD_DIR)], or the message of the
      error it throws *)
  statfs_avail : Z + string;
  (** [String(n)] for a number *)
  number_toString : Q -> string;
  UPLOAD_DIR : string
}.

(* ================================================================== *)
(** * MimeDetector and MetadataCache *)
(* ================================================================== *)

Record FileMeta := { mime : string; size : Z }.

(** [isText = (buf) => !buf.includes(0x00)] *)
Definition isText (buf : list byte) : bool :=
  negb (existsb (Byte.eqb x00) buf).

Definition blen (b : list byte) : Z := Z.of_nat (length b).

(** [detectFileMeta], lines 2181-2203: every failure of the file system
    is caught and gives [null] ([None]). *)
Definition detectFileMeta (w : World) (filePath : string) : option FileMeta :=
  match files w filePath with
  | None => None
  | Some content =>
      let size := blen content in
      match fileTypeFromFile w filePath with
      | Some m => Some {| mime := m; size := size |}
      | None =>
          let head := firstn 512 content in
          let mime := if isText head then "text/plain"
                      else "application/octet-stream" in
          Some {| mime := mime; size := size |}
      end
  end.

(** The inline-blob branch of the relay, lines 2398-2401, on the decoded
    buffer [b]: the type and size put on the message. *)
Definition inlineMeta (w : World) (b : list byte) : FileMeta :=
  let size := blen b in
  let mime :=
    match fileTypeFromBuffer w b with
    | Some m => m
    | None => if isText b then "text/plain" else "application/octet-stream"
    end in
  {| mime := mime; size := size |}.

Definition Cache := JsMap.t FileMeta.

(** [cacheFileMeta], lines 2173-2179. *)
Definition cacheFileMeta (cfg : Config) (filename : string) (meta : FileMeta)
  (fileMetaCache : Cache) : Cache :=
  let c :=
    if CACHE_LIMIT_FILES cfg <=? JsMap.size fileMetaCache
    then JsMap.delete_oldest fileMetaCache
    else fileMetaCache in
  JsMap.set filename meta c.

(** [path.join(UPLOAD_DIR, filename)] for a name without separators. *)
Definition upload_path (w : World) (filename : string) : string :=
  String.append (UPLOAD_DIR w) (String.append "/" filename).

(** [getCachedFileMeta], lines 2205-2211: the result and the cache
    afterwards. *)
Definition getCachedFileMeta (cfg : Config) (w : World) (filename : string)
  (fileMetaCache : Cache) : option FileMeta * Cache :=
  match JsMap.get filename fileMetaCache with
  | Some meta => (Some meta, fileMetaCache)
  | None =>
      match detectFileMeta w (upload_path w filename) with
      | Some meta => (Some meta, cacheFileMeta cfg filename meta fileMetaCache)
      | None => (None, fileMetaCache)
      end
  end.

(* ================================================================== *)
(** * HueAllocator *)
(* ================================================================== *)

(** [x % m] on numbers: the remainder has the sign of [x] (the quotient is
    truncated towards zero).  The remainder of two binary64 numbers is a
    binary64 number, so [%] returns it as it is. *)
Definition Qtrunc (q : Q) : Z := Z.quot (Qnum q) (Z.pos (Qden q)).

Definition js_rem (x m : Q) : Q := (x - m * inject_Z (Qtrunc (x / m)))%Q.

(** [sort((a, b) => a - b)]: the difference of two binary64 numbers
    rounds to a number of the same sign, so the order is that of the
    numbers. *)
Fixpoint insert_hue (x : Q) (l : list Q) : list Q :=
  match l with
  | [] => [x]
  | y :: r => if Qle_bool x y then x :: l else y :: insert_hue x r
  end.

Definition sort_hues (l : list Q) : list Q := fold_right insert_hue [] l.

(** [next - current], plus 360 when that is not positive; the subtraction
    and the addition round. *)
Definition forward_gap (current next : Q) : Q :=
  let gap := binary64 (next - current) in
  if Qle_bool gap 0 then binary64 (gap + 360) else gap.

(** [hues[i]] of a non-empty array. *)
Definition hue_at (hues : list Q) (i : nat) : Q := nth i hues 0%Q.

Definition gap_at (hues : list Q) (i : nat) : Q :=
  forward_gap (hue_at hues i) (hue_at hues ((i + 1) mod length hues)).

(** [(current + gap / 2) % 360]: the division and the addition round, the
    remainder does not. *)
Definition midpoint_at (hues : list Q) (i : nat) : Q :=
  js_rem (binary64 (hue_at hues i + binary64 (gap_at hues i / 2))) 360%Q.

(** One turn of the loop; the state is [(maxGap, bestHue)]. *)
Definition hue_step (hues : list Q) (st : Q * Q) (i : nat) : Q * Q :=
  let '(maxGap, bestHue) := st in
  let gap := gap_at hues i in
  if negb (Qle_bool gap maxGap)
  then (gap, midpoint_at hues i)
  else (maxGap, bestHue).

Definition Hues := JsMap.t Q.

(** [assignHue], lines 2149-2169, over the hues of the connected
    sockets. *)
Definition assignHue (activeHues : Hues) : Q :=
  let hues := sort_hues (map snd activeHues) in
  match hues with
  | [] => 210%Q
  | _ =>
      let '(_, bestHue) :=
        fold_left (hue_step hues) (seq 0 (length hues)) (0%Q, 0%Q) in
      bestHue
  end.

(* ================================================================== *)
(** * Server state *)
(* ================================================================== *)

(** One rate window: [{ count, expires }]. *)
Record Window := { count : Z; expires : Z }.

Definition RateTable := JsMap.t Window.

Record ServerState := {
  fileMetaCache : Cache;
  ipRateLimits : RateTable;
  activeHues : Hues;
  pendingUploadBytes : Z
}.

Definition initial_state : ServerState := {|
  fileMetaCache := JsMap.empty;
  ipRateLimits := JsMap.empty;
  activeHues := JsMap.empty;
  pendingUploadBytes := 0
|}.

Definition with_cache (c : Cache) (st : ServerState) : ServerState :=
  {| fileMetaCache := c; ipRateLimits := ipRateLimits st;
     activeHues := activeHues st;
     pendingUploadBytes := pendingUploadBytes st |}.

Definition with_limits (t : RateTable) (st : ServerState) : ServerState :=
  {| fileMetaCache := fileMetaCache st; ipRateLimits := t;
     activeHues := activeHues st;
     pendingUploadBytes := pendingUploadBytes st |}.

Definition with_hues (h : Hues) (st : ServerState) : ServerState :=
  {| fileMetaCache := fileMetaCache st; ipRateLimits := ipRateLimits st;
     activeHues := h;
     pendingUploadBytes := pendingUploadBytes st |}.

Definition with_pending (p : Z) (st : ServerState) : ServerState :=
  {| fileMetaCache := fileMetaCache st; ipRateLimits := ipRateLimits st;
     activeHues := activeHues st;
     pendingUploadBytes := p |}.

(** A socket as the handlers see it: its id and the identity hash computed
    once at connect time. *)
Record Socket := { id : string; ipHash : string }.

(** The body of [io.on('connection')] after the capacity test, and the
    [disconnect] listener, on the hue table (lines 2329-2341). *)
Definition on_connection (sock : Socket) (st : ServerState) : ServerState :=
  let hue := assignHue (activeHues st) in
  with_hues (JsMap.set (id sock) hue (activeHues st)) st.

Definition on_disconnect (sock : Socket) (st : ServerState) : ServerState :=
  with_hues (JsMap.delete (id sock) (activeHues st)) st.

(* ================================================================== *)
(** * UploadAdmission and the pending-upload ledger *)
(* ================================================================== *)

Record UploadFile := { path : string; filename : string }.

Record UploadRequest := {
  (** the error handed over by the multipart middleware, if any *)
  upload_err : option string;
  (** [req.file] *)
  file : option UploadFile;
  (** [req.headers['content-length']] *)
  content_length : option string
}.

Inductive Body :=
| ErrorBody (message : string)
| UrlBody (url : string).

Record Response := { status : Z; body : Body }.

(** The per-request closure of [releaseSpace]: the captured [len] and the
    one-shot flag [tracked]. *)
Record Tracker := { len : Z; tracked : bool }.

Record UploadResult := {
  response : Response;
  (** the partially written artifact removed on rejection *)
  unlinked : option string;
  (** the release listener registered on [finish] and [close] *)
  listener : option Tracker
}.

Definition file_path (req : UploadRequest) : option string :=
  option_map path (file req).

Definition reject (req : UploadRequest) (code : Z) (msg : string)
  : UploadResult :=
  {| response := {| status := code; body := ErrorBody msg |};
     unlinked := file_path req;
     listener := None |}.

(** The admission test of the upload route, lines 2267-2278. *)
Inductive Admission := LengthRequired | StorageFull | Accepted (len : Z).

Definition admission (cfg : Config) (declared : option string) (avail : Z)
  (pendingUploadBytes : Z) : Admission :=
  let len := parseInt declared in
  let reserved := DISK_RESERVED cfg + pendingUploadBytes in
  match len with
  | None => LengthRequired
  | Some len =>
      if len <=? 0 then LengthRequired
      else if len >? avail - reserved then StorageFull
      else Accepted len
  end.

(** The callback of [app.post('/upload')], lines 2257-2302. *)
Definition upload_handler (cfg : Config) (w : World) (req : UploadRequest)
  (st : ServerState) : ServerState * UploadResult :=
  match upload_err req with
  | Some message => (st, reject req 400 message)
  | None =>
      match statfs_avail w with
      | inr message => (st, reject req 500 message)
      | inl avail =>
          match admission cfg (content_length req) avail (pendingUploadBytes st)
          with
          | LengthRequired => (st, reject req 411 "Length Required")
          | StorageFull => (st, reject req 507 "Storage full")
          | Accepted len =>
              let st1 := with_pending (pendingUploadBytes st + len) st in
              let tr := {| len := len; tracked := true |} in
              match file req with
              | None =>
                  (* [req.file.path] throws; the handler's [catch] answers *)
                  (st1,
                   {| response :=
                        {| status := 500;
                           body := ErrorBody
                             "Cannot read properties of undefined (reading 'path')" |};
                      unlinked := None;
                      listener := Some tr |})
              | Some f =>
                  let st2 :=
                    match detectFileMeta w (path f) with
                    | Some meta =>
                        with_cache
                          (cacheFileMeta cfg (filename f) meta
                             (fileMetaCache st1)) st1
                    | None => st1
                    end in
                  (st2,
                   {| response :=
                        {| status := 200;
                           body := UrlBody
                             (String.append "/uploads/" (filename f)) |};
                      unlinked := None;
                      listener := Some tr |})
              end
          end
      end
  end.

(** [releaseSpace], lines 2283-2288, fired by [finish] and by [close]. *)
Definition releaseSpace (tr : Tracker) (pendingUploadBytes : Z)
  : Tracker * Z :=
  if tracked tr
  then ({| len := len tr; tracked := false |}, pendingUploadBytes - len tr)
  else (tr, pendingUploadBytes).

Inductive Signal := Finish | Close.

(** Both signals run the same listener. *)
Definition on_signal (s : Signal) (tr : Tracker) (pendingUploadBytes : Z)
  : Tracker * Z :=
  match s with
  | Finish => releaseSpace tr pendingUploadBytes
  | Close => releaseSpace tr pendingUploadBytes
  end.

Definition deliver (sigs : list Signal) (tr : Tracker) (pending : Z)
  : Tracker * Z :=
  fold_left (fun acc s => on_signal s (fst acc) (snd acc)) sigs (tr, pending).

(** Several uploads in flight at once: the shared counter and the
    closures of the requests admitted so far, by request number. *)
Record Ledger := { pending : Z; trackers : list Tracker }.

Inductive LedgerEvent :=
| Accept (len : Z)                  (* an upload passes admission *)
| Fire (s : Signal) (request : nat). (* a signal of an admitted request *)

Fixpoint update_nth {A} (n : nat) (f : A -> A) (l : list A) : list A :=
  match l, n with
  | [], _ => []
  | x :: r, O => f x :: r
  | x :: r, S n' => x :: update_nth n' f r
  end.

Definition ledger_step (l : Ledger) (e : LedgerEvent) : Ledger :=
  match e with
  | Accept n =>
      {| pending := pending l + n;
         trackers := trackers l ++ [{| len := n; tracked := true |}] |}
  | Fire s i =>
      match nth_error (trackers l) i with
      | Some tr =>
          let '(tr', p) := on_signal s tr (pending l) in
          {| pending := p; trackers := update_nth i (fun _ => tr') (trackers l) |}
      | None => l
      end
  end.

Definition ledger_run (es : list LedgerEvent) (l : Ledger) : Ledger :=
  fold_left ledger_step es l.

(** Bytes of a request whose release is still due. *)
Definition due (tr : Tracker) : Z := if tracked tr then len tr else 0.

Definition outstanding (trs : list Tracker) : Z :=
  fold_right (fun tr acc => due tr + acc) 0 trs.

(* ================================================================== *)
(** * Strings, paths and the naming rules *)
(* ================================================================== *)

Definition chars (s : string) : list ascii := list_ascii_of_string s.
Definition text (l : list ascii) : string := string_of_list_ascii l.
Definition slength (s : string) : Z := Z.of_nat (String.length s).

Definition is_char (c d : ascii) : bool := Ascii.eqb c d.
Definition is_slash : ascii -> bool := is_char "/".
Definition is_dot : ascii -> bool := is_char ".".
Definition is_underscore : ascii -> bool := is_char "_".

Fixpoint drop_while {A} (p : A -> bool) (l : list A) : list A :=
  match l with
  | x :: r => if p x then drop_while p r else l
  | [] => []
  end.

Fixpoint take_while {A} (p : A -> bool) (l : list A) : list A :=
  match l with
  | x :: r => if p x then x :: take_while p r else []
  | [] => []
  end.

(** Drop the characters satisfying [p] at the end. *)
Definition strip_end {A} (p : A -> bool) (l : list A) : list A :=
  rev (drop_while p (rev l)).

(** The last portion of a POSIX path, trailing separators ignored. *)
Definition last_component (p : list ascii) : list ascii :=
  rev (take_while (fun c => negb (is_slash c)) (drop_while is_slash (rev p))).

Definition trailing_slashes (p : list ascii) : list ascii :=
  take_while is_slash (rev p).

(** [path.basename(p)] *)
Definition basename (p : string) : string := text (last_component (chars p)).

(** [path.extname(p)]: from the last dot of the last portion, unless that
    dot is its first character or the portion is [..]. *)
Definition extname_chars (p : list ascii) : list ascii :=
  let part := last_component p in
  let r := rev part in
  let after := take_while (fun c => negb (is_dot c)) r in
  match drop_while (fun c => negb (is_dot c)) r with
  | [] => []                                   (* no dot *)
  | _ :: [] => []                              (* the dot comes first *)
  | dot :: _ :: _ =>
      if list_eq_dec ascii_dec part (chars "..") then []
      else dot :: rev after
  end.

Definition extname (p : string) : string := text (extname_chars (chars p)).

(** How far the wanted suffix matches the end of the last portion, both
    read backwards. *)
Inductive SuffixMatch :=
| Matched (rest : list ascii)   (* what is left of the portion, reversed *)
| Mismatch
| Exhausted.                    (* the portion ended first *)

Fixpoint match_suffix (suffix_rev part_rev : list ascii) : SuffixMatch :=
  match suffix_rev, part_rev with
  | [], rest => Matched rest
  | _ :: _, [] => Exhausted
  | s :: suffix', c :: part' =>
      if Ascii.eqb c s then match_suffix suffix' part' else Mismatch
  end.

(** [path.basename(p, suffix)] *)
Definition basename_ext_chars (p suffix : list ascii) : list ascii :=
  let part := last_component p in
  match suffix with
  | [] => part
  | _ :: _ =>
      if (length p <? length suffix)%nat then part
      else if list_eq_dec ascii_dec suffix p then []
      else
        match match_suffix (rev suffix) (rev part) with
        | Matched [] => part
        | Matched rest => rev rest
        | Mismatch => part
        | Exhausted => part ++ trailing_slashes p
        end
  end.

Definition basename_ext (p suffix : string) : string :=
  text (basename_ext_chars (chars p) (chars suffix)).

Definition in_range (lo hi : Z) (c : ascii) : bool :=
  (lo <=? code c) && (code c <=? hi).

(** The class [[a-z0-9.-]] under the flag [i]. *)
Definition is_name_char (c : ascii) : bool :=
  in_range 97 122 c || in_range 65 90 c || in_range 48 57 c
  || is_char "." c || is_char "-" c.

(** [.replace(/[^a-z0-9.-]/gi, '_')] *)
Definition replace_unsafe (l : list ascii) : list ascii :=
  map (fun c => if is_name_char c then c else "_"%char) l.

(** [.replace(/[^a-z0-9_.-]/gi, '_')] *)
Definition replace_unsafe_keep_underscore (l : list ascii) : list ascii :=
  map (fun c => if is_name_char c || is_underscore c then c else "_"%char) l.

(** [.replace(/_+/g, '_')] *)
Fixpoint collapse_underscores (l : list ascii) : list ascii :=
  match l with
  | [] => []
  | c :: r =>
      match r with
      | d :: _ =>
          if is_underscore c && is_underscore d then collapse_underscores r
          else c :: collapse_underscores r
      | [] => [c]
      end
  end.

(** [.replace(/^_+|_+$/g, '')] *)
Definition trim_underscores (l : list ascii) : list ascii :=
  strip_end is_underscore (drop_while is_underscore l).

(** [safeName] of the storage [filename] callback. *)
Definition safeName (name : list ascii) : list ascii :=
  let s := trim_underscores (collapse_underscores (replace_unsafe name)) in
  let s := if (100 <? length s)%nat then firstn 100 s else s in
  strip_end is_underscore s.                   (* [.replace(/_+$/, '')] *)

Definition hex_digit (n : N) : ascii :=
  match nth_error (chars "0123456789abcdef") (N.to_nat n) with
  | Some c => c
  | None => "0"%char
  end.

(** [buf.toString('hex')] *)
Definition to_hex (b : list byte) : list ascii :=
  flat_map (fun x => [hex_digit (Byte.to_N x / 16); hex_digit (Byte.to_N x mod 16)]) b.

(** The eight bytes of [randomBytes(8)]. *)
Record Random8 := {
  r0 : byte; r1 : byte; r2 : byte; r3 : byte;
  r4 : byte; r5 : byte; r6 : byte; r7 : byte
}.

Definition random_bytes (r : Random8) : list byte :=
  [r0 r; r1 r; r2 r; r3 r; r4 r; r5 r; r6 r; r7 r].

(** The [filename] callback of the disk storage, lines 2236-2248: the
    stored name of an upload whose client-side name is [originalname]. *)
Definition storage_filename (rnd : Random8) (originalname : string) : string :=
  let id := to_hex (random_bytes rnd) in
  let ext := extname originalname in
  let name := basename_ext originalname ext in
  text (id ++ chars "-" ++ safeName (chars name) ++ chars ext).

(** The display name of a relayed file:
    [path.basename(base).replace(...).replace(/_+/g, '_')]. *)
Definition display_name (base : string) : string :=
  text (collapse_underscores
          (replace_unsafe_keep_underscore (chars (basename base)))).

Fixpoint starts_with (p s : list ascii) : bool :=
  match p, s with
  | [], _ => true
  | a :: p', b :: s' => Ascii.eqb a b && starts_with p' s'
  | _ :: _, [] => false
  end.

(** [s.startsWith(p)] *)
Definition startsWith (s p : string) : bool := starts_with (chars p) (chars s).

(** [s.split(',')]: the pieces between the separators, at least one. *)
Fixpoint split_on (sep : ascii) (s : list ascii) : list (list ascii) :=
  match s with
  | [] => [[]]
  | c :: r =>
      if Ascii.eqb c sep then [] :: split_on sep r
      else
        match split_on sep r with
        | piece :: pieces => (c :: piece) :: pieces
        | [] => [[c]]
        end
  end.

(* ================================================================== *)
(** * Message payloads *)
(* ================================================================== *)

(** What a client can send as the argument of a [message] event: any JSON
    value, or nothing ([VUndefined]).  An object is the list of its own
    properties. *)
Inductive JsVal :=
| VUndefined
| VNull
| VBool (b : bool)
| VNum (n : Q)
| VStr (s : string)
| VArr (items : list JsVal)
| VObj (props : list (string * JsVal)).

Definition Props := list (string * JsVal).

(** [o.k] on an object: the own property, or [undefined]. *)
Fixpoint prop_get (k : string) (o : Props) : JsVal :=
  match o with
  | [] => VUndefined
  | (k', v) :: r => if String.eqb k' k then v else prop_get k r
  end.

Definition prop_has (k : string) (o : Props) : bool :=
  existsb (fun kv => String.eqb (fst kv) k) o.

(** [o.k = v]: an existing property is overwritten in place, a new one is
    added last. *)
Definition prop_set (k : string) (v : JsVal) (o : Props) : Props :=
  if prop_has k o
  then map (fun kv => if String.eqb (fst kv) k then (fst kv, v) else kv) o
  else o ++ [(k, v)].

(** Truthiness, as [||] tests it. *)
Definition truthy (v : JsVal) : bool :=
  match v with
  | VUndefined | VNull => false
  | VBool b => b
  | VNum n => negb (Qeq_bool n 0)
  | VStr s => negb (String.eqb s "")
  | VArr _ | VObj _ => true
  end.

Fixpoint join (sep : string) (l : list string) : string :=
  match l with
  | [] => ""
  | [s] => s
  | s :: r => String.append s (String.append sep (join sep r))
  end.

Definition sequence {A} (l : list (option A)) : option (list A) :=
  fold_right
    (fun x acc =>
       match x, acc with
       | Some a, Some r => Some (a :: r)
       | _, _ => None
       end) (Some []) l.

(** [String(v)]; [None] when the conversion throws a [TypeError] (an
    object whose own [toString] or [valueOf] hides the inherited method
    with a value that cannot be called). *)
Fixpoint js_String (num : Q -> string) (v : JsVal) : option string :=
  match v with
  | VUndefined => Some "undefined"
  | VNull => Some "null"
  | VBool true => Some "true"
  | VBool false => Some "false"
  | VNum n => Some (num n)
  | VStr s => Some s
  | VArr items =>
      option_map (join ",")
        (sequence
           (map (fun x =>
                   match x with
                   | VUndefined | VNull => Some ""
                   | _ => js_String num x
                   end) items))
  | VObj props =>
      if prop_has "toString" props then None
      else Some "[object Object]"
  end.

(* ================================================================== *)
(** * RateLimiter *)
(* ================================================================== *)

Definition fresh_window (now : Z) : Window :=
  {| count := 0; expires := now + 60000 |}.

(** The table once a fresh window has been allocated for [ipHash]. *)
Definition allocate_window (cfg : Config) (ipHash : string) (now : Z)
  (ipRateLimits : RateTable) : RateTable :=
  let t :=
    if CACHE_LIMIT_IPS cfg <=? JsMap.size ipRateLimits
    then JsMap.delete_oldest ipRateLimits
    else ipRateLimits in
  JsMap.set ipHash (fresh_window now) t.

(** The head of the [message] listener, lines 2344-2358: the window of
    the identity is looked up or allocated, its counter is incremented in
    the table (the listener holds the very object the table holds), and
    the message passes unless the new count exceeds the ceiling. *)
Definition rate_check (cfg : Config) (ipHash : string) (now : Z)
  (ipRateLimits : RateTable) : RateTable * bool :=
  let '(limitData, t) :=
    match JsMap.get ipHash ipRateLimits with
    | Some d =>
        if now >? expires d
        then (fresh_window now, allocate_window cfg ipHash now ipRateLimits)
        else (d, ipRateLimits)
    | None => (fresh_window now, allocate_window cfg ipHash now ipRateLimits)
    end in
  let incremented :=
    {| count := count limitData + 1; expires := expires limitData |} in
  (JsMap.set ipHash incremented t,
   negb (count incremented >? MAX_REQ_PER_MIN cfg)).

(** The periodic sweep, lines 2309-2314: windows whose expiry has passed
    are deleted. *)
Definition sweep (now : Z) (ipRateLimits : RateTable) : RateTable :=
  filter (fun kv => negb (now >? expires (snd kv))) ipRateLimits.

(* ================================================================== *)
(** * MessageRelay *)
(* ================================================================== *)

Inductive Event :=
| ToSocket (socket_id : string) (event : string) (payload : JsVal)
| ToAll (event : string) (payload : JsVal).

(** How a run of the listener ends: it returns, or an exception leaves it
    (nothing around the listener handles a rejected promise). *)
Inductive Completion :=
| Returned
| Uncaught (error : string).

Record Outcome := { events : list Event; completion : Completion }.

Definition done (evs : list Event) : Outcome :=
  {| events := evs; completion := Returned |}.

Definition throws (error : string) : Outcome :=
  {| events := []; completion := Uncaught error |}.

(** The file branch, lines 2374-2410, from the shape tests on
    [msg.content] on. *)
Definition relay_file (cfg : Config) (w : World) (msg : Props)
  (st : ServerState) : ServerState * Outcome :=
  match prop_get "content" msg with
  | VStr content =>
      let uploads := startsWith content "/uploads/" in
      let data := startsWith content "data:" in
      if negb uploads && negb data then (st, done [])
      else if uploads && (slength content >? MAX_PATH_LENGTH) then (st, done [])
      else
        let name := prop_get "name" msg in
        match js_String (number_toString w)
                (if truthy name then name else VStr "file") with
        | None => (st, throws "TypeError: Cannot convert object to primitive value")
        | Some base =>
            let msg1 := prop_set "name" (VStr (display_name base)) msg in
            let emit (m : FileMeta) :=
              let msg2 := prop_set "fileType" (VStr (mime m)) msg1 in
              let msg3 := prop_set "size" (VNum (inject_Z (size m))) msg2 in
              done [ToAll "message" (VObj msg3)] in
            if uploads then
              let filename := basename content in
              let '(meta, cache) :=
                getCachedFileMeta cfg w filename (fileMetaCache st) in
              let st1 := with_cache cache st in
              match meta with
              | None => (st1, done [])
              | Some m => (st1, emit m)
              end
            else
              match split_on ","%char (chars content) with
              | _ :: part1 :: _ =>
                  let b := base64_decode w (text part1) in
                  (st, emit (inlineMeta w b))
              | _ => (st, done [])
              end
        end
  | VUndefined | VNull =>
      (* [msg.content.startsWith] with no [content] *)
      (st, throws "TypeError: Cannot read properties of undefined (reading 'startsWith')")
  | _ =>
      (* a number, a boolean, an array or an object has no such method *)
      (st, throws "TypeError: msg.content.startsWith is not a function")
  end.

(** The [message] listener of a socket, lines 2343-2411. *)
Definition on_message (cfg : Config) (w : World) (sock : Socket) (now : Z)
  (msg : JsVal) (st : ServerState) : ServerState * Outcome :=
  let '(limits, allowed) :=
    rate_check cfg (ipHash sock) now (ipRateLimits st) in
  let st1 := with_limits limits st in
  if negb allowed then
    (st1, done [ToSocket (id sock) "error" (VStr "Rate limit exceeded")])
  else
    match msg with
    | VObj props =>
        let msg1 := prop_set "senderId" (VStr (id sock)) props in
        let msg2 := prop_set "timestamp" (VNum (inject_Z now)) msg1 in
        let h :=
          match JsMap.get (id sock) (activeHues st1) with
          | Some h => h
          | None => 210%Q
          end in
        let msg3 := prop_set "hue" (VNum h) msg2 in
        match prop_get "type" msg3 with
        | VStr "text" =>
            match prop_get "content" msg3 with
            | VStr content =>
                if slength content <? 65536
                then (st1, done [ToAll "message" (VObj msg3)])
                else (st1, done [])
            | _ => (st1, done [])
            end
        | VStr "file" => relay_file cfg w msg3 st1
        | _ => (st1, done [])
        end
    | VArr _ =>
        (* the writes land on the array; it has no [type] *)
        (st1, done [])
    | _ =>
        (* a property write on [undefined], [null] or a primitive *)
        (st1, throws "TypeError: Cannot set properties")
    end.

(** The traffic of several sockets: each message with the socket it
    arrives on and its time of arrival, the listener of that socket run on
    each in turn. *)
Fixpoint relay_all (cfg : Config) (w : World)
  (msgs : list (Socket * (Z * JsVal))) (st : ServerState)
  : ServerState * list Outcome :=
  match msgs with
  | [] => (st, [])
  | (sock, (now, msg)) :: rest =>
      let '(st1, out) := on_message cfg w sock now msg st in
      let '(st2, outs) := relay_all cfg w rest st1 in
      (st2, out :: outs)
  end.

(** The rate table under the traffic of many identities and the sweep. *)
Inductive TableEvent :=
| Message (ipHash : string) (now : Z)
| Sweep (now : Z).

Definition table_step (cfg : Config) (t : RateTable) (e : TableEvent)
  : RateTable :=
  match e with
  | Message ip now => fst (rate_check cfg ip now t)
  | Sweep now => sweep now t
  end.

Definition table_run (cfg : Config) (es : list TableEvent) (t : RateTable)
  : RateTable :=
  fold_left (table_step cfg) es t.

(* ================================================================== *)
(** * Runs and sample data *)
(* ================================================================== *)


(** Pairwise distinct, decided. *)
Fixpoint distinctb (l : list string) : bool :=
  match l with
  | [] => true
  | x :: r => negb (existsb (String.eqb x) r) && distinctb r
  end.

Definition numbered (n : nat) : string :=
  String.append "f" (NilEmpty.string_of_uint (Nat.to_uint n)).




(** No live window for the identity: none at all, or one whose expiry has
    passed. *)
Definition no_live_window (ipHash : string) (now : Z) (t : RateTable) : bool :=
  match JsMap.get ipHash t with
  | Some d => now >? expires d
  | None => true
  end.

(** What the listener answers to a message over the ceiling. *)
Definition rate_limit_rejection (sock : Socket) : Outcome :=
  done [ToSocket (id sock) "error" (VStr "Rate limit exceeded")].

Definition is_broadcast (e : Event) : Prop :=
  exists payload, e = ToAll "message" payload.


Definition sample_socket : Socket := {| id := "s1"; ipHash := "203a9f1c" |}.

Definition text_message (s : string) : JsVal :=
  VObj [("type", VStr "text"); ("content", VStr s)].



(** A configuration with a reserve of 200 bytes, for small examples. *)
Definition small_reserve_config : Config := {|
  CACHE_LIMIT_FILES := 1000;
  CACHE_LIMIT_IPS := 1000;
  DISK_RESERVED := 200;
  MAX_REQ_PER_MIN := 100;
  MAX_UPLOAD_SIZE := 8192 * 1024 * 1024;
  MAX_USERS := 100
|}.

Definition sample_upload (declared : string) : UploadRequest := {|
  upload_err := None;
  file := Some {| path := "/srv/uploads/00ff-a.txt"; filename := "00ff-a.txt" |};
  content_length := Some declared
|}.

Definition empty_ledger : Ledger := {| pending := 0; trackers := [] |}.


(** The shape [parseInt] accepts: after white space and an optional sign,
    a decimal digit, or [0x] and a hexadecimal digit. *)
Definition starts_with_digit (radix : Z) (s : string) : bool :=
  match s with
  | String c _ =>
      match digit_val radix c with Some _ => true | None => false end
  | EmptyString => false
  end.

Definition looks_numeric (s : string) : bool :=
  let s1 := skip_space s in
  let s2 :=
    match s1 with
    | String "-" r => r
    | String "+" r => r
    | _ => s1
    end in
  match strip_hex_prefix s2 with
  | Some s3 => starts_with_digit 16 s3
  | None => starts_with_digit 10 s2
  end.


(** The usual base64 reading ([A-Za-z0-9+/], the URL-safe [-] and [_];
    other characters skipped; stops at the padding), for the examples. *)
Definition base64_value (c : ascii) : option N :=
  let n := N_of_ascii c in
  if (65 <=? n)%N && (n <=? 90)%N then Some (n - 65)%N
  else if (97 <=? n)%N && (n <=? 122)%N then Some (n - 71)%N
  else if (48 <=? n)%N && (n <=? 57)%N then Some (n + 4)%N
  else if (n =? 43)%N || (n =? 45)%N then Some 62%N
  else if (n =? 47)%N || (n =? 95)%N then Some 63%N
  else None.

Fixpoint base64_sextets (s : list ascii) : list N :=
  match s with
  | [] => []
  | c :: r =>
      if is_char "=" c then []
      else
        match base64_value c with
        | Some v => v :: base64_sextets r
        | None => base64_sextets r
        end
  end.

Definition byte_of (n : N) : byte :=
  match Byte.of_N (n mod 256) with
  | Some b => b
  | None => x00
  end.

Fixpoint base64_bytes (fuel : nat) (v : list N) : list byte :=
  match fuel with
  | O => []
  | S fuel' =>
      match v with
      | a :: b :: c :: d :: r =>
          byte_of (a * 4 + b / 16) :: byte_of (b * 16 + c / 4)
            :: byte_of (c * 64 + d) :: base64_bytes fuel' r
      | [a; b; c] => [byte_of (a * 4 + b / 16); byte_of (b * 16 + c / 4)]
      | [a; b] => [byte_of (a * 4 + b / 16)]
      | _ => []
      end
  end%N.

Definition base64_standard (s : string) : list byte :=
  let v := base64_sextets (chars s) in
  base64_bytes (length v) v.

Fixpoint repeat_string (s : string) (n : nat) : string :=
  match n with
  | O => ""
  | S n' => String.append s (repeat_string s n')
  end.

(** An inline blob of 600 letters [a] and one null byte. *)
Definition late_null_blob : list byte := repeat x61 600 ++ [x00].

Definition late_null_data_url : string :=
  String.append "data:application/x-note;base64,"
    (String.append (repeat_string "YWFh" 200) "AA==").

Definition file_message (content : string) : JsVal :=
  VObj [("type", VStr "file"); ("content", VStr content);
        ("name", VStr "note.txt")].

(** The payloads broadcast by an outcome. *)
Definition broadcasts (out : Outcome) : list JsVal :=
  flat_map (fun e => match e with
                     | ToAll _ payload => [payload]
                     | ToSocket _ _ _ => []
                     end) (events out).

(** [v.k] for a payload. *)
Definition field (k : string) (v : JsVal) : JsVal :=
  match v with
  | VObj props => prop_get k props
  | _ => VUndefined
  end.

(** Decimal text of a number whose expansion is finite and short, as
    [String] prints it: [30], [22.5], [-2.8125]. *)
Fixpoint fraction_digits (fuel : nat) (num den : Z) : string :=
  match fuel with
  | O => ""
  | S fuel' =>
      if num =? 0 then ""
      else
        String.append
          (NilZero.string_of_uint (N.to_uint (Z.to_N (num * 10 / den))))
          (fraction_digits fuel' (num * 10 mod den) den)
  end.

Definition decimal (q : Q) : string :=
  let n := Z.abs (Qnum q) in
  let d := Z.pos (Qden q) in
  let whole := NilZero.string_of_uint (N.to_uint (Z.to_N (n / d))) in
  let frac := fraction_digits 20 (n mod d) d in
  String.append (if Qnum q <? 0 then "-" else "")
    (String.append whole
       (if String.eqb frac "" then "" else String.append "." frac)).

Definition sample_files (p : string) : option (list byte) :=
  if String.eqb p "/srv/uploads/00ff-a.txt"
  then Some [x68; x65; x6c; x6c; x6f]                 (* hello *)
  else if String.eqb p "/srv/uploads/11aa-pixel.png"
  then Some [x89; x50; x4e; x47; x0d; x0a; x1a; x0a; x00; x00; x00; x0d]
  else None.

(** The answer of the library on the sample contents: it recognises none
    of them (a few letters, the eight bytes of the PNG signature with four
    more bytes, letters followed by a null byte). *)
Definition nothing_recognised {A} : A -> option string := fun _ => None.

Definition sample_world : World := {|
  fileTypeFromFile := nothing_recognised;
  fileTypeFromBuffer := nothing_recognised;
  files := sample_files;
  base64_decode := base64_standard;
  statfs_avail := inl 1000;
  number_toString := decimal;
  UPLOAD_DIR := "/srv/uploads"
|}.


(** The fields the server writes on every relayed message. *)
Definition stamped (sock : Socket) (now : Z) (hue : Q) (props : Props) : Prop :=
  prop_get "senderId" props = VStr (id sock)
  /\ (forall v, In ("senderId", v) props -> v = VStr (id sock))
  /\ prop_get "timestamp" props = VNum (inject_Z now)
  /\ prop_get "hue" props = VNum hue.

(** The hue the server knows for a socket, 210 when it knows none. *)
Definition hue_of (sock : Socket) (st : ServerState) : Q :=
  match JsMap.get (id sock) (activeHues st) with
  | Some h => h
  | None => 210%Q
  end.

(** A text message that claims to come from somebody else. *)
Definition spoofed_message : JsVal :=
  VObj [("senderId", VStr "victim"); ("type", VStr "text");
        ("content", VStr "hi"); ("timestamp", VNum 0); ("hue", VNum 0)].


(** The naming rule as the specification words it, for comparison: the
    class [[a-z0-9.-]] taken literally (no case folding); replace,
    collapse, trim both edges, cut at 100 characters. *)
Definition is_lower_name_char (c : ascii) : bool :=
  in_range 97 122 c || in_range 48 57 c || is_char "." c || is_char "-" c.

Definition spec_safeName (name : list ascii) : list ascii :=
  firstn 100
    (trim_underscores
       (collapse_underscores
          (map (fun c => if is_lower_name_char c then c else "_"%char) name))).

Definition spec_storage_filename (rnd : Random8) (originalname : string)
  : string :=
  let id := to_hex (random_bytes rnd) in
  let ext := extname originalname in
  let name := basename_ext originalname ext in
  text (id ++ chars "-" ++ spec_safeName (chars name) ++ chars ext).

Definition is_hex_char (c : ascii) : bool :=
  in_range 48 57 c || in_range 97 102 c.

(** No two underscores side by side. *)
Fixpoint single_underscores (l : list ascii) : Prop :=
  match l with
  | c :: r =>
      match r with
      | d :: _ =>
          ~ (is_underscore c = true /\ is_underscore d = true)
          /\ single_underscores r
      | [] => True
      end
  | [] => True
  end.

Definition sample_random : Random8 := {|
  r0 := x00; r1 := xff; r2 := x1a; r3 := x2b;
  r4 := x3c; r5 := x4d; r6 := x5e; r7 := x09
|}.


(** A character of a stored base name: of the class, or the underscore. *)
Definition tidy (c : ascii) : Prop := is_name_char c = true \/ c = "_"%char.


(** The hues in use. *)
Definition hue_values (h : Hues) : list Q := map snd h.

(** On the colour circle. *)
Definition on_circle (h : Q) : Prop := (0 <= h /\ h < 360)%Q.

(** No two of the hues are the same number. *)
Inductive distinct_hues : list Q -> Prop :=
| distinct_nil : distinct_hues []
| distinct_cons x l :
    (forall y, In y l -> ~ (x == y)%Q) -> distinct_hues l ->
    distinct_hues (x :: l).

Definition sample_hues : Hues :=
  [("s1", 210%Q); ("s2", 30%Q); ("s3", 120%Q)].


(** What the loop of [assignHue] holds after the first [k] gaps: nothing
    yet, or the first largest positive gap met so far with its midpoint. *)
Definition best_so_far (hues : list Q) (k : nat) (st : Q * Q) : Prop :=
  (st = (0%Q, 0%Q) /\ forall j, (j < k)%nat -> (gap_at hues j <= 0)%Q)
  \/ exists i, (i < k)%nat
       /\ st = (gap_at hues i, midpoint_at hues i)
       /\ (0 < gap_at hues i)%Q
       /\ (forall j, (j < k)%nat -> (gap_at hues j <= gap_at hues i)%Q)
       /\ (forall j, (j < i)%nat -> (gap_at hues j < gap_at hues i)%Q).


(** The gap from [current] forward to [next] as a real number, before
    any rounding. *)
Definition exact_gap (current next : Q) : Q :=
  let gap := (next - current)%Q in
  if Qle_bool gap 0 then (gap + 360)%Q else gap.

Definition exact_gap_at (hues : list Q) (i : nat) : Q :=
  exact_gap (hue_at hues i) (hue_at hues ((i + 1) mod length hues)).

(** What holds of the hues in use: they are binary64 numbers of [0, 360)
    and no two are the same. *)
Definition hues_ok (h : Hues) : Prop :=
  Forall is_binary64 (hue_values h)
  /\ Forall on_circle (hue_values h)
  /\ distinct_hues (hue_values h).


(* ================================================================== *)
(** * Insertion history of the rate table *)
(* ================================================================== *)

(** Beside the table, for each identity in it, the serial number of the
    event that inserted it: the message for which the identity was added to
    a table that did not hold it (any more).  A window refreshed in place
    keeps the number of its identity, an evicted or swept identity loses
    it. *)
Definition Births := JsMap.t nat.

Definition born (cfg : Config) (n : nat) (t : RateTable) (e : TableEvent)
  (b : Births) : Births :=
  match e with
  | Message ip now =>
      if no_live_window ip now t then
        let b1 :=
          if CACHE_LIMIT_IPS cfg <=? JsMap.size t then tl b else b in
        if JsMap.has ip b1 then b1 else b1 ++ [(ip, n)]
      else b
  | Sweep now =>
      map fst
        (filter (fun bt => negb (now >? expires (snd (snd bt))))
           (combine b t))
  end.

Definition history_step (cfg : Config) (s : RateTable * Births * nat)
  (e : TableEvent) : RateTable * Births * nat :=
  let '(t, b, n) := s in
  (table_step cfg t e, born cfg n t e b, S n).

Definition history (cfg : Config) (es : list TableEvent)
  : RateTable * Births * nat :=
  fold_left (history_step cfg) es (JsMap.empty, JsMap.empty, 0%nat).

(** What holds of a table, its insertion numbers and the events so far. *)
Definition history_ok (cfg : Config) (es : list TableEvent)
  (s : RateTable * Births * nat) : Prop :=
  let '(t, b, n) := s in
  n = length es
  /\ t = table_run cfg es JsMap.empty
  /\ JsMap.keys b = JsMap.keys t
  /\ JsMap.wf t
  /\ StronglySorted lt (map snd b)
  /\ forall k m, In (k, m) b ->
       (m < n)%nat /\ exists now, nth_error es m = Some (Message k now).


(* ================================================================== *)
(** * The server as a whole *)
(* ================================================================== *)

(** The sweep on the server state. *)
Definition on_sweep (now : Z) (st : ServerState) : ServerState :=
  with_limits (sweep now (ipRateLimits st)) st.

(** The middleware of [io.use], lines 2316-2321: the error passed to
    [next], if any.  [size] is [io.sockets.sockets.size] as read there. *)
Definition handshake (cfg : Config) (size : Z) : option string :=
  if MAX_USERS cfg <=? size then Some "ERR_SERVER_FULL" else None.

(** What the [connection] listener does with a socket: it closes it, or
    it welcomes it with the events it emits. *)
Inductive Welcome :=
| Closed
| Welcomed (emitted : list Event).

(** The [connection] listener, lines 2323-2336; [size] is
    [io.sockets.sockets.size] as the listener reads it, the new socket
    included. *)
Definition connection (cfg : Config) (size : Z) (sock : Socket)
  (st : ServerState) : ServerState * Welcome :=
  if size >? MAX_USERS cfg then (st, Closed)
  else
    let hue := assignHue (activeHues st) in
    (on_connection sock st,
     Welcomed
       [ToSocket (id sock) "session" (VObj [("hue", VNum hue)]);
        ToAll "userCountUpdate" (VNum (inject_Z size))]).

(** The [disconnect] listener of a welcomed socket, lines 2338-2341. *)
Definition disconnection (size : Z) (sock : Socket) (st : ServerState)
  : ServerState * list Event :=
  (on_disconnect sock st, [ToAll "userCountUpdate" (VNum (inject_Z size))]).

(** The server with the release listeners of the uploads admitted so far,
    by order of admission. *)
Record Running := { server : ServerState; listeners : list Tracker }.

Definition boot : Running := {| server := initial_state; listeners := [] |}.

(** What happens to the server, one event at a time.  Every event comes
    with the outside world as it is at that moment. *)
Inductive ServerEvent :=
| EvUpload (w : World) (req : UploadRequest)
| EvSignal (s : Signal) (request : nat)
| EvMessage (w : World) (sock : Socket) (now : Z) (msg : JsVal)
| EvSweep (now : Z)
| EvConnect (size : Z) (sock : Socket)
| EvDisconnect (size : Z) (sock : Socket).

Definition server_step (cfg : Config) (r : Running) (e : ServerEvent)
  : Running :=
  match e with
  | EvUpload w req =>
      let '(st, res) := upload_handler cfg w req (server r) in
      {| server := st;
         listeners :=
           match listener res with
           | Some tr => listeners r ++ [tr]
           | None => listeners r
           end |}
  | EvSignal s i =>
      match nth_error (listeners r) i with
      | Some tr =>
          let '(tr', p) := on_signal s tr (pendingUploadBytes (server r)) in
          {| server := with_pending p (server r);
             listeners := update_nth i (fun _ => tr') (listeners r) |}
      | None => r
      end
  | EvMessage w sock now msg =>
      {| server := fst (on_message cfg w sock now msg (server r));
         listeners := listeners r |}
  | EvSweep now =>
      {| server := on_sweep now (server r); listeners := listeners r |}
  | EvConnect size sock =>
      {| server := fst (connection cfg size sock (server r));
         listeners := listeners r |}
  | EvDisconnect size sock =>
      {| server := fst (disconnection size sock (server r));
         listeners := listeners r |}
  end.

Definition server_run (cfg : Config) (es : list ServerEvent) (r : Running)
  : Running :=
  fold_left (server_step cfg) es r.

(** A table with one live and one expired window at time 100000. *)
Definition sample_table : RateTable :=
  [("aa11", {| count := 3; expires := 50000 |});
   ("bb22", {| count := 7; expires := 130000 |})].


(** The fields the server writes on every message, and the further ones it
    writes on a file message. *)
Definition server_fields : list string := ["senderId"; "timestamp"; "hue"].
Definition file_fields : list string := ["name"; "fileType"; "size"].

(** Where the type and size of a relayed file come from: the metadata cache
    (or detection on the stored file) for a reference into the upload
    directory, the decoded payload for an inline blob. *)
Definition file_source (cfg : Config) (w : World) (content : string)
  (cache : Cache) (m : FileMeta) : Prop :=
  (startsWith content "/uploads/" = true
   /\ slength content <= MAX_PATH_LENGTH
   /\ fst (getCachedFileMeta cfg w (basename content) cache) = Some m)
  \/ (startsWith content "/uploads/" = false
      /\ startsWith content "data:" = true
      /\ exists head part rest,
           split_on ","%char (chars content) = head :: part :: rest
           /\ m = inlineMeta w (base64_decode w (text part))).

(** A file message as the client's [SocketManager.send] builds it, with
    metadata of the client's making. *)
Definition client_file_message (content name : string) : JsVal :=
  VObj [("type", VStr "file"); ("content", VStr content);
        ("name", VStr name); ("fileType", VStr "image/png");
        ("size", VNum 12345); ("tempId", VStr "t-1700000000000-ab12c");
        ("hue", VNum 30)].

(** The message as the listener has it after its first three writes. *)
Definition enriched (sock : Socket) (now : Z) (st : ServerState)
  (props : Props) : Props :=
  prop_set "hue" (VNum (hue_of sock st))
    (prop_set "timestamp" (VNum (inject_Z now))
       (prop_set "senderId" (VStr (id sock)) props)).


(** The address the upload route answers with. *)
Definition upload_url (stored : string) : string :=
  String.append "/uploads/" stored.

(** An upload as the storage layer hands it over: the file written under
    the name the [filename] callback chose. *)
Definition stored_upload (w : World) (rnd : Random8)
  (originalname declared : string) : UploadRequest := {|
  upload_err := None;
  file := Some {| path := upload_path w (storage_filename rnd originalname);
                  filename := storage_filename rnd originalname |};
  content_length := Some declared
|}.

(** A world in which the sample upload has been written. *)
Definition world_after_upload : World := {|
  fileTypeFromFile := nothing_recognised;
  fileTypeFromBuffer := nothing_recognised;
  files := fun p =>
    if String.eqb p "/srv/uploads/00ff1a2b3c4d5e09-pixel.png"
    then Some [x89; x50; x4e; x47; x0d; x0a; x1a; x0a; x00; x00; x00; x0d]
    else None;
  base64_decode := base64_standard;
  statfs_avail := inl (8 * 1024 * 1024 * 1024);
  number_toString := decimal;
  UPLOAD_DIR := "/srv/uploads"
|}.

(** The same disk with the file gone. *)
Definition world_file_gone : World := {|
  fileTypeFromFile := nothing_recognised;
  fileTypeFromBuffer := nothing_recognised;
  files := fun _ => None;
  base64_decode := base64_standard;
  statfs_avail := inl (8 * 1024 * 1024 * 1024);
  number_toString := decimal;
  UPLOAD_DIR := "/srv/uploads"
|}.


(** What holds of the two bounded maps between any two events: each is
    within its limit and holds each key once. *)
Definition maps_ok (cfg : Config) (st : ServerState) : Prop :=
  JsMap.wf (fileMetaCache st)
  /\ JsMap.size (fileMetaCache st) <= CACHE_LIMIT_FILES cfg
  /\ JsMap.wf (ipRateLimits st)
  /\ JsMap.size (ipRateLimits st) <= CACHE_LIMIT_IPS cfg.

(** What holds of the counter of pending bytes between any two events: it
    is the sum of the lengths still due, and every admitted length is
    positive. *)
Definition ledger_ok (r : Running) : Prop :=
  pendingUploadBytes (server r) = outstanding (listeners r)
  /\ Forall (fun tr => 0 < len tr) (listeners r).

(** The sum of a list of byte counts. *)
Definition total (l : list Z) : Z := fold_right Z.add 0 l.

(** The uploads still in flight: admitted, and neither finished nor
    closed. *)
Definition in_flight (r : Running) : list Tracker :=
  filter tracked (listeners r).

(** A day on a small server: two uploads, a connection, messages, one
    upload finishing and closing, a sweep. *)
Definition sample_run : list ServerEvent :=
  [EvConnect 1 sample_socket;
   EvUpload sample_world (sample_upload "500");
   EvUpload world_after_upload
     (stored_upload world_after_upload sample_random "pixel.png" "12");
   EvMessage sample_world sample_socket 5 (text_message "hi");
   EvSignal Finish 0;
   EvSignal Close 0;
   EvSweep 70000;
   EvDisconnect 0 sample_socket].


(** How far apart two hues are on the colour circle: the shorter way
    round. *)
Definition circular_distance (a b : Q) : Q :=
  let d := if Qle_bool a b then (b - a)%Q else (a - b)%Q in
  if Qle_bool d (360 - d)%Q then d else (360 - d)%Q.

Definition Qsum (l : list Q) : Q := fold_right Qplus 0%Q l.


(* ================================================================== *)
(** * The client's log buffer *)
(* ================================================================== *)

Module LogManager.

(** [limit: 200] *)
Definition limit : Z := 200.

(** The end of [push], lines 37-38: the formatted entry is appended and,
    once the buffer is over the limit, its first entry is shifted out. *)
Definition push (entry : string) (buffer : list string) : list string :=
  let buffer1 := buffer ++ [entry] in
  if Z.of_nat (length buffer1) >? limit then tl buffer1 else buffer1.

(** The buffer after the given entries have been logged, oldest first,
    starting from the empty buffer of a fresh page. *)
Definition logged (entries : list string) : list string :=
  fold_left (fun buffer entry => push entry buffer) entries [].

End LogManager.






(** Two sockets opened from one address. *)
Definition second_socket : Socket := {| id := "s2"; ipHash := "203a9f1c" |}.


(** How many of the messages come from sockets of the identity [ip]. *)
Definition sent_by (ip : string) (msgs : list (Socket * (Z * JsVal))) : Z :=
  Z.of_nat (length (filter (fun m => String.eqb (ipHash (fst m)) ip) msgs)).

(** How many of the messages come from sockets of other identities. *)
Definition sent_by_others (ip : string) (msgs : list (Socket * (Z * JsVal)))
  : Z :=
  Z.of_nat
    (length (filter (fun m => negb (String.eqb (ipHash (fst m)) ip)) msgs)).





(** The verdicts of the limiter on a sequence of messages, each given by
    its identity and its time of arrival. *)
Fixpoint verdicts (cfg : Config) (msgs : list (string * Z)) (t : RateTable)
  : list bool :=
  match msgs with
  | [] => []
  | (ip, now) :: rest =>
      snd (rate_check cfg ip now t)
        :: verdicts cfg rest (fst (rate_check cfg ip now t))
  end.

(** [t'] is [t] without some windows that had expired before [now]. *)
Definition swept_of (now : Z) (t' t : RateTable) : Prop :=
  forall ip,
    JsMap.get ip t' = JsMap.get ip t
    \/ (JsMap.get ip t' = None
        /\ exists d, JsMap.get ip t = Some d /\ expires d < now).

(** A table of two windows that is full: the live window of an identity
    that has used up its allowance of 3, and an expired one. *)
Definition full_table : RateTable :=
  [("aa11", {| count := 3; expires := 130000 |});
   ("bb22", {| count := 1; expires := 50000 |})].

Definition tight_config : Config := {|
  CACHE_LIMIT_FILES := 1000; CACHE_LIMIT_IPS := 2; DISK_RESERVED := 0;
  MAX_REQ_PER_MIN := 3; MAX_UPLOAD_SIZE := 1000; MAX_USERS := 100
|}.

(* ================================================================== *)
(* ================================================================== *)
(** * Properties *)
(* ================================================================== *)
(* ================================================================== *)

(** ** Insertion-ordered maps *)

Module JsMapFacts.
Import JsMap.
Section Lemmas.
Context {V : Type}.
Implicit Types (m : t V) (k : string) (v : V).

Lemma delete_oldest_tl m : delete_oldest m = tl m.
Proof.
  destruct m as [|[k v] r]; [reflexivity|].
  unfold delete_oldest; simpl. now rewrite String.eqb_refl.
Qed.

Lemma get_In_keys k m : get k m <> None <-> In k (keys m).
Proof.
  induction m as [|[k' v'] r IH]; simpl.
  - split; [congruence | tauto].
  - destruct (String.eqb_spec k' k) as [->|Hne].
    + split; [auto | congruence].
    + rewrite IH. split; [auto | intros [?|?]; [congruence | assumption]].
Qed.

Lemma has_true_iff k m : has k m = true <-> In k (keys m).
Proof.
  unfold has. rewrite <- get_In_keys.
  destruct (get k m); split; congruence.
Qed.

Lemma has_false_iff k m : has k m = false <-> ~ In k (keys m).
Proof.
  rewrite <- has_true_iff. destruct (has k m); split; congruence.
Qed.

Lemma keys_set_present k v m :
  In k (keys m) -> keys (set k v m) = keys m.
Proof.
  induction m as [|[k' v'] r IH]; simpl; [tauto|].
  intros Hin. destruct (String.eqb_spec k' k) as [->|Hne]; simpl.
  - reflexivity.
  - f_equal. apply IH. destruct Hin; [congruence | assumption].
Qed.

Lemma keys_set_absent k v m :
  ~ In k (keys m) -> keys (set k v m) = keys m ++ [k].
Proof.
  induction m as [|[k' v'] r IH]; simpl; [reflexivity|].
  intros Hnin. destruct (String.eqb_spec k' k) as [->|Hne]; simpl.
  - exfalso; auto.
  - f_equal. apply IH. tauto.
Qed.

Lemma set_absent k v m :
  ~ In k (keys m) -> set k v m = m ++ [(k, v)].
Proof.
  induction m as [|[k' v'] r IH]; simpl; [reflexivity|].
  intros Hnin. destruct (String.eqb_spec k' k) as [->|Hne]; simpl.
  - exfalso; auto.
  - f_equal. apply IH. tauto.
Qed.

Lemma length_set k v m :
  length (set k v m) = if has k m then length m else S (length m).
Proof.
  destruct (has k m) eqn:Hh.
  - apply has_true_iff in Hh.
    rewrite <- (length_map fst (set k v m)), <- (length_map fst m).
    change (length (keys (set k v m)) = length (keys m)).
    now rewrite keys_set_present.
  - apply has_false_iff in Hh. rewrite set_absent by assumption.
    rewrite length_app; simpl. lia.
Qed.

Lemma length_set_le k v m : (length (set k v m) <= S (length m))%nat.
Proof. rewrite length_set. destruct (has k m); lia. Qed.

Lemma get_set_same k v m : get k (set k v m) = Some v.
Proof.
  induction m as [|[k' v'] r IH]; simpl.
  - now rewrite String.eqb_refl.
  - destruct (String.eqb_spec k' k) as [->|Hne]; simpl.
    + now rewrite String.eqb_refl.
    + destruct (String.eqb_spec k' k); [congruence | assumption].
Qed.

Lemma get_set_other k k' v m :
  k' <> k -> get k' (set k v m) = get k' m.
Proof.
  intros Hne. induction m as [|[k0 v0] r IH]; simpl.
  - destruct (String.eqb_spec k k'); [congruence | reflexivity].
  - destruct (String.eqb_spec k0 k) as [->|Hne0]; simpl.
    + destruct (String.eqb_spec k k'); [congruence | reflexivity].
    + now rewrite IH.
Qed.

Lemma wf_set k v m : wf m -> wf (set k v m).
Proof.
  unfold wf. intros Hwf.
  destruct (in_dec string_dec k (keys m)) as [Hin|Hnin].
  - now rewrite keys_set_present.
  - rewrite keys_set_absent by assumption.
    apply NoDup_app; [assumption | repeat constructor; simpl; tauto |].
    intros x Hx [<-|[]]. auto.
Qed.

Lemma wf_tl m : wf m -> wf (tl m).
Proof.
  unfold wf. destruct m as [|[k v] r]; simpl; [auto|].
  now inversion 1.
Qed.

Lemma wf_delete_oldest m : wf m -> wf (delete_oldest m).
Proof. rewrite delete_oldest_tl. apply wf_tl. Qed.
End Lemmas.

Section MoreLemmas.
Context {V : Type}.
Implicit Types (m : t V) (k : string) (v : V).

Lemma size_tl m : size (tl m) = Z.max 0 (size m - 1).
Proof. unfold size. destruct m; simpl length; lia. Qed.

Lemma size_set_le k v m : size (set k v m) <= size m + 1.
Proof. unfold size. pose proof (length_set_le k v m). lia. Qed.

Lemma size_set_present k v m : In k (keys m) -> size (set k v m) = size m.
Proof.
  intros Hin. unfold size. rewrite length_set.
  apply has_true_iff in Hin. now rewrite Hin.
Qed.

Lemma In_keys_set k v m : In k (keys (set k v m)).
Proof. apply get_In_keys. rewrite get_set_same. discriminate. Qed.

Lemma keys_tl m : keys (tl m) = tl (keys m).
Proof. now destruct m. Qed.

(** Overwriting the value of a present key touches nothing else. *)
Lemma set_set k v v' m : set k v (set k v' m) = set k v m.
Proof.
  induction m as [|[k0 v0] r IH]; simpl.
  - now rewrite String.eqb_refl.
  - destruct (String.eqb_spec k0 k) as [->|Hne]; simpl.
    + now rewrite String.eqb_refl.
    + destruct (String.eqb_spec k0 k); [congruence | now rewrite IH].
Qed.
End MoreLemmas.
End JsMapFacts.

Lemma distinctb_NoDup l : distinctb l = true -> NoDup l.
Proof.
  induction l as [|x r IH]; simpl; [constructor|].
  rewrite andb_true_iff, negb_true_iff. intros [Hx Hr].
  constructor; [|auto].
  intros Hin. assert (existsb (String.eqb x) r = true); [|congruence].
  apply existsb_exists. exists x. split; [assumption | apply String.eqb_refl].
Qed.

(* ================================================================== *)
(** ** Binary64 numbers *)
(* ================================================================== *)

Section Binary64.
Local Open Scope Q_scope.

(** *** Powers of two *)

Lemma pow2_pos e : 0 < 2 ^ e.
Proof. apply Qpower_0_lt. reflexivity. Qed.

Lemma pow2_plus a b : 2 ^ (a + b) == 2 ^ a * 2 ^ b.
Proof. apply Qpower_plus. discriminate. Qed.

Lemma pow2_succ a : 2 ^ (a + 1) == 2 * 2 ^ a.
Proof. rewrite pow2_plus. change (2 ^ 1) with 2. apply Qmult_comm. Qed.

Lemma pow2_pred a : 2 ^ (a - 1) == 2 ^ a * (1 # 2).
Proof.
  unfold Z.sub. rewrite pow2_plus. reflexivity.
Qed.

Lemma pow2_Z a : (0 <= a)%Z -> 2 ^ a == inject_Z (2 ^ a).
Proof. intros H. now rewrite (Zpower_Qpower 2 a H). Qed.

Lemma pow2_le a b : (a <= b)%Z -> 2 ^ a <= 2 ^ b.
Proof.
  intros H. replace b with (a + (b - a))%Z by lia. rewrite pow2_plus.
  assert (1 <= 2 ^ (b - a)).
  { rewrite pow2_Z by lia. change 1 with (inject_Z 1). rewrite <- Zle_Qle.
    pose proof (Z.pow_pos_nonneg 2 (b - a)). lia. }
  pose proof (pow2_pos a). nra.
Qed.

Lemma pow2_lt a b : (a < b)%Z -> 2 ^ a < 2 ^ b.
Proof.
  intros H. apply Qlt_le_trans with (2 ^ (a + 1)).
  - rewrite pow2_succ. pose proof (pow2_pos a). lra.
  - apply pow2_le. lia.
Qed.

Lemma pow2_lt_inv a b : 2 ^ a < 2 ^ b -> (a < b)%Z.
Proof.
  intros H. destruct (Z.lt_ge_cases a b) as [|Hge]; [assumption|].
  apply pow2_le in Hge. lra.
Qed.

Lemma div_le_cross a b c d :
  0 < b -> 0 < d -> a * d <= c * b -> a / b <= c / d.
Proof.
  intros Hb Hd H. apply Qle_shift_div_l; [assumption|].
  assert (E : a / b * d == a * d / b) by (field; lra).
  rewrite E. now apply Qle_shift_div_r.
Qed.

Lemma div_lt_cross a b c d :
  0 < b -> 0 < d -> a * d < c * b -> a / b < c / d.
Proof.
  intros Hb Hd H. apply Qlt_shift_div_l; [assumption|].
  assert (E : a / b * d == a * d / b) by (field; lra).
  rewrite E. now apply Qlt_shift_div_r.
Qed.

(** [ilog2 x] is the binary exponent of a positive [x]. *)
Lemma ilog2_spec x : 0 < x -> 2 ^ ilog2 x <= x /\ x < 2 ^ (ilog2 x + 1).
Proof.
  intros Hx. destruct x as [n d]. unfold ilog2. cbn [Qnum Qden].
  assert (Hn : (0 < n)%Z) by (unfold Qlt in Hx; simpl in Hx; lia).
  set (a := Z.log2 n). set (b := Z.log2 (Z.pos d)).
  assert (Ha : (2 ^ a <= n < 2 ^ (a + 1))%Z).
  { pose proof (Z.log2_spec n Hn) as H. subst a. now rewrite <- Z.add_1_r in H. }
  assert (Hb : (2 ^ b <= Z.pos d < 2 ^ (b + 1))%Z).
  { pose proof (Z.log2_spec (Z.pos d) eq_refl) as H. subst b.
    now rewrite <- Z.add_1_r in H. }
  assert (Ha0 : (0 <= a)%Z) by apply Z.log2_nonneg.
  assert (Hb0 : (0 <= b)%Z) by apply Z.log2_nonneg.
  assert (Ex : n # d == inject_Z n / inject_Z (Z.pos d)) by apply Qmake_Qdiv.
  assert (Hd : 0 < inject_Z (Z.pos d)) by reflexivity.
  assert (Hpb : 0 < inject_Z (2 ^ b)).
  { change 0 with (inject_Z 0). rewrite <- Zlt_Qlt. lia. }
  assert (Hpb1 : 0 < inject_Z (2 ^ (b + 1))).
  { change 0 with (inject_Z 0). rewrite <- Zlt_Qlt. lia. }
  assert (Ek : 2 ^ (a - b) == inject_Z (2 ^ a) / inject_Z (2 ^ b)).
  { rewrite Qpower_minus by discriminate. now rewrite !pow2_Z by assumption. }
  assert (Ek1 : 2 ^ (a - b + 1) == inject_Z (2 ^ (a + 1)) / inject_Z (2 ^ b)).
  { replace (a - b + 1)%Z with (a + 1 - b)%Z by lia.
    rewrite Qpower_minus by discriminate. now rewrite !pow2_Z by lia. }
  assert (Ek0 : 2 ^ (a - b - 1) == inject_Z (2 ^ a) / inject_Z (2 ^ (b + 1))).
  { replace (a - b - 1)%Z with (a - (b + 1))%Z by lia.
    rewrite Qpower_minus by discriminate. now rewrite !pow2_Z by lia. }
  assert (Hlow : 2 ^ (a - b - 1) <= n # d).
  { rewrite Ek0, Ex. apply div_le_cross; [assumption | assumption |].
    rewrite <- !inject_Z_mult, <- Zle_Qle. nia. }
  assert (Hup : n # d < 2 ^ (a - b + 1)).
  { rewrite Ek1, Ex. apply div_lt_cross; [assumption | assumption |].
    rewrite <- !inject_Z_mult, <- Zlt_Qlt. nia. }
  destruct (Qle_bool (2 ^ (a - b)) (n # d)) eqn:E.
  - apply Qle_bool_iff in E. split; assumption.
  - assert (n # d < 2 ^ (a - b)).
    { apply Qnot_le_lt. intros H. apply Qle_bool_iff in H. congruence. }
    replace (a - b - 1 + 1)%Z with (a - b)%Z by lia. split; assumption.
Qed.

Lemma ilog2_unique x k : 2 ^ k <= x -> x < 2 ^ (k + 1) -> ilog2 x = k.
Proof.
  intros H1 H2.
  assert (Hx : 0 < x) by (pose proof (pow2_pos k); lra).
  destruct (ilog2_spec x Hx) as [H3 H4].
  assert (ilog2 x < k + 1)%Z by (apply pow2_lt_inv; lra).
  assert (k < ilog2 x + 1)%Z by (apply pow2_lt_inv; lra).
  lia.
Qed.

(** ** Rounding to the nearest integer, ties to even *)

Lemma round_half_even_cases y :
  let f := Qfloor y in
  (round_half_even y = f /\ y - inject_Z f <= 1 # 2)
  \/ (round_half_even y = (f + 1)%Z /\ 1 # 2 <= y - inject_Z f).
Proof.
  intros f. unfold round_half_even. fold f.
  destruct (Qcompare_spec (y - inject_Z f) (1 # 2)) as [E|E|E].
  - destruct (Z.even f); [left | right]; split; try reflexivity; lra.
  - left. split; [reflexivity | lra].
  - right. split; [reflexivity | lra].
Qed.

Lemma floor_bounds y : inject_Z (Qfloor y) <= y /\ y < inject_Z (Qfloor y) + 1.
Proof.
  split; [apply Qfloor_le|].
  pose proof (Qlt_floor y) as H. rewrite inject_Z_plus in H. exact H.
Qed.

Lemma round_half_even_error y :
  - (1 # 2) <= inject_Z (round_half_even y) - y <= 1 # 2.
Proof.
  destruct (floor_bounds y) as [H1 H2].
  destruct (round_half_even_cases y) as [[-> H]|[-> H]].
  - lra.
  - rewrite inject_Z_plus. change (inject_Z 1) with 1. lra.
Qed.

Lemma floor_integer y z : y == inject_Z z -> Qfloor y = z.
Proof. intros E. rewrite E. apply Qfloor_Z. Qed.

Lemma round_half_even_integer y z :
  y == inject_Z z -> round_half_even y = z.
Proof.
  intros E. unfold round_half_even. rewrite (floor_integer y z E).
  destruct (Qcompare_spec (y - inject_Z z) (1 # 2)) as [H|H|H];
    try reflexivity; lra.
Qed.

(** Rounding does not cross an integer. *)
Lemma round_half_even_ge y z :
  inject_Z z <= y -> (z <= round_half_even y)%Z.
Proof.
  intros H.
  assert (z <= Qfloor y)%Z.
  { rewrite <- (Qfloor_Z z). now apply Qfloor_resp_le. }
  destruct (round_half_even_cases y) as [[-> _]|[-> _]]; lia.
Qed.

Lemma round_half_even_le y z :
  y <= inject_Z z -> (round_half_even y <= z)%Z.
Proof.
  intros H. destruct (floor_bounds y) as [H1 H2].
  assert (Hf : (Qfloor y <= z)%Z).
  { rewrite <- (Qfloor_Z z). now apply Qfloor_resp_le. }
  destruct (round_half_even_cases y) as [[-> _]|[-> Hr]]; [lia|].
  assert (inject_Z (Qfloor y) < inject_Z z) by lra.
  rewrite <- Zlt_Qlt in H0. lia.
Qed.

(** ** Rounding to binary64 *)

Lemma binary64_zero x : x == 0 -> binary64 x = 0.
Proof.
  intros E. unfold binary64.
  assert (H : Qeq_bool x 0 = true) by now apply Qeq_bool_iff.
  now rewrite H.
Qed.

Lemma binary64_nonzero x :
  ~ x == 0 ->
  binary64 x
  = inject_Z (round_half_even (x / 2 ^ exponent64 x)) * 2 ^ exponent64 x.
Proof.
  intros H. unfold binary64.
  destruct (Qeq_bool x 0) eqn:E; [|reflexivity].
  apply Qeq_bool_iff in E. contradiction.
Qed.

Lemma scaled_back x e : x / 2 ^ e * 2 ^ e == x.
Proof. field. pose proof (pow2_pos e). lra. Qed.

(** The error is at most half a unit in the last place. *)
Lemma binary64_error x :
  Qabs (binary64 x - x) <= 2 ^ exponent64 x * (1 # 2).
Proof.
  pose proof (pow2_pos (exponent64 x)) as Hp.
  destruct (Qeq_dec x 0) as [E|E].
  - rewrite (binary64_zero x E).
    apply Qabs_Qle_condition. split; lra.
  - rewrite (binary64_nonzero x E).
    pose proof (round_half_even_error (x / 2 ^ exponent64 x)) as [H1 H2].
    pose proof (scaled_back x (exponent64 x)) as Es.
    set (r := inject_Z (round_half_even (x / 2 ^ exponent64 x))) in *.
    set (y := x / 2 ^ exponent64 x) in *.
    set (p := 2 ^ exponent64 x) in *.
    apply Qabs_Qle_condition. split; nra.
Qed.

Lemma exponent64_small x :
  Qabs x < 1024 -> (exponent64 x <= -43)%Z.
Proof.
  intros H. unfold exponent64.
  destruct (Qeq_dec x 0) as [E|E].
  - assert (Ea : Qabs x == 0) by (rewrite E; reflexivity).
    assert (Hi : (ilog2 (Qabs x) <= 9)%Z).
    { unfold ilog2.
      destruct (Qabs x) as [n d] eqn:Eq. unfold Qeq in Ea. simpl in Ea.
      assert (n = 0%Z) by lia. subst n. cbn [Qnum Qden].
      change (Z.log2 0) with 0%Z.
      pose proof (Z.log2_nonneg (Z.pos d)).
      destruct (Qle_bool _ _); lia. }
    lia.
  - assert (Hpos : 0 < Qabs x).
    { pose proof (Qabs_nonneg x).
      destruct (Qeq_dec (Qabs x) 0) as [E0|E0]; [|lra].
      exfalso. apply E.
      apply Qabs_Qle_condition with (y := 0) in E0 || idtac.
      assert (Qabs x <= 0) by lra.
      apply Qabs_Qle_condition in H1. lra. }
    destruct (ilog2_spec (Qabs x) Hpos) as [H1 _].
    assert (ilog2 (Qabs x) < 10)%Z.
    { apply pow2_lt_inv. change (2 ^ 10) with 1024. lra. }
    lia.
Qed.

(** In the range of the hues the error is at most 2^-44. *)
Lemma binary64_close x :
  Qabs x < 1024 -> Qabs (binary64 x - x) <= 2 ^ (-44).
Proof.
  intros H. eapply Qle_trans; [apply binary64_error|].
  pose proof (exponent64_small x H) as He.
  pose proof (pow2_le (exponent64 x) (-43) He).
  change (2 ^ (-43)) with (1 # 8796093022208) in H0.
  change (2 ^ (-44)) with (1 # 17592186044416). lra.
Qed.

Lemma binary64_nonneg x : 0 <= x -> 0 <= binary64 x.
Proof.
  intros H. destruct (Qeq_dec x 0) as [E|E].
  - rewrite (binary64_zero x E). lra.
  - rewrite (binary64_nonzero x E).
    pose proof (pow2_pos (exponent64 x)) as Hp.
    assert (0 <= x / 2 ^ exponent64 x).
    { apply Qle_shift_div_l; [assumption|]. lra. }
    assert (0 <= round_half_even (x / 2 ^ exponent64 x))%Z
      by (apply round_half_even_ge; assumption).
    rewrite Zle_Qle in H1. change (inject_Z 0) with 0 in H1. nra.
Qed.

Lemma binary64_nonpos x : x <= 0 -> binary64 x <= 0.
Proof.
  intros H. destruct (Qeq_dec x 0) as [E|E].
  - rewrite (binary64_zero x E). lra.
  - rewrite (binary64_nonzero x E).
    pose proof (pow2_pos (exponent64 x)) as Hp.
    assert (x / 2 ^ exponent64 x <= 0).
    { apply Qle_shift_div_r; [assumption|]. lra. }
    assert (round_half_even (x / 2 ^ exponent64 x) <= 0)%Z
      by (apply round_half_even_le; assumption).
    rewrite Zle_Qle in H1. change (inject_Z 0) with 0 in H1. nra.
Qed.

Lemma Qabs_pos_nonzero x : ~ x == 0 -> 0 < Qabs x.
Proof.
  intros E. pose proof (Qabs_nonneg x).
  destruct (Qeq_dec (Qabs x) 0) as [E0|E0]; [|lra].
  exfalso. apply E.
  assert (H1 : Qabs x <= 0) by lra.
  apply Qabs_Qle_condition in H1. lra.
Qed.

Lemma exponent64_min x : (-1074 <= exponent64 x)%Z.
Proof. unfold exponent64. lia. Qed.

Lemma pow2_split e : (-1074 <= e)%Z ->
  2 ^ e == inject_Z (2 ^ (e + 1074)) * 2 ^ (-1074).
Proof.
  intros H. rewrite <- pow2_Z by lia. rewrite <- pow2_plus.
  now replace (e + 1074 + -1074)%Z with e by lia.
Qed.

(** Every result lies on the grid of the smallest subnormal. *)
Lemma binary64_grid x : exists k : Z, binary64 x == inject_Z k * 2 ^ (-1074).
Proof.
  destruct (Qeq_dec x 0) as [E|E].
  - exists 0%Z. rewrite (binary64_zero x E). reflexivity.
  - rewrite (binary64_nonzero x E).
    exists (round_half_even (x / 2 ^ exponent64 x) * 2 ^ (exponent64 x + 1074))%Z.
    rewrite (pow2_split (exponent64 x) (exponent64_min x)) at 2.
    rewrite inject_Z_mult. ring.
Qed.

Lemma scaled_bound x :
  ~ x == 0 -> Qabs (x / 2 ^ exponent64 x) < inject_Z (2 ^ 53).
Proof.
  intros E. pose proof (Qabs_pos_nonzero x E) as Hpos.
  destruct (ilog2_spec (Qabs x) Hpos) as [_ Hup].
  pose proof (pow2_pos (exponent64 x)) as Hp.
  assert (Ea : Qabs (x / 2 ^ exponent64 x) == Qabs x / 2 ^ exponent64 x).
  { unfold Qdiv. rewrite Qabs_Qmult, Qabs_Qinv.
    rewrite (Qabs_pos (2 ^ exponent64 x)) by lra. reflexivity. }
  rewrite Ea. apply Qlt_shift_div_r; [assumption|].
  rewrite <- pow2_Z by lia. rewrite <- pow2_plus.
  eapply Qlt_le_trans; [exact Hup|]. apply pow2_le.
  unfold exponent64. lia.
Qed.

(** A result is an integer of at most 53 bits times a power of two no
    smaller than 2^-1074. *)
Lemma binary64_repr x :
  ~ x == 0 ->
  exists m : Z,
    binary64 x == inject_Z m * 2 ^ exponent64 x
    /\ (Z.abs m <= 2 ^ 53)%Z.
Proof.
  intros E. exists (round_half_even (x / 2 ^ exponent64 x)).
  split; [now rewrite (binary64_nonzero x E)|].
  pose proof (scaled_bound x E) as Hb.
  apply Qabs_Qlt_condition in Hb. destruct Hb as [Hlo Hhi].
  assert (round_half_even (x / 2 ^ exponent64 x) <= 2 ^ 53)%Z
    by (apply round_half_even_le; lra).
  assert (- 2 ^ 53 <= round_half_even (x / 2 ^ exponent64 x))%Z.
  { apply round_half_even_ge. rewrite inject_Z_opp. lra. }
  lia.
Qed.

Lemma half_scale (a b p q : Q) : a == 2 * b -> q == 2 * p -> a * p == b * q.
Proof. intros Ea Eq. rewrite Ea, Eq. ring. Qed.

(** An integer of at most 53 bits times a power of two that is no smaller
    than 2^-1074 is a binary64 number. *)
Lemma binary64_fixed x k e :
  x == inject_Z k * 2 ^ e -> (Z.abs k <= 2 ^ 53)%Z -> (-1074 <= e)%Z ->
  is_binary64 x.
Proof.
  intros Ex Hk He. unfold is_binary64.
  destruct (Qeq_dec x 0) as [E|E].
  { rewrite (binary64_zero x E). now symmetry. }
  rewrite (binary64_nonzero x E).
  pose proof (Qabs_pos_nonzero x E) as Hpos.
  destruct (ilog2_spec (Qabs x) Hpos) as [Hlow _].
  pose proof (pow2_pos e) as Hpe.
  pose proof (pow2_pos (exponent64 x)) as Hp.
  assert (Hax : Qabs x == inject_Z (Z.abs k) * 2 ^ e).
  { rewrite Ex, Qabs_Qmult, (Qabs_pos (2 ^ e)) by lra.
    destruct k as [|p|p]; reflexivity. }
  assert (Hle : Qabs x <= 2 ^ (53 + e)).
  { rewrite Hax, (pow2_plus 53 e), (pow2_Z 53) by lia.
    assert (inject_Z (Z.abs k) <= inject_Z (2 ^ 53)) by now rewrite <- Zle_Qle.
    nra. }
  assert (HL : (ilog2 (Qabs x) <= 53 + e)%Z).
  { destruct (Z.le_gt_cases (ilog2 (Qabs x)) (53 + e)) as [|Hgt]; [assumption|].
    apply pow2_lt in Hgt. lra. }
  assert (Hz : exists z : Z, x / 2 ^ exponent64 x == inject_Z z).
  { destruct (Z.eq_dec (ilog2 (Qabs x)) (53 + e)) as [Etop|Hlt].
    - (* the top of the range: k is 2^53 or its opposite *)
      assert (Hk2 : (2 ^ 53 <= Z.abs k)%Z).
      { rewrite Etop, Hax, (pow2_plus 53 e), (pow2_Z 53) in Hlow by lia.
        assert (inject_Z (2 ^ 53) <= inject_Z (Z.abs k)) by nra.
        now rewrite <- Zle_Qle in H. }
      assert (Ee : exponent64 x = (e + 1)%Z) by (unfold exponent64; lia).
      exists (k / 2)%Z. rewrite Ee.
      assert (Ek : inject_Z k == 2 * inject_Z (k / 2)).
      { assert (Habs : (Z.abs k = 2 ^ 53)%Z) by lia.
        assert (Ek : k = (2 * (k / 2))%Z).
        { destruct k as [|p|p]; simpl in Habs; try discriminate;
            injection Habs as ->; reflexivity. }
        rewrite Ek at 1. now rewrite inject_Z_mult. }
      pose proof (pow2_succ e) as Es. pose proof (pow2_pos (e + 1)) as Hp1.
      apply Qmult_inj_r with (z := 2 ^ (e + 1)); [lra|].
      rewrite scaled_back, Ex. now apply half_scale.
    - assert (Hee : (exponent64 x <= e)%Z) by (unfold exponent64; lia).
      exists (k * 2 ^ (e - exponent64 x))%Z.
      apply Qmult_inj_r with (z := 2 ^ exponent64 x); [lra|].
      rewrite scaled_back. etransitivity; [exact Ex|].
      rewrite inject_Z_mult, <- pow2_Z by lia.
      rewrite <- Qmult_assoc, <- pow2_plus.
      now replace (e - exponent64 x + exponent64 x)%Z with e by lia. }
  destruct Hz as [z Hz].
  rewrite (round_half_even_integer _ z Hz), <- Hz.
  apply scaled_back.
Qed.

Lemma binary64_idempotent x : is_binary64 (binary64 x).
Proof.
  destruct (Qeq_dec x 0) as [E|E].
  - rewrite (binary64_zero x E). reflexivity.
  - destruct (binary64_repr x E) as (m & Hm & Hb).
    exact (binary64_fixed _ m (exponent64 x) Hm Hb (exponent64_min x)).
Qed.

(** Nothing at or above the smallest subnormal is rounded to zero. *)
Lemma binary64_pos x : 2 ^ (-1074) <= x -> 0 < binary64 x.
Proof.
  intros H. pose proof (pow2_pos (-1074)) as Hq.
  assert (E : ~ x == 0) by lra.
  rewrite (binary64_nonzero x E).
  pose proof (pow2_pos (exponent64 x)) as Hp.
  assert (Hone : inject_Z 1 <= x / 2 ^ exponent64 x).
  { change (inject_Z 1) with 1.
    apply Qle_shift_div_l; [assumption|].
    unfold exponent64.
    destruct (Z.max_spec (ilog2 (Qabs x) - 52) (-1074)) as [[_ ->]|[_ ->]].
    - lra.
    - assert (Hx : 0 < Qabs x) by (apply Qabs_pos_nonzero; assumption).
      destruct (ilog2_spec (Qabs x) Hx) as [Hl _].
      pose proof (Qabs_pos x ltac:(lra)) as Eabs.
      pose proof (pow2_le (ilog2 (Qabs x) - 52) (ilog2 (Qabs x)) ltac:(lia)).
      lra. }
  apply round_half_even_ge in Hone.
  rewrite Zle_Qle in Hone. change (inject_Z 1) with 1 in Hone. nra.
Qed.

(** The difference of two binary64 numbers is not rounded to zero. *)
Lemma binary64_difference a b :
  is_binary64 a -> is_binary64 b -> a < b -> 0 < binary64 (b - a).
Proof.
  unfold is_binary64. intros Ha Hb Hlt.
  destruct (binary64_grid a) as [ka Ka]. destruct (binary64_grid b) as [kb Kb].
  rewrite Ha in Ka. rewrite Hb in Kb.
  pose proof (pow2_pos (-1074)) as Hq.
  apply binary64_pos.
  assert (Hk : (ka < kb)%Z).
  { destruct (Z.lt_ge_cases ka kb) as [|Hge]; [assumption|].
    rewrite Z.ge_le_iff in Hge || idtac.
    assert (inject_Z kb <= inject_Z ka) by (rewrite <- Zle_Qle; lia).
    nra. }
  assert (inject_Z ka + 1 <= inject_Z kb).
  { change 1 with (inject_Z 1). rewrite <- inject_Z_plus, <- Zle_Qle. lia. }
  nra.
Qed.

Lemma ilog2_comp x y : 0 < x -> x == y -> ilog2 x = ilog2 y.
Proof.
  intros Hx E. destruct (ilog2_spec x Hx) as [H1 H2].
  symmetry. apply ilog2_unique; rewrite <- E; assumption.
Qed.

Lemma exponent64_comp x y : ~ x == 0 -> x == y -> exponent64 x = exponent64 y.
Proof.
  intros Hx E. unfold exponent64. f_equal. f_equal.
  apply ilog2_comp; [now apply Qabs_pos_nonzero | now rewrite E].
Qed.

Lemma round_half_even_comp x y : x == y -> round_half_even x = round_half_even y.
Proof.
  intros E. unfold round_half_even.
  rewrite (Qfloor_comp x y E).
  assert (Hc : (x - inject_Z (Qfloor y) ?= 1 # 2)
               = (y - inject_Z (Qfloor y) ?= 1 # 2)) by now rewrite E.
  now rewrite Hc.
Qed.

Lemma binary64_comp x y : x == y -> binary64 x == binary64 y.
Proof.
  intros E. destruct (Qeq_dec x 0) as [Hz|Hnz].
  - rewrite (binary64_zero x Hz), (binary64_zero y); [reflexivity|].
    now rewrite <- E.
  - assert (Hny : ~ y == 0).
    { intros Hy. apply Hnz. now rewrite E. }
    rewrite (binary64_nonzero x Hnz), (binary64_nonzero y Hny).
    rewrite <- (exponent64_comp x y Hnz E).
    rewrite (round_half_even_comp (x / 2 ^ exponent64 x)
               (y / 2 ^ exponent64 x)); [reflexivity|].
    unfold Qdiv. apply Qmult_comp; [exact E | reflexivity].
Qed.

Lemma is_binary64_comp x y : x == y -> is_binary64 x -> is_binary64 y.
Proof.
  unfold is_binary64. intros E H.
  rewrite <- (binary64_comp x y E), H. exact E.
Qed.
End Binary64.

(* ================================================================== *)
(** ** MetadataCache *)
(* ================================================================== *)

Section MetadataCache.
Import JsMap JsMapFacts.
Variable cfg : Config.
Let cap := CACHE_LIMIT_FILES cfg.









(** A hit answers from the cache and leaves it as it is. *)
Lemma lookup_hit w k meta (c : Cache) :
  get k c = Some meta -> getCachedFileMeta cfg w k c = (Some meta, c).
Proof. intros H. unfold getCachedFileMeta. now rewrite H. Qed.


Lemma cacheFileMeta_wf k v (c : Cache) : wf c -> wf (cacheFileMeta cfg k v c).
Proof.
  intros H. unfold cacheFileMeta.
  destruct (_ <=? _); apply wf_set; [apply wf_delete_oldest|]; assumption.
Qed.

(** The cache never grows beyond its capacity. *)
Lemma cacheFileMeta_bounded k v (c : Cache) :
  1 <= cap -> size c <= cap -> size (cacheFileMeta cfg k v c) <= cap.
Proof.
  intros Hcap Hle. unfold cacheFileMeta. fold cap.
  destruct (Z.leb_spec cap (size c)).
  - rewrite delete_oldest_tl.
    pose proof (size_set_le k v (tl c)). rewrite size_tl in *. lia.
  - pose proof (size_set_le k v c). lia.
Qed.
End MetadataCache.




(* ================================================================== *)
(** ** RateLimiter *)
(* ================================================================== *)

Lemma negb_gtb a b : negb (a >? b) = (a <=? b).
Proof.
  destruct (Z.leb_spec a b), (Z.gtb_spec a b); simpl; try reflexivity; lia.
Qed.

Section RateLimiter.
Import JsMap JsMapFacts.
Variable cfg : Config.
Let cap := CACHE_LIMIT_IPS cfg.
Let ceiling := MAX_REQ_PER_MIN cfg.

Lemma allocate_window_full ip now (t : RateTable) :
  cap <= size t ->
  allocate_window cfg ip now t = set ip (fresh_window now) (tl t).
Proof.
  intros H. unfold allocate_window. fold cap.
  destruct (Z.leb_spec cap (size t)); [|lia].
  now rewrite delete_oldest_tl.
Qed.

(** A message inside a live window: the window is counted up in place. *)
Lemma rate_check_live ip now d (t : RateTable) :
  get ip t = Some d -> now <= expires d ->
  rate_check cfg ip now t =
    (set ip {| count := count d + 1; expires := expires d |} t,
     count d + 1 <=? ceiling).
Proof.
  intros Hget Hnow. unfold rate_check. rewrite Hget.
  destruct (Z.gtb_spec now (expires d)); [lia|].
  simpl. now rewrite negb_gtb.
Qed.

(** A message without a live window: a fresh window is allocated and holds
    the count 1. *)
Lemma rate_check_fresh ip now (t : RateTable) :
  no_live_window ip now t = true ->
  rate_check cfg ip now t =
    (set ip {| count := 1; expires := now + 60000 |}
       (if cap <=? size t then tl t else t),
     1 <=? ceiling).
Proof.
  unfold no_live_window, rate_check. intros H.
  assert (E : allocate_window cfg ip now t =
              set ip (fresh_window now) (if cap <=? size t then tl t else t)).
  { unfold allocate_window. fold cap.
    destruct (cap <=? size t); [now rewrite delete_oldest_tl | reflexivity]. }
  destruct (get ip t) as [d|].
  - rewrite H. simpl. rewrite negb_gtb, E, set_set. reflexivity.
  - simpl. rewrite negb_gtb, E, set_set. reflexivity.
Qed.

Lemma rate_check_cases ip now (t : RateTable) :
  (exists d, get ip t = Some d /\ now <= expires d)
  \/ no_live_window ip now t = true.
Proof.
  unfold no_live_window. destruct (get ip t) as [d|]; [|now right].
  destruct (Z.gtb_spec now (expires d)); [now right | left].
  exists d. split; [reflexivity | lia].
Qed.

Lemma rate_check_bounded ip now (t : RateTable) :
  1 <= cap -> size t <= cap -> size (fst (rate_check cfg ip now t)) <= cap.
Proof.
  intros Hcap Hle.
  destruct (rate_check_cases ip now t) as [(d & Hg & Hn)|Hf].
  - rewrite (rate_check_live ip now d) by assumption. simpl.
    rewrite size_set_present; [assumption|].
    apply get_In_keys. congruence.
  - rewrite rate_check_fresh by assumption. simpl.
    destruct (Z.leb_spec cap (size t)).
    + pose proof (size_set_le ip {| count := 1; expires := now + 60000 |} (tl t)).
      rewrite size_tl in *. lia.
    + pose proof (size_set_le ip {| count := 1; expires := now + 60000 |} t).
      lia.
Qed.


Lemma sweep_bounded now (t : RateTable) : size (sweep now t) <= size t.
Proof.
  unfold sweep, size. apply inj_le. apply filter_length_le.
Qed.

Lemma sweep_keeps_live now (t : RateTable) ip d :
  wf t -> get ip t = Some d -> now <= expires d ->
  get ip (sweep now t) = Some d.
Proof.
  unfold sweep. induction t as [|[k v] r IH]; simpl; [discriminate|].
  intros Hwf Hget Hnow. inversion Hwf as [|? ? Hk Hr]; subst.
  destruct (String.eqb_spec k ip) as [->|Hne].
  - injection Hget as ->. simpl.
    destruct (Z.gtb_spec now (expires d)); [lia|]. simpl.
    now rewrite String.eqb_refl.
  - destruct (negb _); simpl; [|now apply IH].
    destruct (String.eqb_spec k ip); [congruence | now apply IH].
Qed.

Lemma table_step_bounded e (t : RateTable) :
  1 <= cap -> size t <= cap -> size (table_step cfg t e) <= cap.
Proof.
  intros Hcap Hle. destruct e as [ip now|now]; simpl.
  - now apply rate_check_bounded.
  - pose proof (sweep_bounded now t). lia.
Qed.

Lemma table_run_bounded es : forall t : RateTable,
  1 <= cap -> size t <= cap -> size (table_run cfg es t) <= cap.
Proof.
  induction es as [|e es IH]; intros t Hcap Hle; simpl; [assumption|].
  apply IH; [assumption|]. now apply table_step_bounded.
Qed.
End RateLimiter.

Lemma wf_filter {V} (f : string * V -> bool) (m : JsMap.t V) :
  JsMap.wf m -> JsMap.wf (filter f m).
Proof.
  unfold JsMap.wf, JsMap.keys.
  induction m as [|[k v] r IH]; simpl; [auto|].
  intros Hnd. inversion Hnd as [|? ? Hk Hr]; subst.
  destruct (f (k, v)); simpl; [|auto].
  constructor; [|auto].
  intros Hin. apply Hk. apply in_map_iff in Hin.
  destruct Hin as (x & Hx & Hin). apply filter_In in Hin.
  apply in_map_iff. exists x. tauto.
Qed.

Lemma rate_check_wf cfg ip now (t : RateTable) :
  JsMap.wf t -> JsMap.wf (fst (rate_check cfg ip now t)).
Proof.
  intros Hwf. unfold rate_check, allocate_window.
  destruct (JsMap.get ip t) as [d|]; [destruct (now >? expires d)|];
    simpl; repeat apply JsMapFacts.wf_set; try assumption;
    destruct (_ <=? _); try apply JsMapFacts.wf_delete_oldest; assumption.
Qed.

Lemma table_run_wf cfg es : forall t : RateTable,
  JsMap.wf t -> JsMap.wf (table_run cfg es t).
Proof.
  induction es as [|e es IH]; intros t Hwf; simpl; [assumption|].
  apply IH. destruct e as [ip now|now]; simpl.
  - now apply rate_check_wf.
  - now apply wf_filter.
Qed.

(* ================================================================== *)
(** ** MessageRelay: what the listener does to the state and emits *)
(* ================================================================== *)

Ltac break_match :=
  match goal with
  | |- context [match ?x with _ => _ end] =>
      lazymatch x with
      | context [match _ with _ => _ end] => fail
      | _ => destruct x eqn:?
      end
  end.

Section Relay.
Variables (cfg : Config) (w : World) (sock : Socket).

Lemma broadcast_only_nil : Forall is_broadcast [].
Proof. constructor. Qed.

Lemma broadcast_only_one p : Forall is_broadcast [ToAll "message" p].
Proof. repeat constructor. now exists p. Qed.

Create HintDb relay.
#[local] Hint Resolve broadcast_only_nil broadcast_only_one : relay.

(** The file branch leaves the rate table, the hues and the ledger alone
    and emits nothing but broadcasts. *)
Lemma relay_file_frame msg st :
  let r := relay_file cfg w msg st in
  ipRateLimits (fst r) = ipRateLimits st
  /\ activeHues (fst r) = activeHues st
  /\ pendingUploadBytes (fst r) = pendingUploadBytes st
  /\ Forall is_broadcast (events (snd r)).
Proof.
  unfold relay_file. repeat break_match; simpl; auto with relay.
Qed.

Lemma on_message_rejected now msg st :
  snd (rate_check cfg (ipHash sock) now (ipRateLimits st)) = false ->
  on_message cfg w sock now msg st
  = (with_limits (fst (rate_check cfg (ipHash sock) now (ipRateLimits st))) st,
     rate_limit_rejection sock).
Proof.
  unfold on_message. destruct (rate_check _ _ _ _) as [t a]. simpl.
  now intros ->.
Qed.

Lemma on_message_limits now msg st :
  ipRateLimits (fst (on_message cfg w sock now msg st))
  = fst (rate_check cfg (ipHash sock) now (ipRateLimits st)).
Proof.
  unfold on_message. destruct (rate_check _ _ _ _) as [t a]. simpl.
  destruct a; simpl; [|reflexivity].
  repeat break_match; simpl; try reflexivity;
    match goal with
    | |- context [relay_file cfg w ?m ?s] =>
        now destruct (relay_file_frame m s) as (-> & _)
    end.
Qed.

Lemma on_message_allowed now msg st :
  snd (rate_check cfg (ipHash sock) now (ipRateLimits st)) = true ->
  Forall is_broadcast (events (snd (on_message cfg w sock now msg st))).
Proof.
  unfold on_message. destruct (rate_check _ _ _ _) as [t a]. simpl.
  intros ->. simpl.
  repeat break_match; simpl; auto with relay;
    match goal with
    | |- context [relay_file cfg w ?m ?s] =>
        now destruct (relay_file_frame m s) as (_ & _ & _ & ?)
    end.
Qed.

Lemma rejection_not_broadcast :
  ~ Forall is_broadcast (events (rate_limit_rejection sock)).
Proof.
  simpl. intros H. inversion H as [|? ? [p Hp] _]. discriminate.
Qed.

End Relay.

(** ** The traffic of many sockets *)

Section Traffic.
Variables (cfg : Config) (w : World).

Lemma relay_all_cons sock now msg msgs st :
  relay_all cfg w ((sock, (now, msg)) :: msgs) st
  = (fst (relay_all cfg w msgs (fst (on_message cfg w sock now msg st))),
     snd (on_message cfg w sock now msg st)
       :: snd (relay_all cfg w msgs
                 (fst (on_message cfg w sock now msg st)))).
Proof.
  simpl. destruct (on_message _ _ _ _ _ _) as [st1 out]. simpl.
  now destruct (relay_all _ _ _ _) as [st2 outs].
Qed.

Lemma relay_all_length msgs : forall st,
  length (snd (relay_all cfg w msgs st)) = length msgs.
Proof.
  induction msgs as [|[s0 [n0 x0]] l IH]; intros s; [reflexivity|].
  rewrite relay_all_cons. simpl. now rewrite IH.
Qed.

(** While the table has room, a message changes the window of its own
    identity and nothing else. *)
Lemma rate_check_room ip now (t : RateTable) :
  JsMap.size t < CACHE_LIMIT_IPS cfg ->
  exists d, fst (rate_check cfg ip now t) = JsMap.set ip d t.
Proof.
  intros Hroom.
  destruct (rate_check_cases cfg ip now t) as [(d & Hg & Hn)|Hf].
  - rewrite (rate_check_live cfg ip now d) by assumption. simpl. eauto.
  - rewrite rate_check_fresh by assumption. simpl.
    destruct (Z.leb_spec (CACHE_LIMIT_IPS cfg) (JsMap.size t)); [lia|].
    eauto.
Qed.

Lemma sent_by_cons ip m msgs :
  sent_by ip (m :: msgs)
  = (if String.eqb (ipHash (fst m)) ip then 1 else 0) + sent_by ip msgs.
Proof.
  unfold sent_by. simpl filter.
  destruct (String.eqb (ipHash (fst m)) ip); simpl length; lia.
Qed.

Lemma sent_by_others_cons ip m msgs :
  sent_by_others ip (m :: msgs)
  = (if String.eqb (ipHash (fst m)) ip then 0 else 1)
    + sent_by_others ip msgs.
Proof.
  unfold sent_by_others. simpl filter.
  destruct (String.eqb (ipHash (fst m)) ip); simpl length; lia.
Qed.

Lemma sent_by_others_nonneg ip msgs : 0 <= sent_by_others ip msgs.
Proof. unfold sent_by_others. lia. Qed.

(** Messages of any sockets, those of the identity [ip] all inside its
    live window that has counted [c] so far, on a table with room for the
    messages of the other identities: the window counts the messages of
    [ip] and no others, and each of them passes while the count is within
    the ceiling and is rejected beyond it, whatever the other identities
    send in between. *)
Lemma relay_all_window ip msgs : forall st c e,
  JsMap.get ip (ipRateLimits st) = Some {| count := c; expires := e |} ->
  (0 < sent_by_others ip msgs ->
   JsMap.size (ipRateLimits st) + sent_by_others ip msgs
     <= CACHE_LIMIT_IPS cfg) ->
  Forall (fun m => ipHash (fst m) = ip -> fst (snd m) <= e) msgs ->
  let r := relay_all cfg w msgs st in
  JsMap.get ip (ipRateLimits (fst r))
    = Some {| count := c + sent_by ip msgs; expires := e |}
  /\ forall k m out,
       nth_error msgs k = Some m -> nth_error (snd r) k = Some out ->
       ipHash (fst m) = ip ->
       (c + sent_by ip (firstn k msgs) + 1 <= MAX_REQ_PER_MIN cfg ->
        Forall is_broadcast (events out))
       /\ (MAX_REQ_PER_MIN cfg < c + sent_by ip (firstn k msgs) + 1 ->
           out = rate_limit_rejection (fst m)).
Proof.
  induction msgs as [|[sock [now msg]] msgs IH];
    intros st c e Hget Hroom Hall r.
  - subst r. simpl. split.
    + rewrite Hget. unfold sent_by. simpl. do 2 f_equal. lia.
    + intros [|k] m out; discriminate.
  - subst r. rewrite relay_all_cons. simpl fst. simpl snd.
    inversion Hall as [|? ? Hnow Hrest]; subst. cbn [fst snd] in Hnow.
    rewrite sent_by_others_cons in Hroom. cbn [fst] in Hroom.
    pose proof (sent_by_others_nonneg ip msgs) as Hpos.
    set (st1 := fst (on_message cfg w sock now msg st)).
    assert (Hlim : ipRateLimits st1
                   = fst (rate_check cfg (ipHash sock) now (ipRateLimits st)))
      by apply on_message_limits.
    rewrite sent_by_cons. cbn [fst].
    destruct (String.eqb_spec (ipHash sock) ip) as [Hip|Hip].
    + (* a message of the identity *)
      specialize (Hnow Hip). rewrite <- Hip in Hget.
      pose proof (rate_check_live cfg (ipHash sock) now _ _ Hget Hnow) as Hrc.
      simpl in Hrc.
      assert (Hget1 : JsMap.get ip (ipRateLimits st1)
                      = Some {| count := c + 1; expires := e |}).
      { rewrite Hlim, Hrc, <- Hip. simpl. apply JsMapFacts.get_set_same. }
      assert (Hsize : JsMap.size (ipRateLimits st1)
                      = JsMap.size (ipRateLimits st)).
      { rewrite Hlim, Hrc. simpl. apply JsMapFacts.size_set_present.
        apply JsMapFacts.get_In_keys. congruence. }
      destruct (IH st1 (c + 1) e Hget1 ltac:(lia) Hrest) as [IHget IHouts].
      split.
      * rewrite IHget. do 2 f_equal; lia.
      * intros [|k] m out Hm Hk Hmip; simpl in Hm, Hk.
        -- injection Hk as <-. injection Hm as <-. cbn [fst firstn].
           change (sent_by ip []) with 0. split; intros Hc.
           ++ apply on_message_allowed. rewrite Hrc. simpl.
              apply Z.leb_le. lia.
           ++ rewrite on_message_rejected; [reflexivity|].
              rewrite Hrc. simpl. apply Z.leb_gt. lia.
        -- cbn [firstn]. rewrite sent_by_cons. cbn [fst].
           destruct (String.eqb_spec (ipHash sock) ip); [|contradiction].
           destruct (IHouts k m out Hm Hk Hmip) as [Ha Hr].
           split; intros Hc; [apply Ha | apply Hr]; lia.
    + (* a message of another identity *)
      destruct (rate_check_room (ipHash sock) now (ipRateLimits st))
        as [d Hd]; [lia|].
      assert (Hget1 : JsMap.get ip (ipRateLimits st1)
                      = Some {| count := c; expires := e |}).
      { rewrite Hlim, Hd, JsMapFacts.get_set_other by congruence.
        exact Hget. }
      assert (Hsize : JsMap.size (ipRateLimits st1)
                      <= JsMap.size (ipRateLimits st) + 1).
      { rewrite Hlim, Hd. apply JsMapFacts.size_set_le. }
      destruct (IH st1 c e Hget1 ltac:(lia) Hrest) as [IHget IHouts].
      split.
      * rewrite IHget. do 2 f_equal; lia.
      * intros [|k] m out Hm Hk Hmip; simpl in Hm, Hk.
        -- injection Hm as <-. cbn [fst] in Hmip. contradiction.
        -- cbn [firstn]. rewrite sent_by_cons. cbn [fst].
           destruct (String.eqb_spec (ipHash sock) ip); [contradiction|].
           destruct (IHouts k m out Hm Hk Hmip) as [Ha Hr].
           split; intros Hc; [apply Ha | apply Hr]; lia.
Qed.

(** The same traffic when it opens the window: the first message comes
    from a socket of [ip] at [t0], when [ip] has no live window. *)
Lemma relay_all_fresh_window ip first t0 m0 msgs st :
  ipHash first = ip ->
  no_live_window ip t0 (ipRateLimits st) = true ->
  Forall (fun m => ipHash (fst m) = ip -> fst (snd m) <= t0 + 60000) msgs ->
  (0 < sent_by_others ip msgs ->
   JsMap.size (ipRateLimits st) + sent_by_others ip msgs
     < CACHE_LIMIT_IPS cfg) ->
  let all := (first, (t0, m0)) :: msgs in
  let r := relay_all cfg w all st in
  JsMap.get ip (ipRateLimits (fst r))
    = Some {| count := sent_by ip all; expires := t0 + 60000 |}
  /\ forall n m out,
       nth_error all n = Some m -> nth_error (snd r) n = Some out ->
       ipHash (fst m) = ip ->
       (sent_by ip (firstn n all) + 1 <= MAX_REQ_PER_MIN cfg ->
        Forall is_broadcast (events out)
        /\ out <> rate_limit_rejection (fst m))
       /\ (MAX_REQ_PER_MIN cfg < sent_by ip (firstn n all) + 1 ->
           out = rate_limit_rejection (fst m)).
Proof.
  intros Hip Hfresh Hall Hroom all r.
  subst all r. rewrite relay_all_cons. simpl fst. simpl snd.
  pose proof (rate_check_fresh cfg ip t0 (ipRateLimits st) Hfresh) as Hrc.
  rewrite <- Hip in Hrc.
  set (st1 := fst (on_message cfg w first t0 m0 st)).
  assert (Hlim : ipRateLimits st1
                 = fst (rate_check cfg (ipHash first) t0 (ipRateLimits st)))
    by apply on_message_limits.
  assert (Hget : JsMap.get ip (ipRateLimits st1)
                 = Some {| count := 1; expires := t0 + 60000 |}).
  { rewrite Hlim, Hrc. simpl fst. rewrite Hip.
    apply JsMapFacts.get_set_same. }
  assert (Hsize : 0 < sent_by_others ip msgs ->
                  JsMap.size (ipRateLimits st1)
                  <= JsMap.size (ipRateLimits st) + 1).
  { intros Ho. specialize (Hroom Ho).
    pose proof (sent_by_others_nonneg ip msgs).
    destruct (rate_check_room (ipHash first) t0 (ipRateLimits st))
      as [d Hd]; [lia|].
    rewrite Hlim, Hd. apply JsMapFacts.size_set_le. }
  destruct (relay_all_window ip msgs st1 1 (t0 + 60000) Hget
              ltac:(intros Ho; specialize (Hroom Ho);
                    specialize (Hsize Ho); lia) Hall)
    as [Hlast Houts].
  assert (Hnot : forall (s : Socket) out,
            Forall is_broadcast (events out) -> out <> rate_limit_rejection s).
  { intros s out Hb ->. now apply (rejection_not_broadcast s). }
  assert (Hsent : forall l, sent_by ip ((first, (t0, m0)) :: l)
                            = 1 + sent_by ip l).
  { intros l. rewrite sent_by_cons. cbn [fst].
    destruct (String.eqb_spec (ipHash first) ip); [reflexivity|contradiction]. }
  split.
  { rewrite Hlast, Hsent. reflexivity. }
  intros [|n] m out Hm Hout Hmip; simpl in Hm, Hout.
  - injection Hm as <-. injection Hout as <-. cbn [fst firstn].
    change (sent_by ip []) with 0.
    assert (Hb : 1 <= MAX_REQ_PER_MIN cfg ->
                 Forall is_broadcast
                   (events (snd (on_message cfg w first t0 m0 st)))).
    { intros Hc. apply on_message_allowed. rewrite Hrc. simpl.
      apply Z.leb_le. lia. }
    split; intros Hc.
    + split; [apply Hb; lia | apply Hnot, Hb; lia].
    + rewrite on_message_rejected; [reflexivity|].
      rewrite Hrc. simpl. apply Z.leb_gt. lia.
  - cbn [firstn]. rewrite Hsent.
    destruct (Houts n m out Hm Hout Hmip) as [Ha Hr]. split; intros Hc.
    + assert (Hb : Forall is_broadcast (events out)) by (apply Ha; lia).
      split; [exact Hb | now apply Hnot].
    + apply Hr. lia.
Qed.
End Traffic.





(* ================================================================== *)
(** ** UploadAdmission *)
(* ================================================================== *)

Section UploadAdmission.
Variables (cfg : Config) (w : World).

Ltac admission_cases declared :=
  unfold admission;
  destruct (parseInt declared) as [parsed|];
  [ destruct (Z.leb_spec parsed 0);
    [ | match goal with
        | |- context [?a >? ?b] => destruct (Z.gtb_spec a b)
        end ]
  | ].

Lemma admission_length_required declared avail pending :
  admission cfg declared avail pending = LengthRequired
  <-> parseInt declared = None
      \/ exists len, parseInt declared = Some len /\ len <= 0.
Proof.
  admission_cases declared; (split; [intros E | intros [E|(l & E & Hl)]]);
    try discriminate; try reflexivity; try (injection E as <-; lia).
  - right. eauto.
  - now left.
Qed.

Lemma admission_storage_full declared avail pending :
  admission cfg declared avail pending = StorageFull
  <-> exists len, parseInt declared = Some len /\ 0 < len
                  /\ len > avail - (DISK_RESERVED cfg + pending).
Proof.
  admission_cases declared; (split; [intros E | intros (l & E & Hpos & Hl)]);
    try discriminate; try reflexivity; try (injection E as <-; lia).
  exists parsed. repeat split; lia.
Qed.

Lemma admission_accepted declared avail pending len :
  admission cfg declared avail pending = Accepted len
  <-> parseInt declared = Some len /\ 0 < len
      /\ len <= avail - (DISK_RESERVED cfg + pending).
Proof.
  admission_cases declared; (split; [intros E | intros (E & Hpos & Hl)]);
    try discriminate; try (injection E as <-; lia).
  - injection E as <-. repeat split; lia.
  - now injection E as <-.
Qed.

(** The route, once the middleware has stored the body without error and
    the free space has been sampled. *)
Lemma upload_handler_gate req st avail :
  upload_err req = None -> statfs_avail w = inl avail ->
  let r := upload_handler cfg w req st in
  match admission cfg (content_length req) avail (pendingUploadBytes st) with
  | LengthRequired =>
      r = (st, reject req 411 "Length Required")
  | StorageFull =>
      r = (st, reject req 507 "Storage full")
  | Accepted len =>
      listener (snd r) = Some {| len := len; tracked := true |}
      /\ pendingUploadBytes (fst r) = pendingUploadBytes st + len
      /\ unlinked (snd r) = None
      /\ (status (response (snd r)) = 200 \/ status (response (snd r)) = 500)
  end.
Proof.
  intros Herr Hfs. unfold upload_handler. rewrite Herr, Hfs.
  destruct (admission _ _ _ _); try reflexivity.
  destruct (file req) as [f|]; simpl.
  - repeat split; [|now left]. now destruct (detectFileMeta w (path f)).
  - repeat split. now right.
Qed.

(** The answers that come before the admission test. *)
Lemma upload_handler_middleware_error req st message :
  upload_err req = Some message ->
  upload_handler cfg w req st = (st, reject req 400 message).
Proof. intros H. unfold upload_handler. now rewrite H. Qed.

Lemma upload_handler_statfs_error req st message :
  upload_err req = None -> statfs_avail w = inr message ->
  upload_handler cfg w req st = (st, reject req 500 message).
Proof. intros H1 H2. unfold upload_handler. now rewrite H1, H2. Qed.

(** Without a listener the ledger is as before: nothing was reserved. *)
Lemma upload_handler_rejected req st :
  listener (snd (upload_handler cfg w req st)) = None ->
  fst (upload_handler cfg w req st) = st.
Proof.
  unfold upload_handler.
  repeat break_match; simpl; try reflexivity; discriminate.
Qed.

Lemma upload_handler_accepted req st tr :
  listener (snd (upload_handler cfg w req st)) = Some tr ->
  tracked tr = true
  /\ parseInt (content_length req) = Some (len tr)
  /\ 0 < len tr
  /\ pendingUploadBytes (fst (upload_handler cfg w req st))
     = pendingUploadBytes st + len tr.
Proof.
  unfold upload_handler.
  destruct (upload_err req); [discriminate|].
  destruct (statfs_avail w) as [avail|]; [|discriminate].
  destruct (admission _ _ _ _) as [| |n] eqn:Ea; try discriminate.
  apply admission_accepted in Ea. destruct Ea as (Hp & Hpos & _).
  destruct (file req) as [f|]; simpl; intros H; injection H as <-; simpl;
    repeat split; try assumption.
  now destruct (detectFileMeta w (path f)).
Qed.
End UploadAdmission.

(** ** The pending-upload ledger *)

Lemma releaseSpace_untracked tr p :
  tracked tr = false -> releaseSpace tr p = (tr, p).
Proof. unfold releaseSpace. now intros ->. Qed.

Lemma on_signal_release s tr p : on_signal s tr p = releaseSpace tr p.
Proof. now destruct s. Qed.

Lemma deliver_untracked sigs : forall tr p,
  tracked tr = false -> deliver sigs tr p = (tr, p).
Proof.
  unfold deliver. induction sigs as [|s sigs IH]; intros tr p H; simpl.
  - reflexivity.
  - rewrite on_signal_release, releaseSpace_untracked by assumption.
    now apply IH.
Qed.

(** The first signal releases, every later one finds the flag down. *)
Lemma deliver_tracked s sigs tr p :
  tracked tr = true ->
  deliver (s :: sigs) tr p = ({| len := len tr; tracked := false |}, p - len tr).
Proof.
  intros H. unfold deliver. simpl. rewrite on_signal_release.
  unfold releaseSpace. rewrite H. simpl.
  now apply (deliver_untracked sigs {| len := len tr; tracked := false |}).
Qed.

Lemma outstanding_app a b : outstanding (a ++ b) = outstanding a + outstanding b.
Proof. induction a as [|x a IH]; simpl; [reflexivity|]. rewrite IH. lia. Qed.

Lemma outstanding_one tr : outstanding [tr] = due tr.
Proof. simpl. lia. Qed.

Lemma outstanding_update trs : forall i tr tr',
  nth_error trs i = Some tr ->
  outstanding (update_nth i (fun _ => tr') trs)
  = outstanding trs - due tr + due tr'.
Proof.
  induction trs as [|x trs IH]; intros [|i] tr tr' H;
    simpl in *; try discriminate.
  - injection H as ->. lia.
  - rewrite (IH i tr tr' H). lia.
Qed.

(** Every step moves the counter and the bytes still due together. *)
Lemma ledger_step_balance l e :
  pending (ledger_step l e) - outstanding (trackers (ledger_step l e))
  = pending l - outstanding (trackers l).
Proof.
  destruct e as [n|s i]; simpl.
  - rewrite outstanding_app, outstanding_one. unfold due. simpl. lia.
  - destruct (nth_error (trackers l) i) as [tr|] eqn:E; [|reflexivity].
    rewrite on_signal_release. unfold releaseSpace.
    destruct (tracked tr) eqn:Et; simpl;
      rewrite (outstanding_update _ _ _ _ E); unfold due; simpl;
      rewrite Et; lia.
Qed.

Lemma ledger_run_balance es : forall l,
  pending (ledger_run es l) - outstanding (trackers (ledger_run es l))
  = pending l - outstanding (trackers l).
Proof.
  unfold ledger_run. induction es as [|e es IH]; intros l; simpl.
  - reflexivity.
  - rewrite IH. apply ledger_step_balance.
Qed.

(** ** [parseInt] yields a number exactly on numeric-looking text *)

Lemma parse_digits_Some radix s : forall a,
  parse_digits radix s (Some a) <> None.
Proof.
  induction s as [|c s IH]; intros a; simpl; [discriminate|].
  destruct (digit_val radix c); [apply IH | discriminate].
Qed.

Lemma parse_digits_None radix s :
  parse_digits radix s None = None <-> starts_with_digit radix s = false.
Proof.
  destruct s as [|c s]; simpl; [tauto|].
  destruct (digit_val radix c).
  - split; [|discriminate]. intros H. now apply parse_digits_Some in H.
  - tauto.
Qed.

Lemma parseInt_exact_None s :
  parseInt_exact s = None <-> looks_numeric s = false.
Proof.
  unfold parseInt_exact, looks_numeric.
  set (s1 := skip_space s).
  assert (G : forall sign s2,
             option_map (Z.mul sign)
               match strip_hex_prefix s2 with
               | Some s3 => parse_digits 16 s3 None
               | None => parse_digits 10 s2 None
               end = None
             <-> match strip_hex_prefix s2 with
                 | Some s3 => starts_with_digit 16 s3
                 | None => starts_with_digit 10 s2
                 end = false).
  { intros sign s2. destruct (strip_hex_prefix s2) as [s3|].
    - rewrite <- parse_digits_None.
      destruct (parse_digits 16 s3 None); simpl; split; congruence.
    - rewrite <- parse_digits_None.
      destruct (parse_digits 10 s2 None); simpl; split; congruence. }
  destruct s1 as [|c r]; [apply (G 1)|].
  destruct (Ascii.eqb_spec c "-") as [->|Hm]; [apply G|].
  destruct (Ascii.eqb_spec c "+") as [->|Hp]; [apply G|].
  assert (E1 : match String c r with
               | String "-" r0 => (-1, r0)
               | String "+" r0 => (1, r0)
               | _ => (1, String c r)
               end = (1, String c r)).
  { destruct c as [[] [] [] [] [] [] [] []]; try reflexivity; congruence. }
  assert (E2 : match String c r with
               | String "-" r0 => r0
               | String "+" r0 => r0
               | _ => String c r
               end = String c r).
  { destruct c as [[] [] [] [] [] [] [] []]; try reflexivity; congruence. }
  rewrite E1, E2. apply G.
Qed.

Lemma parseInt_string_None s :
  parseInt_string s = None <-> looks_numeric s = false.
Proof.
  rewrite <- parseInt_exact_None. unfold parseInt_string.
  destruct (parseInt_exact s); simpl; split; congruence.
Qed.

(** Claim C1.  For an upload whose body the middleware stored without
    error, with the free space sampled as [avail]: the answer is 411
    exactly when the declared content length is missing, is text that does
    not start like a number, or parses to a value <= 0; it is 507 exactly
    when the parsed length is positive and exceeds
    [avail - (DISK_RESERVED + pendingUploadBytes)]; and the request is
    admitted (its release listener is registered) exactly when the parsed
    length is positive and within that headroom.  A rejection removes the
    stored artifact and leaves the state as it was.  With 1000 bytes
    available, a reserve of 200 and 300 in flight, 501 is refused as
    'Storage full' and 500 is admitted. *)
Theorem upload_admission_decision :
  forall (cfg : Config) (w : World) (req : UploadRequest) (st : ServerState)
         (avail : Z),
    upload_err req = None ->
    statfs_avail w = inl avail ->
    let declared := parseInt (content_length req) in
    let headroom := avail - (DISK_RESERVED cfg + pendingUploadBytes st) in
    let r := snd (upload_handler cfg w req st) in
    (response r = {| status := 411; body := ErrorBody "Length Required" |}
     <-> content_length req = None
         \/ (exists s, content_length req = Some s /\ looks_numeric s = false)
         \/ (exists len, declared = Some len /\ len <= 0))
    /\ (response r = {| status := 507; body := ErrorBody "Storage full" |}
        <-> exists len, declared = Some len /\ 0 < len /\ len > headroom)
    /\ (listener r <> None
        <-> exists len, declared = Some len /\ 0 < len /\ len <= headroom)
    /\ (listener r = None ->
        (status (response r) = 411 \/ status (response r) = 507)
        /\ unlinked r = file_path req
        /\ fst (upload_handler cfg w req st) = st)
    /\ admission small_reserve_config (Some "501") 1000 300 = StorageFull
    /\ admission small_reserve_config (Some "500") 1000 300 = Accepted 500.
Proof.
  intros cfg w req st avail Herr Hfs declared headroom r.
  pose proof (upload_handler_gate cfg w req st avail Herr Hfs) as Hg.
  pose proof (admission_length_required cfg (content_length req) avail
                (pendingUploadBytes st)) as H411.
  pose proof (admission_storage_full cfg (content_length req) avail
                (pendingUploadBytes st)) as H507.
  pose proof (fun len => admission_accepted cfg (content_length req) avail
                (pendingUploadBytes st) len) as H200.
  fold declared in H411, H507, H200. fold headroom in H507, H200.
  assert (Hmissing : declared = None
                     <-> content_length req = None
                         \/ exists s, content_length req = Some s
                                      /\ looks_numeric s = false).
  { unfold declared, parseInt. destruct (content_length req) as [s|].
    - rewrite parseInt_string_None. split.
      + intros H. right. eauto.
      + intros [H|(s' & H & Hs)]; [discriminate | now injection H as ->].
    - split; [now left | reflexivity]. }
  cbv zeta in Hg. fold r in Hg.
  set (verdict := admission cfg (content_length req) avail (pendingUploadBytes st))
    in *.
  assert (F411 : response r
                 = {| status := 411; body := ErrorBody "Length Required" |}
                 <-> verdict = LengthRequired).
  { destruct verdict as [| |len].
    - subst r. rewrite Hg. simpl. split; reflexivity.
    - subst r. rewrite Hg. simpl. split; discriminate.
    - destruct Hg as (_ & _ & _ & Hs).
      split; [intros E; rewrite E in Hs; simpl in Hs; lia | discriminate]. }
  assert (F507 : response r
                 = {| status := 507; body := ErrorBody "Storage full" |}
                 <-> verdict = StorageFull).
  { destruct verdict as [| |len].
    - subst r. rewrite Hg. simpl. split; discriminate.
    - subst r. rewrite Hg. simpl. split; reflexivity.
    - destruct Hg as (_ & _ & _ & Hs).
      split; [intros E; rewrite E in Hs; simpl in Hs; lia | discriminate]. }
  assert (FAdm : listener r <> None <-> exists len, verdict = Accepted len).
  { destruct verdict as [| |len].
    - subst r. rewrite Hg. simpl.
      split; [intros H; now elim H | intros (l & H); discriminate].
    - subst r. rewrite Hg. simpl.
      split; [intros H; now elim H | intros (l & H); discriminate].
    - destruct Hg as (Hl & _). rewrite Hl.
      split; [eauto | discriminate]. }
  split; [|split; [|split; [|split]]].
  - rewrite F411, H411, Hmissing. tauto.
  - rewrite F507. exact H507.
  - rewrite FAdm.
    split; intros (len & H); exists len; now apply H200.
  - intros Hnone. destruct verdict as [| |len].
    + subst r. rewrite Hg. simpl. tauto.
    + subst r. rewrite Hg. simpl. tauto.
    + destruct Hg as (Hl & _). congruence.
  - split; reflexivity.
Qed.

Lemma upload_admission_decision_witness :
  let cfg := small_reserve_config in
  let st := with_pending 300 initial_state in
  let r := snd (upload_handler cfg sample_world (sample_upload "500") st) in
  (upload_err (sample_upload "500") = None
   /\ statfs_avail sample_world = inl 1000)
  /\ listener r <> None
  /\ response r
     <> {| status := 507; body := ErrorBody "Storage full" |}.
Proof.
  intros cfg st r.
  assert (H1 : upload_err (sample_upload "500") = None) by reflexivity.
  assert (H2 : statfs_avail sample_world = inl 1000) by reflexivity.
  split; [tauto|].
  destruct (upload_admission_decision cfg sample_world (sample_upload "500")
              st 1000 H1 H2) as (_ & H507 & Hadm & _).
  split.
  - apply Hadm. exists 500. vm_compute. repeat split; discriminate.
  - intros E. apply H507 in E. destruct E as (len & Hp & _ & Hgt).
    vm_compute in Hp. injection Hp as <-. vm_compute in Hgt. discriminate.
Defined.

(** The two requests of the example, through the whole route. *)
Example upload_501_refused :
  upload_handler small_reserve_config sample_world (sample_upload "501")
    (with_pending 300 initial_state)
  = (with_pending 300 initial_state,
     {| response := {| status := 507; body := ErrorBody "Storage full" |};
        unlinked := Some "/srv/uploads/00ff-a.txt";
        listener := None |}).
Proof. reflexivity. Qed.

Example upload_500_admitted :
  let r := upload_handler small_reserve_config sample_world
             (sample_upload "500") (with_pending 300 initial_state) in
  pendingUploadBytes (fst r) = 800
  /\ listener (snd r) = Some {| len := 500; tracked := true |}
  /\ status (response (snd r)) = 200.
Proof. repeat split. Qed.

(** Claim C2.  An admitted upload adds its declared length to
    [pendingUploadBytes] once, at admission, and registers one release
    listener with its flag up.  However many [finish] and [close] signals
    then reach that listener, and in whatever order, as soon as there is
    one the counter is back at its value before the request and stays
    there: only the first signal subtracts.  With any number of uploads in
    flight and their signals interleaved in any way, the counter always
    equals the sum of the lengths of the admitted requests that have not
    been signalled yet. *)
Theorem ledger_release_once :
  forall (cfg : Config) (w : World) (req : UploadRequest) (st : ServerState)
         (tr : Tracker) (sigs : list Signal) (es : list LedgerEvent),
    listener (snd (upload_handler cfg w req st)) = Some tr ->
    sigs <> [] ->
    let st1 := fst (upload_handler cfg w req st) in
    let ledger := ledger_run es empty_ledger in
    tracked tr = true
    /\ parseInt (content_length req) = Some (len tr)
    /\ pendingUploadBytes st1 = pendingUploadBytes st + len tr
    /\ deliver sigs tr (pendingUploadBytes st1)
       = ({| len := len tr; tracked := false |}, pendingUploadBytes st)
    /\ deliver [] tr (pendingUploadBytes st1)
       = (tr, pendingUploadBytes st + len tr)
    /\ pending ledger = outstanding (trackers ledger).
Proof.
  intros cfg w req st tr sigs es Hl Hsigs st1 ledger.
  destruct (upload_handler_accepted cfg w req st tr Hl)
    as (Ht & Hp & _ & Hinc).
  fold st1 in Hinc.
  repeat split; try assumption.
  - destruct sigs as [|s sigs]; [congruence|].
    rewrite deliver_tracked by assumption. f_equal. lia.
  - unfold deliver. simpl. now rewrite Hinc.
  - pose proof (ledger_run_balance es empty_ledger) as Hb.
    fold ledger in Hb. simpl in Hb. lia.
Qed.

Lemma ledger_release_once_witness :
  let cfg := small_reserve_config in
  let st := with_pending 300 initial_state in
  let r := upload_handler cfg sample_world (sample_upload "500") st in
  let tr := {| len := 500; tracked := true |} in
  (listener (snd r) = Some tr /\ [Finish; Close] <> [])
  /\ pendingUploadBytes (fst r) = 300 + 500
  /\ deliver [Finish; Close] tr (pendingUploadBytes (fst r))
     = ({| len := 500; tracked := false |}, 300).
Proof.
  intros cfg st r tr.
  assert (H1 : listener (snd r) = Some tr) by reflexivity.
  assert (H2 : [Finish; Close] <> []) by discriminate.
  split; [tauto|].
  destruct (ledger_release_once cfg sample_world (sample_upload "500") st tr
              [Finish; Close]
              [Accept 500; Accept 20; Fire Finish 0; Fire Close 0; Fire Close 1]
              H1 H2) as (_ & _ & Hinc & Hrel & _).
  split; [exact Hinc | exact Hrel].
Defined.

(** Three uploads, the signals of two of them arriving twice: what is
    still counted is the third. *)
Example ledger_interleaving :
  pending (ledger_run
             [Accept 500; Accept 20; Fire Close 1; Accept 7; Fire Finish 0;
              Fire Close 0; Fire Finish 1] empty_ledger) = 7.
Proof. reflexivity. Qed.

(* ================================================================== *)
(** ** MimeDetector *)
(* ================================================================== *)

Lemma isText_true buf : isText buf = true <-> ~ In x00 buf.
Proof.
  unfold isText. rewrite negb_true_iff. split.
  - intros H Hin.
    assert (existsb (Byte.eqb x00) buf = true); [|congruence].
    apply existsb_exists. exists x00. split; [assumption | reflexivity].
  - intros H. destruct (existsb (Byte.eqb x00) buf) eqn:E; [|reflexivity].
    apply existsb_exists in E. destruct E as (x & Hin & Hx).
    apply Byte.byte_dec_bl in Hx. subst x. contradiction.
Qed.

Lemma isText_false buf : isText buf = false <-> In x00 buf.
Proof.
  destruct (isText buf) eqn:E.
  - apply isText_true in E. split; [discriminate | contradiction].
  - split; [intros _ | reflexivity].
    destruct (in_dec Byte.byte_eq_dec x00 buf) as [H|H]; [assumption|].
    apply isText_true in H. congruence.
Qed.

(** Claim C4, as amended.  For a readable file: when the library
    recognises it, the type the library reports is the type of the file;
    when it recognises nothing, the type is [text/plain] if no null byte
    occurs in the first 512 bytes of the file and
    [application/octet-stream] if one does.  For an inline blob: when the
    library recognises the decoded buffer, its answer is the type; when it
    recognises nothing, the type is [text/plain] if no null byte occurs
    anywhere in the decoded buffer and [application/octet-stream] if one
    occurs anywhere in it, also beyond the first 512 bytes.  The size is
    the length of the source.  What the library recognises is its own
    matter: the listener and [detectFileMeta] look at no signature
    themselves. *)
Theorem mime_detection :
  forall (w : World) (filePath : string) (content b : list byte),
    files w filePath = Some content ->
    (forall m, fileTypeFromFile w filePath = Some m ->
       detectFileMeta w filePath = Some {| mime := m; size := blen content |})
    /\ (fileTypeFromFile w filePath = None ->
        ~ In x00 (firstn 512 content) ->
        detectFileMeta w filePath
        = Some {| mime := "text/plain"; size := blen content |})
    /\ (fileTypeFromFile w filePath = None ->
        In x00 (firstn 512 content) ->
        detectFileMeta w filePath
        = Some {| mime := "application/octet-stream"; size := blen content |})
    /\ (forall m, fileTypeFromBuffer w b = Some m ->
          inlineMeta w b = {| mime := m; size := blen b |})
    /\ (fileTypeFromBuffer w b = None ->
        ~ In x00 b ->
        inlineMeta w b = {| mime := "text/plain"; size := blen b |})
    /\ (fileTypeFromBuffer w b = None ->
        In x00 b ->
        inlineMeta w b
        = {| mime := "application/octet-stream"; size := blen b |}).
Proof.
  intros w filePath content b Hfile.
  split; [|split; [|split; [|split; [|split]]]].
  - intros m Hm. unfold detectFileMeta. now rewrite Hfile, Hm.
  - intros Hnone Hnull. unfold detectFileMeta. rewrite Hfile, Hnone.
    apply isText_true in Hnull. now rewrite Hnull.
  - intros Hnone Hnull. unfold detectFileMeta. rewrite Hfile, Hnone.
    apply isText_false in Hnull. now rewrite Hnull.
  - intros m Hm. unfold inlineMeta. now rewrite Hm.
  - intros Hnone Hnull. unfold inlineMeta. rewrite Hnone.
    apply isText_true in Hnull. now rewrite Hnull.
  - intros Hnone Hnull. unfold inlineMeta. rewrite Hnone.
    apply isText_false in Hnull. now rewrite Hnull.
Qed.

Lemma mime_detection_witness :
  let hello := [x68; x65; x6c; x6c; x6f] in
  files sample_world "/srv/uploads/00ff-a.txt" = Some hello
  /\ detectFileMeta sample_world "/srv/uploads/00ff-a.txt"
     = Some {| mime := "text/plain"; size := 5 |}
  /\ inlineMeta sample_world late_null_blob
     = {| mime := "application/octet-stream"; size := 601 |}.
Proof.
  intros hello.
  assert (H : files sample_world "/srv/uploads/00ff-a.txt" = Some hello)
    by reflexivity.
  split; [exact H|].
  destruct (mime_detection sample_world "/srv/uploads/00ff-a.txt" hello
              late_null_blob H) as (_ & Htext & _ & _ & _ & Hbin).
  split.
  - apply Htext; [reflexivity|].
    simpl. intuition discriminate.
  - apply Hbin; [reflexivity|].
    unfold late_null_blob. apply in_or_app. right. now left.
Defined.

(** The claim of C4 fails for inline blobs: 600 letters and then a null
    byte are not recognised by the library and have no null byte among the
    first 512 bytes, yet the blob is relayed as
    [application/octet-stream], not as [text/plain]. *)
Lemma inline_blob_null_after_512 :
  fileTypeFromBuffer sample_world late_null_blob = None
  /\ ~ In x00 (firstn 512 late_null_blob)
  /\ base64_decode sample_world
       (String.append (repeat_string "YWFh" 200) "AA==") = late_null_blob
  /\ mime (inlineMeta sample_world late_null_blob)
     = "application/octet-stream"
  /\ map (field "fileType")
       (broadcasts
          (snd (on_message default_config sample_world sample_socket 5
                  (file_message late_null_data_url) initial_state)))
     = [VStr "application/octet-stream"].
Proof.
  split; [vm_compute; reflexivity|].
  split; [apply isText_true; vm_compute; reflexivity|].
  split; [vm_compute; reflexivity|].
  split; vm_compute; reflexivity.
Qed.

(* ================================================================== *)
(** ** MessageRelay: the fields set by the server *)
(* ================================================================== *)

Lemma prop_has_false k o :
  prop_has k o = false -> forall v, ~ In (k, v) o.
Proof.
  unfold prop_has. intros H v Hin.
  assert (existsb (fun kv => String.eqb (fst kv) k) o = true); [|congruence].
  apply existsb_exists. exists (k, v). split; [assumption|].
  simpl. apply String.eqb_refl.
Qed.

Lemma prop_get_app_absent k v o :
  prop_has k o = false -> prop_get k (o ++ [(k, v)]) = v.
Proof.
  unfold prop_has. induction o as [|[k' v'] r IH]; simpl.
  - now rewrite String.eqb_refl.
  - destruct (String.eqb k' k); simpl; [discriminate | exact IH].
Qed.

Lemma prop_get_app_other k k' v o :
  k' <> k -> prop_get k' (o ++ [(k, v)]) = prop_get k' o.
Proof.
  intros Hne. induction o as [|[k0 v0] r IH]; simpl.
  - destruct (String.eqb_spec k k'); [congruence | reflexivity].
  - now rewrite IH.
Qed.

Lemma prop_get_overwrite k v o :
  prop_has k o = true ->
  prop_get k (map (fun kv => if String.eqb (fst kv) k then (fst kv, v) else kv) o)
  = v.
Proof.
  unfold prop_has. induction o as [|[k' v'] r IH]; simpl; [discriminate|].
  destruct (String.eqb k' k) eqn:E; simpl.
  - now rewrite E.
  - rewrite E. exact IH.
Qed.

Lemma prop_get_overwrite_other k k' v o :
  k' <> k ->
  prop_get k' (map (fun kv => if String.eqb (fst kv) k then (fst kv, v) else kv) o)
  = prop_get k' o.
Proof.
  intros Hne. induction o as [|[k0 v0] r IH]; simpl; [reflexivity|].
  destruct (String.eqb_spec k0 k) as [->|Hk]; simpl.
  - destruct (String.eqb_spec k k'); [congruence | exact IH].
  - now rewrite IH.
Qed.

(** [o.k = v; o.k] *)
Lemma prop_get_set_same k v o : prop_get k (prop_set k v o) = v.
Proof.
  unfold prop_set. destruct (prop_has k o) eqn:E.
  - now apply prop_get_overwrite.
  - now apply prop_get_app_absent.
Qed.

(** [o.k = v; o.k'] *)
Lemma prop_get_set_other k k' v o :
  k' <> k -> prop_get k' (prop_set k v o) = prop_get k' o.
Proof.
  intros Hne. unfold prop_set. destruct (prop_has k o).
  - now apply prop_get_overwrite_other.
  - now apply prop_get_app_other.
Qed.

(** After [o.k = v] no property named [k] holds anything else. *)
Lemma prop_set_binding k v x o : In (k, x) (prop_set k v o) -> x = v.
Proof.
  unfold prop_set. destruct (prop_has k o) eqn:E.
  - intros Hin. apply in_map_iff in Hin. destruct Hin as ([k0 v0] & Hx & _).
    simpl in Hx. destruct (String.eqb_spec k0 k).
    + congruence.
    + injection Hx as -> _. congruence.
  - intros Hin. apply in_app_or in Hin. destruct Hin as [Hin|[Hin|[]]].
    + now apply prop_has_false with (v := x) in E.
    + congruence.
Qed.

Lemma prop_set_binding_other k k' v x o :
  k' <> k -> In (k', x) (prop_set k v o) -> In (k', x) o.
Proof.
  intros Hne. unfold prop_set. destruct (prop_has k o).
  - intros Hin. apply in_map_iff in Hin. destruct Hin as ([k0 v0] & Hx & Hin).
    simpl in Hx. destruct (String.eqb_spec k0 k).
    + congruence.
    + now rewrite <- Hx.
  - intros Hin. apply in_app_or in Hin. destruct Hin as [Hin|[Hin|[]]].
    + assumption.
    + congruence.
Qed.

Section Stamps.
Variables (sock : Socket) (now : Z) (hue : Q).

(** Writing any other property keeps the server's fields. *)
Lemma stamped_set k v props :
  k <> "senderId" -> k <> "timestamp" -> k <> "hue" ->
  stamped sock now hue props -> stamped sock now hue (prop_set k v props).
Proof.
  intros H1 H2 H3 (Hs & Hb & Ht & Hh). unfold stamped.
  rewrite !prop_get_set_other by congruence.
  repeat split; try assumption.
  intros x Hin. apply Hb. eapply prop_set_binding_other; eauto.
Qed.

Lemma stamped_enrich props :
  stamped sock now hue
    (prop_set "hue" (VNum hue)
       (prop_set "timestamp" (VNum (inject_Z now))
          (prop_set "senderId" (VStr (id sock)) props))).
Proof.
  unfold stamped.
  rewrite prop_get_set_same.
  rewrite !(prop_get_set_other "hue") by discriminate.
  rewrite prop_get_set_same.
  rewrite (prop_get_set_other "timestamp") by discriminate.
  rewrite prop_get_set_same.
  repeat split.
  intros v Hin.
  apply prop_set_binding_other in Hin; [|discriminate].
  apply prop_set_binding_other in Hin; [|discriminate].
  now apply prop_set_binding in Hin.
Qed.

Lemma relay_file_stamped cfg w msg st payload :
  stamped sock now hue msg ->
  In payload (broadcasts (snd (relay_file cfg w msg st))) ->
  exists props, payload = VObj props /\ stamped sock now hue props.
Proof.
  intros Hst. unfold relay_file, broadcasts.
  repeat break_match; simpl; try tauto;
    (intros [<-|[]]; eexists; split; [reflexivity|];
     repeat apply stamped_set; try discriminate; assumption).
Qed.
End Stamps.

Lemma on_message_stamped cfg w sock now msg st payload :
  In payload (broadcasts (snd (on_message cfg w sock now msg st))) ->
  exists props,
    payload = VObj props /\ stamped sock now (hue_of sock st) props.
Proof.
  unfold on_message. destruct (rate_check _ _ _ _) as [t a].
  destruct a; simpl; [|tauto].
  change (match JsMap.get (id sock) (activeHues st) with
          | Some h => h
          | None => 210%Q
          end) with (hue_of sock st).
  destruct msg as [| | | | |items|props]; simpl; try tauto.
  pose proof (stamped_enrich sock now (hue_of sock st) props) as Hst.
  repeat break_match;
    first [ apply relay_file_stamped; exact Hst
          | simpl; tauto
          | simpl; intros [<-|[]]; eauto ].
Qed.

(** Claim C10.  Every message the listener broadcasts is an object whose
    [senderId] is the id of the socket the message arrived on: that is what
    reading the property gives, and the object has no [senderId] property
    with any other value, whatever the client put in the payload.  The
    [timestamp] and the [hue] are the server's as well. *)
Theorem sender_identity :
  forall (cfg : Config) (w : World) (sock : Socket) (now : Z) (msg : JsVal)
         (st : ServerState) (payload : JsVal),
    In payload (broadcasts (snd (on_message cfg w sock now msg st))) ->
    exists props,
      payload = VObj props
      /\ prop_get "senderId" props = VStr (id sock)
      /\ (forall v, In ("senderId", v) props -> v = VStr (id sock))
      /\ prop_get "timestamp" props = VNum (inject_Z now)
      /\ prop_get "hue" props = VNum (hue_of sock st).
Proof.
  intros cfg w sock now msg st payload Hin.
  destruct (on_message_stamped cfg w sock now msg st payload Hin)
    as (props & -> & Hst).
  exists props. split; [reflexivity | exact Hst].
Qed.

Lemma sender_identity_witness :
  let out := snd (on_message default_config sample_world sample_socket 5
                    spoofed_message initial_state) in
  let payload :=
    VObj [("senderId", VStr "s1"); ("type", VStr "text");
          ("content", VStr "hi"); ("timestamp", VNum (inject_Z 5));
          ("hue", VNum 210)] in
  In payload (broadcasts out)
  /\ field "senderId" payload = VStr (id sample_socket).
Proof.
  intros out payload.
  assert (H : In payload (broadcasts out)) by (left; reflexivity).
  split; [exact H|].
  destruct (sender_identity default_config sample_world sample_socket 5
              spoofed_message initial_state payload H)
    as (props & E & Hs & _).
  injection E as <-. exact Hs.
Defined.

(* ================================================================== *)
(** ** MessageRelay: messages that make the listener throw *)
(* ================================================================== *)

(** Claim C5 fails on the code.  The first message of a connection, of
    type [file] and without [content]: the limiter lets it pass, and the
    shape test [msg.content.startsWith(...)], which stands before the
    [try] block, throws.  Nothing is broadcast. *)
Theorem file_message_without_content_throws :
  forall (w : World) (sock : Socket) (now : Z),
    snd (on_message default_config w sock now
           (VObj [("type", VStr "file")]) initial_state)
    = throws
        "TypeError: Cannot read properties of undefined (reading 'startsWith')".
Proof. reflexivity. Qed.

(** The same with a [content] that is not a string, and with a payload
    that is not an object at all. *)
Example file_message_numeric_content_throws :
  forall (w : World) (sock : Socket) (now : Z),
    completion
      (snd (on_message default_config w sock now
              (VObj [("type", VStr "file"); ("content", VNum 7)])
              initial_state))
    = Uncaught "TypeError: msg.content.startsWith is not a function".
Proof. reflexivity. Qed.

Example null_message_throws :
  forall (w : World) (sock : Socket) (now : Z),
    completion (snd (on_message default_config w sock now VNull initial_state))
    = Uncaught "TypeError: Cannot set properties".
Proof. reflexivity. Qed.

(** The text branch tests the type of [content] first and returns. *)
Example text_message_without_content_returns :
  forall (w : World) (sock : Socket) (now : Z),
    snd (on_message default_config w sock now
           (VObj [("type", VStr "text")]) initial_state)
    = done [].
Proof. reflexivity. Qed.

(* ================================================================== *)
(** ** Lists cut at either end *)
(* ================================================================== *)

Section Cuts.
Context {A : Type}.
Variable p : A -> bool.

Lemma take_drop_while (l : list A) : take_while p l ++ drop_while p l = l.
Proof.
  induction l as [|x l IH]; simpl; [reflexivity|].
  destruct (p x); simpl; [now rewrite IH | reflexivity].
Qed.

Lemma drop_while_head (l : list A) x r :
  drop_while p l = x :: r -> p x = false.
Proof.
  induction l as [|y l IH]; simpl; [discriminate|].
  destruct (p y) eqn:E; [exact IH|]. intros H. now injection H as <- _.
Qed.

Lemma drop_while_suffix (l : list A) :
  exists a, l = a ++ drop_while p l.
Proof. exists (take_while p l). symmetry. apply take_drop_while. Qed.

Lemma drop_while_id (l : list A) :
  (forall x r, l = x :: r -> p x = false) -> drop_while p l = l.
Proof.
  destruct l as [|x l]; simpl; [reflexivity|].
  intros H. now rewrite (H x l eq_refl).
Qed.

Lemma length_drop_while (l : list A) :
  (length (drop_while p l) <= length l)%nat.
Proof.
  induction l as [|x l IH]; simpl; [lia|]. destruct (p x); simpl; lia.
Qed.

Lemma length_take_while (l : list A) :
  (length (take_while p l) <= length l)%nat.
Proof.
  induction l as [|x l IH]; simpl; [lia|]. destruct (p x); simpl; lia.
Qed.

(** [strip_end] keeps a prefix. *)
Lemma strip_end_prefix (l : list A) : exists b, l = strip_end p l ++ b.
Proof.
  unfold strip_end. destruct (drop_while_suffix (rev l)) as [a Ha].
  exists (rev a). rewrite <- rev_app_distr, <- Ha. symmetry. apply rev_involutive.
Qed.

Lemma strip_end_last (l : list A) r x :
  strip_end p l = r ++ [x] -> p x = false.
Proof.
  unfold strip_end. intros H.
  assert (E : drop_while p (rev l) = x :: rev r).
  { rewrite <- (rev_involutive (drop_while p (rev l))), H.
    now rewrite rev_app_distr. }
  exact (drop_while_head _ _ _ E).
Qed.

Lemma length_strip_end (l : list A) : (length (strip_end p l) <= length l)%nat.
Proof.
  unfold strip_end. rewrite length_rev.
  pose proof (length_drop_while (rev l)). now rewrite length_rev in *.
Qed.

Lemma strip_end_id (l : list A) :
  (forall r x, l = r ++ [x] -> p x = false) -> strip_end p l = l.
Proof.
  intros H. unfold strip_end. rewrite drop_while_id.
  - apply rev_involutive.
  - intros x r E. apply (H (rev r) x).
    rewrite <- (rev_involutive l), E. reflexivity.
Qed.

Lemma Forall_drop_while (P : A -> Prop) (l : list A) :
  Forall P l -> Forall P (drop_while p l).
Proof.
  intros H. destruct (drop_while_suffix l) as [a Ha].
  rewrite Ha in H. now apply Forall_app in H.
Qed.

Lemma Forall_strip_end (P : A -> Prop) (l : list A) :
  Forall P l -> Forall P (strip_end p l).
Proof.
  intros H. destruct (strip_end_prefix l) as [b Hb].
  rewrite Hb in H. now apply Forall_app in H.
Qed.
End Cuts.

(* ================================================================== *)
(** ** Paths: a name is its base name followed by its extension *)
(* ================================================================== *)

Lemma match_suffix_app s rest : match_suffix s (s ++ rest) = Matched rest.
Proof.
  induction s as [|c s IH]; simpl; [now destruct rest|].
  now rewrite Ascii.eqb_refl.
Qed.

Lemma length_last_component p : (length (last_component p) <= length p)%nat.
Proof.
  unfold last_component. rewrite length_rev.
  pose proof (length_take_while (fun c => negb (is_slash c))
                (drop_while is_slash (rev p))).
  pose proof (length_drop_while is_slash (rev p)).
  rewrite length_rev in *. lia.
Qed.

Lemma chars_text l : chars (text l) = l.
Proof. apply list_ascii_of_string_of_list_ascii. Qed.

Lemma text_chars s : text (chars s) = s.
Proof. apply string_of_list_ascii_of_string. Qed.

(** [basename(p, extname(p))] followed by [extname(p)] is the last portion
    of [p]. *)
Lemma basename_ext_split p :
  last_component p = basename_ext_chars p (extname_chars p) ++ extname_chars p.
Proof.
  unfold extname_chars.
  set (part := last_component p).
  set (nondot := fun c => negb (is_dot c)).
  pose proof (take_drop_while nondot (rev part)) as Hsplit.
  assert (Hnil : part = basename_ext_chars p [] ++ []).
  { unfold basename_ext_chars. fold part. now rewrite app_nil_r. }
  destruct (drop_while nondot (rev part)) as [|dot [|x more]] eqn:E;
    try exact Hnil.
  destruct (list_eq_dec ascii_dec part (chars "..")); [exact Hnil|].
  set (after := take_while nondot (rev part)) in *.
  assert (Hpart : part = rev (x :: more) ++ dot :: rev after).
  { rewrite <- (rev_involutive part), <- Hsplit.
    rewrite rev_app_distr. simpl. now rewrite <- !app_assoc. }
  assert (Hlen : (length (dot :: rev after) < length p)%nat).
  { pose proof (length_last_component p) as Hl. fold part in Hl.
    rewrite Hpart in Hl. rewrite length_app in Hl. simpl in *.
    rewrite length_app in Hl. simpl in Hl. lia. }
  unfold basename_ext_chars. fold part.
  destruct (Nat.ltb_spec (length p) (length (dot :: rev after))); [lia|].
  destruct (list_eq_dec ascii_dec (dot :: rev after) p) as [Heq|_].
  { rewrite <- Heq in Hlen. lia. }
  assert (Hm : match_suffix (rev (dot :: rev after)) (rev part)
               = Matched (x :: more)).
  { simpl rev at 1. rewrite rev_involutive, <- Hsplit.
    change (after ++ dot :: x :: more) with (after ++ [dot] ++ x :: more).
    rewrite app_assoc. apply match_suffix_app. }
  rewrite Hm. exact Hpart.
Qed.

Lemma storage_name_split originalname :
  last_component (chars originalname)
  = chars (basename_ext originalname (extname originalname))
    ++ chars (extname originalname).
Proof.
  unfold basename_ext, extname. rewrite !chars_text.
  apply basename_ext_split.
Qed.

(* ================================================================== *)
(** ** The stored name of an upload *)
(* ================================================================== *)

Lemma is_underscore_eq c : is_underscore c = true <-> c = "_"%char.
Proof.
  unfold is_underscore, is_char. rewrite Ascii.eqb_eq. split; congruence.
Qed.

Lemma name_char_not_underscore c :
  is_name_char c = true -> is_underscore c = false.
Proof.
  intros H. destruct (is_underscore c) eqn:E; [|reflexivity].
  apply is_underscore_eq in E. subst c. discriminate.
Qed.

Lemma replace_unsafe_tidy l : Forall tidy (replace_unsafe l).
Proof.
  unfold replace_unsafe. apply Forall_map, Forall_forall. intros c _.
  unfold tidy. destruct (is_name_char c) eqn:E; auto.
Qed.

Lemma collapse_Forall (P : ascii -> Prop) l :
  Forall P l -> Forall P (collapse_underscores l).
Proof.
  induction l as [|c r IH]; intros H; [constructor|].
  inversion H as [|? ? Hc Hr]; subst. specialize (IH Hr).
  simpl. destruct r as [|d r]; [auto|].
  destruct (is_underscore c && is_underscore d); auto.
Qed.

(** What [collapse_underscores] returns starts like its argument. *)
Lemma collapse_head c r x r' :
  collapse_underscores (c :: r) = x :: r' -> x = c.
Proof.
  revert c. induction r as [|d r IH]; intros c; simpl.
  - intros H. now injection H.
  - destruct (is_underscore c && is_underscore d) eqn:E.
    + intros H. apply IH in H. apply andb_true_iff in E. destruct E as [Ec Ed].
      apply is_underscore_eq in Ec, Ed. congruence.
    + intros H. now injection H.
Qed.

Lemma collapse_single l : single_underscores (collapse_underscores l).
Proof.
  induction l as [|c r IH]; [exact I|].
  simpl. destruct r as [|d r]; [exact I|].
  destruct (is_underscore c && is_underscore d) eqn:E; [exact IH|].
  remember (collapse_underscores (d :: r)) as t eqn:Et.
  destruct t as [|x t]; [exact I|].
  symmetry in Et. apply collapse_head in Et. subst x.
  split; [|exact IH].
  intros [Hc Hd]. rewrite Hc, Hd in E. discriminate.
Qed.

Lemma single_suffix a : forall b,
  single_underscores (a ++ b) -> single_underscores b.
Proof.
  induction a as [|c a IH]; intros b H; [exact H|].
  apply IH. simpl in H. destruct (a ++ b); [exact I | tauto].
Qed.

Lemma single_prefix a : forall b,
  single_underscores (a ++ b) -> single_underscores a.
Proof.
  induction a as [|c a IH]; intros b H; [exact I|].
  simpl in *. destruct a as [|d a]; [exact I|].
  simpl in H. destruct H as [Hcd Hr]. split; [exact Hcd|].
  apply (IH b). exact Hr.
Qed.

Lemma single_drop_while p l :
  single_underscores l -> single_underscores (drop_while p l).
Proof.
  intros H. destruct (drop_while_suffix p l) as [a Ha].
  rewrite Ha in H. now apply single_suffix in H.
Qed.

Lemma single_strip_end p l :
  single_underscores l -> single_underscores (strip_end p l).
Proof.
  intros H. destruct (strip_end_prefix p l) as [b Hb].
  rewrite Hb in H. now apply single_prefix in H.
Qed.

Lemma single_firstn n l :
  single_underscores l -> single_underscores (firstn n l).
Proof.
  intros H. rewrite <- (firstn_skipn n l) in H. now apply single_prefix in H.
Qed.

Lemma Forall_take {A} (P : A -> Prop) n (l : list A) :
  Forall P l -> Forall P (firstn n l).
Proof.
  intros H. rewrite <- (firstn_skipn n l) in H. now apply Forall_app in H.
Qed.

Lemma safeName_cut name :
  safeName name
  = strip_end is_underscore
      (firstn 100
         (trim_underscores (collapse_underscores (replace_unsafe name)))).
Proof.
  unfold safeName.
  set (s := trim_underscores (collapse_underscores (replace_unsafe name))).
  destruct (Nat.ltb_spec 100 (length s)); [reflexivity|].
  now rewrite firstn_all2.
Qed.

Lemma safeName_length name : (length (safeName name) <= 100)%nat.
Proof.
  rewrite safeName_cut.
  etransitivity; [apply length_strip_end | apply firstn_le_length].
Qed.

Lemma safeName_tidy name : Forall tidy (safeName name).
Proof.
  rewrite safeName_cut. apply Forall_strip_end, Forall_take.
  unfold trim_underscores. apply Forall_strip_end, Forall_drop_while.
  apply collapse_Forall, replace_unsafe_tidy.
Qed.

Lemma safeName_single name : single_underscores (safeName name).
Proof.
  rewrite safeName_cut. apply single_strip_end, single_firstn.
  unfold trim_underscores. apply single_strip_end, single_drop_while.
  apply collapse_single.
Qed.

Lemma safeName_no_leading name r : safeName name <> "_"%char :: r.
Proof.
  rewrite safeName_cut. unfold trim_underscores.
  set (x := collapse_underscores (replace_unsafe name)).
  set (a := drop_while is_underscore x).
  set (b := strip_end is_underscore a).
  intros H.
  destruct (strip_end_prefix is_underscore (firstn 100 b)) as [t1 H1].
  destruct (strip_end_prefix is_underscore a) as [t2 H2]. fold b in H2.
  rewrite H in H1.
  assert (H3 : b = firstn 100 b ++ skipn 100 b)
    by (symmetry; apply firstn_skipn).
  rewrite H1 in H3. rewrite H3 in H2. simpl in H2.
  apply (drop_while_head is_underscore x) in H2. discriminate.
Qed.

Lemma safeName_no_trailing name r : safeName name <> r ++ ["_"%char].
Proof.
  intros H. unfold safeName in H. apply strip_end_last in H. discriminate.
Qed.

Lemma collapse_clean l :
  Forall (fun c => is_underscore c = false) l -> collapse_underscores l = l.
Proof.
  induction l as [|c r IH]; intros H; [reflexivity|].
  inversion H as [|? ? Hc Hr]; subst.
  destruct r as [|d r]; [reflexivity|].
  change (collapse_underscores (c :: d :: r))
    with (if is_underscore c && is_underscore d
          then collapse_underscores (d :: r)
          else c :: collapse_underscores (d :: r)).
  rewrite Hc. cbn [andb]. now rewrite IH.
Qed.

(** A base name made of characters of the class, at most 100 of them, is
    kept as it is. *)
Lemma safeName_clean name :
  Forall (fun c => is_name_char c = true) name ->
  (length name <= 100)%nat ->
  safeName name = name.
Proof.
  intros Hall Hlen.
  assert (Hus : Forall (fun c => is_underscore c = false) name).
  { eapply Forall_impl; [|exact Hall]. apply name_char_not_underscore. }
  assert (Hrep : replace_unsafe name = name).
  { unfold replace_unsafe. rewrite <- (map_id name) at 2.
    apply map_ext_in. intros c Hc.
    rewrite Forall_forall in Hall. now rewrite (Hall c Hc). }
  rewrite safeName_cut, Hrep, collapse_clean by assumption.
  assert (Hd : drop_while is_underscore name = name).
  { apply drop_while_id. intros x r ->. now inversion Hus. }
  assert (Hs : strip_end is_underscore name = name).
  { apply strip_end_id. intros r x ->.
    apply Forall_app in Hus. destruct Hus as [_ Hx]. now inversion Hx. }
  unfold trim_underscores. rewrite Hd, Hs, firstn_all2 by assumption.
  exact Hs.
Qed.

Lemma hex_digits_of_byte (x : byte) :
  is_hex_char (hex_digit (Byte.to_N x / 16)) = true
  /\ is_hex_char (hex_digit (Byte.to_N x mod 16)) = true.
Proof. destruct x; split; reflexivity. Qed.

Lemma to_hex_chars b : Forall (fun c => is_hex_char c = true) (to_hex b).
Proof.
  induction b as [|x b IH]; simpl; [constructor|].
  destruct (hex_digits_of_byte x). repeat constructor; assumption.
Qed.

Lemma to_hex_length b : length (to_hex b) = (2 * length b)%nat.
Proof. induction b as [|x b IH]; simpl; [reflexivity|]. rewrite IH. lia. Qed.

(** Claim C9, as amended.  The stored name is sixteen lower-case
    hexadecimal digits, a hyphen, the sanitized base name and the original
    extension, where base name and extension are the two parts of the last
    portion of the client's name and the extension is taken over unchanged.
    The sanitized base name is obtained by replacing every character outside
    [[A-Za-z0-9.-]] (the class is matched without regard to case, so capital
    letters are kept) by an underscore, collapsing runs of underscores,
    trimming underscores at both edges, cutting at 100 characters and
    trimming underscores at the end once more.  It therefore has at most
    100 characters, all of the class or underscores, no two underscores
    side by side and none at either edge; a base name of at most 100
    characters of the class is kept unchanged. *)
Theorem stored_filename_format :
  forall (rnd : Random8) (originalname : string),
    let id := to_hex (random_bytes rnd) in
    let ext := extname originalname in
    let base := basename_ext originalname ext in
    let safe := safeName (chars base) in
    storage_filename rnd originalname
    = text (id ++ chars "-" ++ safe ++ chars ext)
    /\ length id = 16%nat
    /\ Forall (fun c => is_hex_char c = true) id
    /\ last_component (chars originalname) = chars base ++ chars ext
    /\ safe = strip_end is_underscore
                (firstn 100
                   (trim_underscores
                      (collapse_underscores (replace_unsafe (chars base)))))
    /\ (forall i c, nth_error (chars base) i = Some c ->
          nth_error (replace_unsafe (chars base)) i
          = Some (if is_name_char c then c else "_"%char))
    /\ (length safe <= 100)%nat
    /\ Forall tidy safe
    /\ single_underscores safe
    /\ (forall r, safe <> "_"%char :: r)
    /\ (forall r, safe <> r ++ ["_"%char])
    /\ (Forall (fun c => is_name_char c = true) (chars base) ->
        (length (chars base) <= 100)%nat ->
        safe = chars base).
Proof.
  intros rnd originalname id ext base safe.
  split; [reflexivity|].
  split; [subst id; now rewrite to_hex_length|].
  split; [apply to_hex_chars|].
  split; [apply storage_name_split|].
  split; [apply safeName_cut|].
  split.
  { intros i c H. unfold replace_unsafe. now rewrite nth_error_map, H. }
  split; [apply safeName_length|].
  split; [apply safeName_tidy|].
  split; [apply safeName_single|].
  split; [intros r; apply safeName_no_leading|].
  split; [intros r; apply safeName_no_trailing|].
  apply safeName_clean.
Qed.

(** The claim of C9 fails on a name with a capital letter: the code keeps
    the letter, the rule as worded replaces it. *)
Lemma capital_letter_kept :
  storage_filename sample_random "A.txt" = "00ff1a2b3c4d5e09-A.txt"
  /\ spec_storage_filename sample_random "A.txt" = "00ff1a2b3c4d5e09-.txt"
  /\ storage_filename sample_random "A.txt"
     <> spec_storage_filename sample_random "A.txt".
Proof. vm_compute. repeat split; discriminate. Qed.

(** More of the rule at work. *)
Example stored_name_sample :
  storage_filename sample_random "dir/My  Holiday__(1).Photo.JPG"
  = "00ff1a2b3c4d5e09-My_Holiday_1_.Photo.JPG".
Proof. reflexivity. Qed.

(* ================================================================== *)
(** ** HueAllocator *)
(* ================================================================== *)

Section HueArithmetic.
Local Open Scope Q_scope.

Lemma Qle_bool_false x y : Qle_bool x y = false <-> y < x.
Proof.
  split.
  - intros H. apply Qnot_le_lt. intros Hle.
    apply Qle_bool_iff in Hle. congruence.
  - intros H. destruct (Qle_bool x y) eqn:E; [|reflexivity].
    apply Qle_bool_iff in E. apply Qlt_not_le in H. contradiction.
Qed.

Lemma Qtrunc_floor q : 0 <= q -> Qtrunc q = Qfloor q.
Proof.
  destruct q as [n d]. unfold Qle, Qtrunc, Qfloor. simpl.
  rewrite Z.mul_1_r. intros H. apply Z.quot_div_nonneg; lia.
Qed.

Lemma Qfloor_unique q (k : Z) :
  inject_Z k <= q -> q < inject_Z (k + 1) -> Qfloor q = k.
Proof.
  intros Hlo Hhi.
  pose proof (Qfloor_le q) as H1. pose proof (Qlt_floor q) as H2.
  assert (Ha : (Qfloor q < k + 1)%Z).
  { rewrite Zlt_Qlt. eapply Qle_lt_trans; eassumption. }
  assert (Hb : (k < Qfloor q + 1)%Z).
  { rewrite Zlt_Qlt. eapply Qle_lt_trans; eassumption. }
  lia.
Qed.

(** [x % 360] for the sums the allocator forms. *)
Lemma js_rem_small x : 0 <= x -> x < 360 -> js_rem x 360 == x.
Proof.
  intros H0 H1. unfold js_rem.
  assert (Hq : 0 <= x / 360) by (apply Qle_shift_div_l; lra).
  rewrite (Qtrunc_floor _ Hq), (Qfloor_unique _ 0%Z).
  - change (inject_Z 0) with 0. lra.
  - exact Hq.
  - apply Qlt_shift_div_r; [reflexivity|]. change (inject_Z (0 + 1)) with 1. lra.
Qed.

Lemma js_rem_wrap x : 360 <= x -> x < 720 -> js_rem x 360 == x - 360.
Proof.
  intros H0 H1. unfold js_rem.
  assert (Hq : 1 <= x / 360) by (apply Qle_shift_div_l; lra).
  assert (Hq0 : 0 <= x / 360) by lra.
  rewrite (Qtrunc_floor _ Hq0), (Qfloor_unique _ 1%Z).
  - change (inject_Z 1) with 1. lra.
  - exact Hq.
  - apply Qlt_shift_div_r; [reflexivity|]. change (inject_Z (1 + 1)) with 2. lra.
Qed.

(** The error of one rounding below 1024, as a fraction. *)
Lemma binary64_near x :
  Qabs x < 1024 ->
  x - (1 # 17592186044416) <= binary64 x
  /\ binary64 x <= x + (1 # 17592186044416).
Proof.
  intros H. pose proof (binary64_close x H) as Hc.
  change (2 ^ (-44)) with (1 # 17592186044416) in Hc.
  apply Qabs_Qle_condition in Hc. lra.
Qed.

Lemma Qabs_below x b : - b < x -> x < b -> Qabs x < b.
Proof.
  intros H1 H2. apply Qabs_case; intros; lra.
Qed.

Lemma inject_Z_sub a b : inject_Z (a - b) == inject_Z a - inject_Z b.
Proof.
  unfold Z.sub. rewrite inject_Z_plus, inject_Z_opp. reflexivity.
Qed.

(** The remainder of a binary64 number below 720 is a binary64 number. *)
Lemma js_rem_binary64 s :
  is_binary64 s -> 0 <= s -> s < 720 -> is_binary64 (js_rem s 360).
Proof.
  intros Hs H0 H1.
  destruct (Qlt_le_dec s 360) as [Hsmall|Hbig].
  { apply (is_binary64_comp s); [|exact Hs].
    symmetry. now apply js_rem_small. }
  assert (Hnz : ~ s == 0) by lra.
  destruct (binary64_repr s Hnz) as (m & Em & Hm).
  unfold is_binary64 in Hs. rewrite Hs in Em.
  assert (Habs : Qabs s == s) by (apply Qabs_pos; lra).
  assert (He : exponent64 s = (-44)%Z \/ exponent64 s = (-43)%Z).
  { unfold exponent64.
    destruct (Qlt_le_dec s 512) as [Hlo|Hhi].
    - left. rewrite (ilog2_unique (Qabs s) 8); [reflexivity| |];
        rewrite Habs.
      + change (2 ^ 8) with 256. lra.
      + change (2 ^ (8 + 1)) with 512. lra.
    - right. rewrite (ilog2_unique (Qabs s) 9); [reflexivity| |];
        rewrite Habs.
      + change (2 ^ 9) with 512. lra.
      + change (2 ^ (9 + 1)) with 1024. lra. }
  assert (Hrem : js_rem s 360 == s - 360) by now apply js_rem_wrap.
  destruct He as [He|He]; rewrite He in Em.
  - change (2 ^ (-44)) with (1 # 17592186044416) in Em.
    apply (binary64_fixed _ (m - 6333186975989760) (-44)); [| |lia].
    + rewrite Hrem, Em. rewrite inject_Z_sub.
      change (2 ^ (-44)) with (1 # 17592186044416).
      change (inject_Z 6333186975989760) with 6333186975989760. lra.
    + assert (6333186975989760 <= m)%Z.
      { rewrite Zle_Qle.
        change (inject_Z 6333186975989760) with 6333186975989760. lra. }
      lia.
  - change (2 ^ (-43)) with (1 # 8796093022208) in Em.
    apply (binary64_fixed _ (m - 3166593487994880) (-43)); [| |lia].
    + rewrite Hrem, Em. rewrite inject_Z_sub.
      change (2 ^ (-43)) with (1 # 8796093022208).
      change (inject_Z 3166593487994880) with 3166593487994880. lra.
    + assert (3166593487994880 <= m)%Z.
      { rewrite Zle_Qle.
        change (inject_Z 3166593487994880) with 3166593487994880. lra. }
      lia.
Qed.

Lemma exact_gap_raw current next :
  current < next -> exact_gap current next = next - current.
Proof.
  intros H. unfold exact_gap.
  assert (E : Qle_bool (next - current) 0 = false)
    by (apply Qle_bool_false; lra).
  now rewrite E.
Qed.

Lemma exact_gap_wrap current next :
  next <= current -> exact_gap current next = next - current + 360.
Proof.
  intros H. unfold exact_gap.
  assert (E : Qle_bool (next - current) 0 = true)
    by (apply Qle_bool_iff; lra).
  now rewrite E.
Qed.

(** The gap the code computes is within two roundings of the gap. *)
Lemma forward_gap_near current next :
  is_binary64 current -> is_binary64 next ->
  on_circle current -> on_circle next ->
  exact_gap current next - (1 # 8796093022208) <= forward_gap current next
  /\ forward_gap current next <= exact_gap current next + (1 # 8796093022208).
Proof.
  intros Bc Bn [Hc0 Hc1] [Hn0 Hn1]. unfold forward_gap.
  assert (Hd : Qabs (next - current) < 1024) by (apply Qabs_below; lra).
  pose proof (binary64_near _ Hd) as [Hlo Hhi].
  destruct (Qlt_le_dec current next) as [Hlt|Hle].
  - pose proof (binary64_difference current next Bc Bn Hlt) as Hpos.
    assert (E : Qle_bool (binary64 (next - current)) 0 = false)
      by now apply Qle_bool_false.
    rewrite E, exact_gap_raw by assumption. lra.
  - assert (Hneg : binary64 (next - current) <= 0)
      by (apply binary64_nonpos; lra).
    assert (E : Qle_bool (binary64 (next - current)) 0 = true)
      by now apply Qle_bool_iff.
    rewrite E, exact_gap_wrap by assumption.
    assert (Hd' : Qabs (binary64 (next - current) + 360) < 1024)
      by (apply Qabs_below; lra).
    pose proof (binary64_near _ Hd') as [Hlo' Hhi']. lra.
Qed.

Lemma exact_gap_range current next :
  on_circle current -> on_circle next ->
  0 < exact_gap current next /\ exact_gap current next <= 360.
Proof.
  intros [Hc0 Hc1] [Hn0 Hn1].
  destruct (Qlt_le_dec current next) as [Hlt|Hle].
  - rewrite exact_gap_raw by assumption. lra.
  - rewrite exact_gap_wrap by assumption. lra.
Qed.

(** The gap the code computes from a hue to itself or to a larger hue
    is positive. *)
Lemma forward_gap_pos current next :
  current <= next -> 0 < forward_gap current next.
Proof.
  intros Hle. unfold forward_gap.
  destruct (Qle_bool (binary64 (next - current)) 0) eqn:E.
  - apply Qle_bool_iff in E.
    assert (H0 : 0 <= binary64 (next - current))
      by (apply binary64_nonneg; lra).
    assert (Ez : binary64 (next - current) + 360 == 360) by lra.
    rewrite (binary64_comp _ _ Ez). reflexivity.
  - now apply Qle_bool_false in E.
Qed.
Lemma Qabs_within x y e : y - e <= x -> x <= y + e -> Qabs (x - y) <= e.
Proof. intros H1 H2. apply Qabs_Qle_condition. split; lra. Qed.

End HueArithmetic.

Section HueOrder.
Local Open Scope Q_scope.

Lemma insert_hue_perm x l : Permutation (insert_hue x l) (x :: l).
Proof.
  induction l as [|y r IH]; simpl; [reflexivity|].
  destruct (Qle_bool x y); [reflexivity|].
  rewrite IH. apply perm_swap.
Qed.

Lemma sort_hues_perm l : Permutation (sort_hues l) l.
Proof.
  induction l as [|x l IH]; simpl; [reflexivity|].
  rewrite insert_hue_perm. now constructor.
Qed.

Lemma insert_hue_sorted x l :
  StronglySorted Qle l -> StronglySorted Qle (insert_hue x l).
Proof.
  induction l as [|y r IH]; intros H; simpl.
  - repeat constructor.
  - inversion H as [|? ? Hr Hy]; subst.
    destruct (Qle_bool x y) eqn:E.
    + apply Qle_bool_iff in E. constructor; [assumption|].
      constructor; [assumption|].
      eapply Forall_impl; [|exact Hy]. intros z Hz. lra.
    + apply Qle_bool_false in E. constructor; [auto|].
      eapply Permutation_Forall; [symmetry; apply insert_hue_perm|].
      constructor; [lra | assumption].
Qed.

Lemma sort_hues_sorted l : StronglySorted Qle (sort_hues l).
Proof.
  induction l as [|x l IH]; simpl; [constructor|].
  now apply insert_hue_sorted.
Qed.

Lemma distinct_perm l l' :
  Permutation l l' -> distinct_hues l -> distinct_hues l'.
Proof.
  induction 1 as [|x l l' Hp IH|x y l|l l' l'' _ IH1 _ IH2]; intros Hd.
  - constructor.
  - inversion Hd as [|? ? Hx Hl]; subst. constructor; [|auto].
    intros y Hy. apply Hx. eapply Permutation_in; [symmetry|]; eassumption.
  - inversion Hd as [|? ? Hy Hl]; subst.
    inversion Hl as [|? ? Hx Hl']; subst.
    constructor.
    + intros z [<-|Hz]; [|auto].
      intros E. apply (Hy x); [now left | now symmetry].
    + constructor; [|assumption]. intros z Hz. apply Hy. now right.
  - auto.
Qed.

Lemma sorted_strict l :
  StronglySorted Qle l -> distinct_hues l -> StronglySorted Qlt l.
Proof.
  induction 1 as [|x l Hs IH Hx]; intros Hd; [constructor|].
  inversion Hd as [|? ? Hne Hl]; subst. constructor; [auto|].
  apply Forall_forall. intros y Hy.
  rewrite Forall_forall in Hx. specialize (Hx y Hy). specialize (Hne y Hy).
  apply Qle_lteq in Hx. tauto.
Qed.

Lemma strictly_sorted_nth l : StronglySorted Qlt l ->
  forall i j, (i < j)%nat -> (j < length l)%nat -> hue_at l i < hue_at l j.
Proof.
  unfold hue_at. induction 1 as [|x l Hs IH Hx]; intros i j Hij Hj.
  - simpl in Hj. lia.
  - destruct j as [|j]; [lia|]. simpl in Hj.
    destruct i as [|i]; simpl.
    + rewrite Forall_forall in Hx. apply Hx. apply nth_In. lia.
    + apply IH; lia.
Qed.

Lemma sorted_nth l : StronglySorted Qle l ->
  forall i j, (i <= j)%nat -> (j < length l)%nat -> hue_at l i <= hue_at l j.
Proof.
  unfold hue_at. induction 1 as [|x l Hs IH Hx]; intros i j Hij Hj.
  - simpl in Hj. lia.
  - destruct j as [|j]; simpl in Hj.
    + replace i with 0%nat by lia. simpl. lra.
    + destruct i as [|i]; simpl.
      * rewrite Forall_forall in Hx. apply Hx. apply nth_In. lia.
      * apply IH; lia.
Qed.
End HueOrder.

Section HueSums.
Local Open Scope Q_scope.

Lemma Qsum_app l1 l2 : Qsum (l1 ++ l2) == Qsum l1 + Qsum l2.
Proof.
  unfold Qsum. induction l1 as [|x l IH]; simpl; [ring|]. rewrite IH. ring.
Qed.

Lemma Qsum_bound g l :
  (forall x, In x l -> x <= g) ->
  Qsum l <= inject_Z (Z.of_nat (length l)) * g.
Proof.
  unfold Qsum. induction l as [|x l IH]; intros H.
  - simpl. change (inject_Z 0) with 0. lra.
  - cbn [fold_right length]. rewrite Nat2Z.inj_succ.
    unfold Z.succ. rewrite inject_Z_plus.
    change (inject_Z 1) with 1.
    pose proof (H x (or_introl eq_refl)).
    assert (fold_right Qplus 0 l <= inject_Z (Z.of_nat (length l)) * g)
      by (apply IH; intros y Hy; apply H; now right).
    setoid_replace ((inject_Z (Z.of_nat (length l)) + 1) * g)
      with (inject_Z (Z.of_nat (length l)) * g + g) by ring.
    lra.
Qed.

Lemma mean_lower n x :
  0 <= n -> n <= 1099511627776 -> 360 <= n * x -> (360 # 1099511627776) <= x.
Proof.
  intros Hn0 Hn1 Hlow.
  destruct (Qlt_le_dec x (360 # 1099511627776)) as [Hlt|Hge]; [|exact Hge].
  exfalso.
  assert (H : n * x <= 1099511627776 * x).
  { destruct (Qlt_le_dec x 0) as [Hneg|Hnn].
    - assert (H0 : 0 <= n * - x) by (apply Qmult_le_0_compat; lra).
      setoid_replace (n * - x) with (- (n * x)) in H0 by ring. lra.
    - apply Qmult_le_compat_r; assumption. }
  lra.
Qed.

Lemma distance_lower d a b :
  (d <= a - b /\ a - b <= 360 - d) \/ (d <= b - a /\ b - a <= 360 - d) ->
  d <= circular_distance a b.
Proof.
  intros H. unfold circular_distance.
  destruct (Qle_bool a b) eqn:E1;
    [apply Qle_bool_iff in E1 | apply Qle_bool_false in E1];
    match goal with
    | |- context [Qle_bool ?x ?y] =>
        destruct (Qle_bool x y) eqn:E2;
        [apply Qle_bool_iff in E2 | apply Qle_bool_false in E2]
    end; lra.
Qed.

Lemma distance_nonneg a b :
  on_circle a -> on_circle b -> 0 <= circular_distance a b.
Proof.
  intros [Ha0 Ha1] [Hb0 Hb1]. unfold circular_distance.
  destruct (Qle_bool a b) eqn:E1;
    [apply Qle_bool_iff in E1 | apply Qle_bool_false in E1];
    match goal with
    | |- context [Qle_bool ?x ?y] =>
        destruct (Qle_bool x y) eqn:E2;
        [apply Qle_bool_iff in E2 | apply Qle_bool_false in E2]
    end; lra.
Qed.
End HueSums.

Section HueLoop.
Local Open Scope Q_scope.
Variable hues : list Q.

Lemma hue_loop_step k st :
  best_so_far hues k st -> best_so_far hues (S k) (hue_step hues st k).
Proof.
  intros [[-> Hall] | (i & Hi & -> & Hpos & Hmax & Hfirst)]; unfold hue_step.
  - destruct (Qle_bool (gap_at hues k) 0) eqn:E; simpl.
    + apply Qle_bool_iff in E. left. split; [reflexivity|].
      intros j Hj. destruct (Nat.eq_dec j k) as [->|]; [assumption|].
      apply Hall. lia.
    + apply Qle_bool_false in E. right. exists k.
      split; [lia|]. split; [reflexivity|]. split; [assumption|]. split.
      * intros j Hj. destruct (Nat.eq_dec j k) as [->|]; [lra|].
        specialize (Hall j ltac:(lia)). lra.
      * intros j Hj. specialize (Hall j Hj). lra.
  - destruct (Qle_bool (gap_at hues k) (gap_at hues i)) eqn:E; simpl.
    + apply Qle_bool_iff in E. right. exists i.
      split; [lia|]. split; [reflexivity|]. split; [assumption|].
      split; [|assumption].
      intros j Hj. destruct (Nat.eq_dec j k) as [->|]; [assumption|].
      apply Hmax. lia.
    + apply Qle_bool_false in E. right. exists k.
      split; [lia|]. split; [reflexivity|]. split; [lra|]. split.
      * intros j Hj. destruct (Nat.eq_dec j k) as [->|]; [lra|].
        specialize (Hmax j ltac:(lia)). lra.
      * intros j Hj. specialize (Hmax j Hj). lra.
Qed.

Lemma hue_loop_invariant k :
  best_so_far hues k (fold_left (hue_step hues) (seq 0 k) (0, 0)).
Proof.
  induction k as [|k IH].
  - left. split; [reflexivity|]. intros j Hj. lia.
  - rewrite seq_S, fold_left_app. simpl. now apply hue_loop_step.
Qed.

Hypothesis Hsorted : StronglySorted Qle hues.
Hypothesis Hnonempty : hues <> [].

Lemma length_pos : (0 < length hues)%nat.
Proof. destruct hues; [congruence | simpl; lia]. Qed.

Lemma next_index i :
  (i < length hues)%nat ->
  ((S i < length hues)%nat /\ ((i + 1) mod length hues = S i)%nat)
  \/ (S i = length hues /\ ((i + 1) mod length hues = 0)%nat).
Proof.
  intros Hi. destruct (Nat.eq_dec (S i) (length hues)) as [E|E].
  - right. split; [assumption|].
    replace (i + 1)%nat with (length hues) by lia.
    apply Nat.Div0.mod_same.
  - left. split; [lia|].
    replace (i + 1)%nat with (S i) by lia. apply Nat.mod_small. lia.
Qed.

Lemma first_gap_positive : 0 < gap_at hues 0.
Proof.
  unfold gap_at. apply forward_gap_pos.
  pose proof length_pos as Hn.
  destruct (next_index 0 Hn) as [[H1 ->]|[H1 ->]].
  - apply sorted_nth; [assumption | lia | lia].
  - lra.
Qed.

(** The loop ends on the first of the largest gaps. *)
Lemma hue_loop_result :
  exists i, (i < length hues)%nat
    /\ fold_left (hue_step hues) (seq 0 (length hues)) (0, 0)
       = (gap_at hues i, midpoint_at hues i)
    /\ 0 < gap_at hues i
    /\ (forall j, (j < length hues)%nat -> gap_at hues j <= gap_at hues i)
    /\ (forall j, (j < i)%nat -> gap_at hues j < gap_at hues i).
Proof.
  destruct (hue_loop_invariant (length hues)) as [[_ Hall] | H]; [|exact H].
  pose proof first_gap_positive. specialize (Hall 0%nat length_pos). lra.
Qed.

Hypothesis Hrange : Forall on_circle hues.
Hypothesis Hfloat : Forall is_binary64 hues.

Lemma hue_at_on_circle i : (i < length hues)%nat -> on_circle (hue_at hues i).
Proof.
  intros Hi. rewrite Forall_forall in Hrange. apply Hrange.
  unfold hue_at. now apply nth_In.
Qed.

Lemma hue_at_binary64 i : (i < length hues)%nat -> is_binary64 (hue_at hues i).
Proof.
  intros Hi. rewrite Forall_forall in Hfloat. apply Hfloat.
  unfold hue_at. now apply nth_In.
Qed.

Lemma next_in_range i :
  (i < length hues)%nat -> ((i + 1) mod length hues < length hues)%nat.
Proof. intros Hi. apply Nat.mod_upper_bound. lia. Qed.

(** Each gap the code computes is within two roundings of the gap. *)
Lemma gap_near j :
  (j < length hues)%nat ->
  exact_gap_at hues j - (1 # 8796093022208) <= gap_at hues j
  /\ gap_at hues j <= exact_gap_at hues j + (1 # 8796093022208).
Proof.
  intros Hj. unfold gap_at, exact_gap_at.
  apply forward_gap_near;
    auto using hue_at_binary64, hue_at_on_circle, next_in_range.
Qed.

Lemma exact_gap_at_range j :
  (j < length hues)%nat ->
  0 < exact_gap_at hues j /\ exact_gap_at hues j <= 360.
Proof.
  intros Hj. unfold exact_gap_at.
  apply exact_gap_range; auto using hue_at_on_circle, next_in_range.
Qed.

(** The sum the code takes the remainder of: within three roundings of
    the middle of the gap. *)
Lemma midpoint_near i :
  (i < length hues)%nat -> 0 < gap_at hues i ->
  let s := binary64 (hue_at hues i + binary64 (gap_at hues i / 2)) in
  hue_at hues i + exact_gap_at hues i * (1 # 2) - (3 # 17592186044416) <= s
  /\ s <= hue_at hues i + exact_gap_at hues i * (1 # 2)
          + (3 # 17592186044416)
  /\ 0 <= s /\ s < 720.
Proof.
  intros Hi Hpos s.
  pose proof (hue_at_on_circle i Hi) as [Hi0 Hi1].
  pose proof (gap_near i Hi) as [Hg0 Hg1].
  pose proof (exact_gap_at_range i Hi) as [He0 He1].
  assert (Ehalf : gap_at hues i / 2 == gap_at hues i * (1 # 2))
    by reflexivity.
  assert (Hh : Qabs (gap_at hues i / 2) < 1024)
    by (apply Qabs_below; lra).
  pose proof (binary64_near _ Hh) as [Hh0 Hh1].
  assert (Hhpos : 0 <= binary64 (gap_at hues i / 2))
    by (apply binary64_nonneg; lra).
  assert (Hs : Qabs (hue_at hues i + binary64 (gap_at hues i / 2)) < 1024)
    by (apply Qabs_below; lra).
  pose proof (binary64_near _ Hs) as [Hs0 Hs1]. fold s in Hs0, Hs1.
  assert (Hspos : 0 <= s) by (apply binary64_nonneg; lra).
  repeat split; lra.
Qed.

(** The value returned for a positive gap is a binary64 number on the
    circle. *)
Lemma midpoint_on_circle i :
  (i < length hues)%nat -> 0 < gap_at hues i ->
  on_circle (midpoint_at hues i) /\ is_binary64 (midpoint_at hues i).
Proof.
  intros Hi Hpos. unfold midpoint_at.
  destruct (midpoint_near i Hi Hpos) as (_ & _ & H0 & H1).
  set (s := binary64 (hue_at hues i + binary64 (gap_at hues i / 2))) in *.
  split.
  - unfold on_circle. destruct (Qlt_le_dec s 360) as [Hsmall|Hbig].
    + rewrite js_rem_small by assumption. lra.
    + rewrite js_rem_wrap by assumption. lra.
  - apply js_rem_binary64; [apply binary64_idempotent | assumption..].
Qed.

Hypothesis Hdistinct : distinct_hues hues.

Lemma inner_gap i :
  (S i < length hues)%nat ->
  exact_gap_at hues i = hue_at hues (S i) - hue_at hues i.
Proof.
  intros Hn. unfold exact_gap_at.
  destruct (next_index i ltac:(lia)) as [[_ ->]|[Hc _]];
    [|lia].
  apply exact_gap_raw.
  apply strictly_sorted_nth; [now apply sorted_strict | lia | assumption].
Qed.

Lemma outer_gap i :
  S i = length hues ->
  exact_gap_at hues i = hue_at hues 0 - hue_at hues i + 360.
Proof.
  intros Hn. unfold exact_gap_at.
  destruct (next_index i ltac:(lia)) as [[Hc _]|[_ ->]];
    [lia|].
  apply exact_gap_wrap. apply sorted_nth; [assumption | lia | lia].
Qed.

Lemma inner_gaps_telescope k :
  (k < length hues)%nat ->
  Qsum (map (exact_gap_at hues) (seq 0 k)) == hue_at hues k - hue_at hues 0.
Proof.
  induction k as [|k IH]; intros Hk.
  - simpl. lra.
  - rewrite seq_S, map_app, Qsum_app, IH by lia. simpl.
    rewrite inner_gap by assumption. lra.
Qed.

(** The gaps go once round the circle. *)
Lemma gaps_sum :
  Qsum (map (exact_gap_at hues) (seq 0 (length hues))) == 360.
Proof.
  destruct (length hues) as [|k] eqn:E.
  - pose proof length_pos. lia.
  - rewrite seq_S, map_app, Qsum_app. simpl.
    rewrite inner_gaps_telescope by lia.
    rewrite outer_gap by lia. lra.
Qed.

(** A gap that the code finds largest is within four roundings of every
    gap, and so of the mean gap. *)
Lemma largest_gap_near i j :
  (i < length hues)%nat -> (j < length hues)%nat ->
  gap_at hues j <= gap_at hues i ->
  exact_gap_at hues j <= exact_gap_at hues i + (1 # 4398046511104).
Proof.
  intros Hi Hj Hle.
  pose proof (gap_near i Hi) as [_ Hi1].
  pose proof (gap_near j Hj) as [Hj0 _]. lra.
Qed.

Lemma largest_gap_lower i :
  (i < length hues)%nat ->
  (forall j, (j < length hues)%nat -> gap_at hues j <= gap_at hues i) ->
  360 <= inject_Z (Z.of_nat (length hues))
         * (exact_gap_at hues i + (1 # 4398046511104)).
Proof.
  intros Hi Hmax.
  pose proof (Qsum_bound (exact_gap_at hues i + (1 # 4398046511104))
                (map (exact_gap_at hues) (seq 0 (length hues)))) as Hb.
  rewrite length_map, length_seq in Hb.
  rewrite <- gaps_sum. apply Hb.
  intros x Hx. apply in_map_iff in Hx. destruct Hx as (j & <- & Hj).
  apply in_seq in Hj. apply largest_gap_near; [assumption | lia|].
  apply Hmax. lia.
Qed.

(** With at most 2^40 hues, a gap that the code finds largest is wider
    than six roundings. *)
Lemma largest_gap_wide i :
  (Z.of_nat (length hues) <= 2 ^ 40)%Z ->
  (i < length hues)%nat ->
  (forall j, (j < length hues)%nat -> gap_at hues j <= gap_at hues i) ->
  (3 # 8796093022208) < exact_gap_at hues i.
Proof.
  intros Hcount Hi Hmax.
  pose proof (largest_gap_lower i Hi Hmax) as Hlow.
  apply mean_lower in Hlow; [lra| |].
  - change 0 with (inject_Z 0). rewrite <- Zle_Qle. lia.
  - change 1099511627776 with (inject_Z (2 ^ 40)). now rewrite <- Zle_Qle.
Qed.

(** The value returned for a gap wider than six roundings lies strictly
    between the two ends of the gap, so it is none of the hues. *)
Lemma midpoint_free i :
  (i < length hues)%nat -> 0 < gap_at hues i ->
  (3 # 8796093022208) < exact_gap_at hues i ->
  forall j, (j < length hues)%nat -> ~ midpoint_at hues i == hue_at hues j.
Proof.
  intros Hi Hpos Hwide.
  pose proof (sorted_strict hues Hsorted Hdistinct) as Hstrict.
  pose proof (hue_at_on_circle i Hi) as [Hi0 Hi1].
  destruct (midpoint_near i Hi Hpos) as (Hlo & Hhi & H0 & H1).
  unfold midpoint_at.
  set (s := binary64 (hue_at hues i + binary64 (gap_at hues i / 2))) in *.
  destruct (Nat.eq_dec (S i) (length hues)) as [Hlast|Hinner].
  - (* the gap across 0 *)
    pose proof (hue_at_on_circle 0 length_pos) as [Hz0 Hz1].
    rewrite (outer_gap i Hlast) in Hlo, Hhi, Hwide.
    destruct (Qlt_le_dec s 360) as [Hsmall|Hbig].
    + assert (Hrem : js_rem s 360 == s) by (apply js_rem_small; lra).
      intros j Hj. rewrite Hrem.
      pose proof (sorted_nth hues Hsorted j i ltac:(lia) Hi). lra.
    + assert (Hrem : js_rem s 360 == s - 360) by (apply js_rem_wrap; lra).
      intros j Hj. rewrite Hrem.
      pose proof (sorted_nth hues Hsorted 0 j ltac:(lia) Hj). lra.
  - (* an inner gap *)
    assert (Hn : (S i < length hues)%nat) by lia.
    pose proof (hue_at_on_circle (S i) Hn) as [Hs0 Hs1].
    rewrite (inner_gap i Hn) in Hlo, Hhi, Hwide.
    assert (Hrem : js_rem s 360 == s) by (apply js_rem_small; lra).
    intros j Hj. rewrite Hrem.
    destruct (Nat.le_gt_cases j i) as [Hle|Hgt].
    + pose proof (sorted_nth hues Hsorted j i Hle Hi). lra.
    + pose proof (sorted_nth hues Hsorted (S i) j ltac:(lia) Hj). lra.
Qed.

(** The value returned for a gap is half the gap, less three roundings,
    away from every hue. *)
Lemma midpoint_apart i j :
  (i < length hues)%nat -> (j < length hues)%nat -> 0 < gap_at hues i ->
  exact_gap_at hues i * (1 # 2) - (3 # 17592186044416)
  <= circular_distance (midpoint_at hues i) (hue_at hues j).
Proof.
  intros Hi Hj Hpos.
  pose proof (hue_at_on_circle i Hi) as [Hi0 Hi1].
  pose proof (hue_at_on_circle j Hj) as [Hj0 Hj1].
  destruct (Qlt_le_dec (3 # 17592186044416) (exact_gap_at hues i * (1 # 2)))
    as [Hwide|Hnarrow].
  2:{ eapply Qle_trans; [|apply distance_nonneg].
      - lra.
      - now apply midpoint_on_circle.
      - now apply hue_at_on_circle. }
  destruct (midpoint_near i Hi Hpos) as (Hlo & Hhi & H0 & H1).
  apply distance_lower. unfold midpoint_at.
  set (s := binary64 (hue_at hues i + binary64 (gap_at hues i / 2))) in *.
  destruct (Nat.eq_dec (S i) (length hues)) as [Hlast|Hinner].
  - (* the gap across 0 *)
    pose proof (hue_at_on_circle 0 length_pos) as [Hz0 Hz1].
    pose proof (sorted_nth hues Hsorted 0 j ltac:(lia) Hj) as Hjlo.
    pose proof (sorted_nth hues Hsorted j i ltac:(lia) Hi) as Hjhi.
    rewrite (outer_gap i Hlast) in Hlo, Hhi, Hwide |- *.
    destruct (Qlt_le_dec s 360) as [Hsmall|Hbig].
    + assert (Hrem : js_rem s 360 == s) by (apply js_rem_small; lra).
      left. lra.
    + assert (Hrem : js_rem s 360 == s - 360) by (apply js_rem_wrap; lra).
      right. lra.
  - (* an inner gap *)
    assert (Hn : (S i < length hues)%nat) by lia.
    pose proof (hue_at_on_circle (S i) Hn) as [Hs0 Hs1].
    rewrite (inner_gap i Hn) in Hlo, Hhi, Hwide |- *.
    assert (Hrem : js_rem s 360 == s) by (apply js_rem_small; lra).
    destruct (Nat.le_gt_cases j i) as [Hle|Hgt].
    + pose proof (sorted_nth hues Hsorted j i Hle Hi). left. lra.
    + pose proof (sorted_nth hues Hsorted (S i) j ltac:(lia) Hj). right. lra.
Qed.
End HueLoop.

Section HueAssignment.
Local Open Scope Q_scope.
Variable activeHues : Hues.
Let hues := sort_hues (hue_values activeHues).

Lemma assignHue_empty : activeHues = [] -> assignHue activeHues = 210.
Proof. now intros ->. Qed.

Lemma sorted_hues_length : length hues = length activeHues.
Proof.
  unfold hues.
  rewrite (Permutation_length (sort_hues_perm (hue_values activeHues))).
  unfold hue_values. apply length_map.
Qed.

Lemma sorted_hues_nonempty : activeHues <> [] -> hues <> [].
Proof.
  intros Hne E. pose proof sorted_hues_length as Hl. rewrite E in Hl.
  destruct activeHues; [congruence | discriminate].
Qed.

Lemma assignHue_loop :
  activeHues <> [] ->
  assignHue activeHues
  = snd (fold_left (hue_step hues) (seq 0 (length hues)) (0, 0)).
Proof.
  intros Hne. apply sorted_hues_nonempty in Hne.
  unfold assignHue. change (map snd activeHues) with (hue_values activeHues).
  fold hues. destruct hues as [|x l] eqn:E; [congruence|].
  now destruct (fold_left _ _ _).
Qed.

(** The result is the value computed for the first of the largest gaps
    computed. *)
Lemma assignHue_largest_gap :
  activeHues <> [] ->
  exists i, (i < length hues)%nat
    /\ assignHue activeHues = midpoint_at hues i
    /\ 0 < gap_at hues i
    /\ (forall j, (j < length hues)%nat -> gap_at hues j <= gap_at hues i)
    /\ (forall j, (j < i)%nat -> gap_at hues j < gap_at hues i).
Proof.
  intros Hne. rewrite (assignHue_loop Hne).
  destruct (hue_loop_result hues (sort_hues_sorted _)
              (sorted_hues_nonempty Hne))
    as (i & Hi & -> & Hpos & Hmax & Hfirst).
  exists i. auto.
Qed.

Hypothesis Hfloat : Forall is_binary64 (hue_values activeHues).
Hypothesis Hrange : Forall on_circle (hue_values activeHues).

Lemma sorted_hues_on_circle : Forall on_circle hues.
Proof.
  eapply Permutation_Forall; [symmetry; apply sort_hues_perm | assumption].
Qed.

Lemma sorted_hues_binary64 : Forall is_binary64 hues.
Proof.
  eapply Permutation_Forall; [symmetry; apply sort_hues_perm | assumption].
Qed.

(** The result is a binary64 number on the circle. *)
Lemma assignHue_on_circle :
  on_circle (assignHue activeHues) /\ is_binary64 (assignHue activeHues).
Proof.
  assert (Hcase : activeHues = [] \/ activeHues <> []).
  { clear. destruct activeHues; [left | right]; congruence. }
  destruct Hcase as [Hnil|Hne].
  { rewrite Hnil. split; [|vm_compute; reflexivity].
    unfold on_circle, Qle, Qlt. simpl. lia. }
  destruct (assignHue_largest_gap Hne) as (i & Hi & -> & Hpos & _).
  apply (midpoint_on_circle hues sorted_hues_on_circle
           sorted_hues_binary64 i Hi Hpos).
Qed.

Hypothesis Hdistinct : distinct_hues (hue_values activeHues).

Lemma sorted_hues_distinct : distinct_hues hues.
Proof.
  eapply distinct_perm; [symmetry; apply sort_hues_perm | assumption].
Qed.

(** With at most 2^40 distinct hues, the result is none of them. *)
Lemma assignHue_free :
  (Z.of_nat (length activeHues) <= 2 ^ 40)%Z ->
  forall h, In h (hue_values activeHues) -> ~ assignHue activeHues == h.
Proof.
  intros Hcount h Hin.
  assert (Hne : activeHues <> []) by (intros E; rewrite E in Hin; exact Hin).
  destruct (assignHue_largest_gap Hne) as (i & Hi & -> & Hpos & Hmax & _).
  assert (Hin' : In h hues)
    by (eapply Permutation_in; [symmetry; apply sort_hues_perm | exact Hin]).
  destruct (In_nth hues h 0 Hin') as (j & Hj & <-).
  rewrite <- sorted_hues_length in Hcount.
  apply (midpoint_free hues (sort_hues_sorted _) (sorted_hues_nonempty Hne)
           sorted_hues_on_circle sorted_hues_binary64 sorted_hues_distinct
           i Hi Hpos); [|exact Hj].
  apply (largest_gap_wide hues (sort_hues_sorted _) (sorted_hues_nonempty Hne)
           sorted_hues_on_circle sorted_hues_binary64 sorted_hues_distinct
           i Hcount Hi Hmax).
Qed.
End HueAssignment.

(** Claim C6.  With no active hue the allocator returns 210.  With active
    hues (binary64 numbers of [0, 360), distinct, at most 2^40 of them):
    taking them in ascending order and forming, for each and its successor
    (the last with the first), the forward gap (successor minus current,
    plus 360 when that is not positive, each operation rounded to
    binary64), the allocator returns current + gap / 2 modulo 360, computed
    in binary64, for the largest of the gaps computed, for the first one in
    that order when several are largest.  Each gap computed is within
    2^-43 of the exact gap, so the gap chosen is within 2^-42 of the
    largest exact gap, and the sum taken modulo 360 is within 2^-42 of the
    exact middle of the chosen gap.  The value returned is a binary64
    number of [0, 360) and is none of the active hues. *)
Theorem hue_assignment :
  forall (activeHues : Hues),
    Forall is_binary64 (hue_values activeHues) ->
    Forall on_circle (hue_values activeHues) ->
    distinct_hues (hue_values activeHues) ->
    Z.of_nat (length activeHues) <= 2 ^ 40 ->
    let hues := sort_hues (hue_values activeHues) in
    (activeHues = [] -> assignHue activeHues = 210%Q)
    /\ StronglySorted Qle hues
    /\ Permutation hues (hue_values activeHues)
    /\ (activeHues <> [] ->
        exists i, (i < length hues)%nat
          /\ assignHue activeHues
             = js_rem (binary64 (hue_at hues i
                                 + binary64 (gap_at hues i / 2)))%Q 360%Q
          /\ gap_at hues i
             = forward_gap (hue_at hues i)
                 (hue_at hues ((i + 1) mod length hues))
          /\ (forall j, (j < length hues)%nat ->
                (gap_at hues j <= gap_at hues i)%Q)
          /\ (forall j, (j < i)%nat -> (gap_at hues j < gap_at hues i)%Q)
          /\ (forall j, (j < length hues)%nat ->
                (Qabs (gap_at hues j - exact_gap_at hues j) <= 2 ^ (-43))%Q)
          /\ (forall j, (j < length hues)%nat ->
                (exact_gap_at hues j <= exact_gap_at hues i + 2 ^ (-42))%Q)
          /\ (Qabs (binary64 (hue_at hues i + binary64 (gap_at hues i / 2))
                    - (hue_at hues i + exact_gap_at hues i / 2))
              <= 2 ^ (-42))%Q)
    /\ (forall h, In h (hue_values activeHues) ->
          ~ (assignHue activeHues == h)%Q)
    /\ on_circle (assignHue activeHues)
    /\ is_binary64 (assignHue activeHues).
Proof.
  intros activeHues Hfloat Hrange Hdistinct Hcount hues.
  destruct (assignHue_on_circle activeHues Hfloat Hrange) as [Hc Hb].
  split; [apply assignHue_empty|].
  split; [apply sort_hues_sorted|].
  split; [apply sort_hues_perm|].
  split; [|split; [|split; assumption]].
  - intros Hne.
    destruct (assignHue_largest_gap activeHues Hne)
      as (i & Hi & E & Hpos & Hmax & Hfirst).
    fold hues in Hi, E, Hpos, Hmax, Hfirst.
    pose proof (sort_hues_sorted (hue_values activeHues)) as Hs.
    pose proof (sorted_hues_nonempty activeHues Hne) as Hn.
    pose proof (sorted_hues_on_circle activeHues Hrange) as Hr.
    pose proof (sorted_hues_binary64 activeHues Hfloat) as Hf.
    pose proof (sorted_hues_distinct activeHues Hdistinct) as Hd.
    fold hues in Hs, Hn, Hr, Hf, Hd.
    exists i. split; [exact Hi|]. split; [exact E|].
    split; [reflexivity|]. split; [exact Hmax|]. split; [exact Hfirst|].
    split; [|split].
    + intros j Hj. destruct (gap_near hues Hr Hf j Hj) as [H0 H1].
      change (2 ^ (-43))%Q with (1 # 8796093022208)%Q.
      now apply Qabs_within.
    + intros j Hj. change (2 ^ (-42))%Q with (1 # 4398046511104)%Q.
      apply (largest_gap_near hues Hr Hf i j Hi Hj). now apply Hmax.
    + destruct (midpoint_near hues Hr Hf i Hi Hpos) as (H0 & H1 & _).
      change (2 ^ (-42))%Q with (1 # 4398046511104)%Q.
      apply Qabs_within.
      * setoid_replace (exact_gap_at hues i / 2)%Q
          with (exact_gap_at hues i * (1 # 2))%Q by reflexivity. lra.
      * setoid_replace (exact_gap_at hues i / 2)%Q
          with (exact_gap_at hues i * (1 # 2))%Q by reflexivity. lra.
  - now apply assignHue_free.
Qed.

Lemma sample_hues_distinct : distinct_hues (hue_values sample_hues).
Proof.
  repeat constructor; simpl;
    intros y Hy; repeat (destruct Hy as [<-|Hy]); try contradiction;
    unfold Qeq; simpl; discriminate.
Qed.

Lemma sample_hues_on_circle : Forall on_circle (hue_values sample_hues).
Proof. repeat constructor; unfold Qle, Qlt; simpl; lia. Qed.

Lemma sample_hues_binary64 : Forall is_binary64 (hue_values sample_hues).
Proof. repeat constructor; vm_compute; reflexivity. Qed.

Lemma hue_assignment_witness :
  (Forall is_binary64 (hue_values sample_hues)
   /\ Forall on_circle (hue_values sample_hues)
   /\ distinct_hues (hue_values sample_hues)
   /\ Z.of_nat (length sample_hues) <= 2 ^ 40)
  /\ (forall h, In h (hue_values sample_hues) ->
        ~ (assignHue sample_hues == h)%Q)
  /\ on_circle (assignHue sample_hues).
Proof.
  assert (Hcount : Z.of_nat (length sample_hues) <= 2 ^ 40)
    by (vm_compute; discriminate).
  split;
    [split; [exact sample_hues_binary64
            | split; [exact sample_hues_on_circle
                     | split; [exact sample_hues_distinct | exact Hcount]]]|].
  destruct (hue_assignment sample_hues sample_hues_binary64
              sample_hues_on_circle sample_hues_distinct Hcount)
    as (_ & _ & _ & _ & Hfree & Hc & _).
  split; assumption.
Defined.

(** Hues 30, 120 and 210: the gaps are 90, 90 and 180 (from 210 round to
    30), and the new hue is 300. *)
Example assign_after_three : (assignHue sample_hues == 300)%Q.
Proof. vm_compute. reflexivity. Qed.

(** A tie: hues 30 and 210 leave two gaps of 180; the first met, from 30,
    is split. *)
Example assign_tie : (assignHue [("s1", 210%Q); ("s2", 30%Q)] == 120)%Q.
Proof. vm_compute. reflexivity. Qed.

Example assign_single : (assignHue [("s1", 210%Q)] == 30)%Q.
Proof. vm_compute. reflexivity. Qed.

(** Where the rounding shows.  The only hue is 341.25000000000085 (the
    binary64 number 6003333487656975 / 2^44).  The gap computed is 360, the
    sum 521.25000000000085 is not a binary64 number and rounds up to
    521.2500000000009, and the hue returned is 161.2500000000009, which is
    2^-44 more than the exact midpoint and 180 - 2^-44 away from the hue in
    use. *)
Example assign_rounds :
  is_binary64 (6003333487656975 # 17592186044416)
  /\ (assignHue [("s1", 6003333487656975 # 17592186044416)]
      == 177296249978881 # 1099511627776)%Q
  /\ (js_rem ((6003333487656975 # 17592186044416) + 360 / 2) 360
      == 2836739999662095 # 17592186044416)%Q
  /\ (circular_distance (177296249978881 # 1099511627776)
        (6003333487656975 # 17592186044416)
      == 180 - (1 # 17592186044416))%Q.
Proof. repeat split; vm_compute; reflexivity. Qed.

(** A tie made by rounding.  The hues are the binary64 numbers nearest to
    0.1 and 180.1.  The gap from the second round to the first is the wider
    of the two, by less than 2^-47; both are computed as 180, so the first
    is split and the hue returned is 90.1. *)
Example assign_rounded_tie :
  let a := (3602879701896397 # 36028797018963968)%Q in
  let b := (6336705413198643 # 35184372088832)%Q in
  (exact_gap_at [a; b] 0 < exact_gap_at [a; b] 1)%Q
  /\ (gap_at [a; b] 0 == 180)%Q
  /\ (gap_at [a; b] 1 == 180)%Q
  /\ (assignHue [("s1", a); ("s2", b)]
      == 3170111925203763 # 35184372088832)%Q.
Proof. repeat split; vm_compute; reflexivity. Qed.

(** *** The hues of the connected sockets stay distinct and on the circle *)

Section HueInvariant.
Local Open Scope Q_scope.

Lemma hue_values_set_In k v (m : Hues) y :
  In y (hue_values (JsMap.set k v m)) -> y = v \/ In y (hue_values m).
Proof.
  unfold hue_values. induction m as [|[k' v'] r IH]; simpl.
  - intros [<-|[]]. now left.
  - destruct (String.eqb k' k); simpl.
    + intros [<-|H]; auto.
    + intros [<-|H]; auto. destruct (IH H); auto.
Qed.

Lemma hue_values_set_Forall (P : Q -> Prop) k v (m : Hues) :
  Forall P (hue_values m) -> P v -> Forall P (hue_values (JsMap.set k v m)).
Proof.
  intros Hm Hv. apply Forall_forall. intros y Hy.
  apply hue_values_set_In in Hy. destruct Hy as [->|Hy]; [exact Hv|].
  rewrite Forall_forall in Hm. now apply Hm.
Qed.

Lemma distinct_set k v (m : Hues) :
  distinct_hues (hue_values m) ->
  (forall y, In y (hue_values m) -> ~ v == y) ->
  distinct_hues (hue_values (JsMap.set k v m)).
Proof.
  pose proof (hue_values_set_In k v) as Hin. unfold hue_values in *.
  induction m as [|[k' v'] r IH]; simpl; intros Hd Hnew.
  - constructor; [intros y [] | constructor].
  - inversion Hd as [|? ? Hne Hd']; subst.
    destruct (String.eqb k' k); simpl.
    + constructor; auto.
    + constructor; [|auto].
      intros y Hy. apply Hin in Hy. destruct Hy as [->|Hy].
      * intros E. apply (Hnew v'); [now left | now symmetry].
      * now apply Hne.
Qed.

Lemma hues_ok_set k v (m : Hues) :
  hues_ok m -> is_binary64 v -> on_circle v ->
  (forall y, In y (hue_values m) -> ~ v == y) ->
  hues_ok (JsMap.set k v m).
Proof.
  intros (Hf & Hr & Hd) Hb Hc Hnew. split; [|split].
  - now apply hue_values_set_Forall.
  - now apply hue_values_set_Forall.
  - now apply distinct_set.
Qed.

Lemma hue_values_delete_In k (m : Hues) y :
  In y (hue_values (JsMap.delete k m)) -> In y (hue_values m).
Proof.
  unfold hue_values. induction m as [|[k' v'] r IH]; simpl; [tauto|].
  destruct (String.eqb k' k); simpl; [auto|].
  intros [<-|H]; auto.
Qed.

Lemma hue_values_delete_Forall (P : Q -> Prop) k (m : Hues) :
  Forall P (hue_values m) -> Forall P (hue_values (JsMap.delete k m)).
Proof.
  intros Hm. apply Forall_forall. intros y Hy.
  apply hue_values_delete_In in Hy.
  rewrite Forall_forall in Hm. now apply Hm.
Qed.

Lemma distinct_delete k (m : Hues) :
  distinct_hues (hue_values m) ->
  distinct_hues (hue_values (JsMap.delete k m)).
Proof.
  pose proof (hue_values_delete_In k) as Hin. unfold hue_values in *.
  induction m as [|[k' v'] r IH]; simpl; intros Hd; [constructor|].
  inversion Hd as [|? ? Hne Hd']; subst.
  destruct (String.eqb k' k); simpl; [assumption|].
  constructor; [|auto]. intros y Hy. apply Hne. now apply Hin in Hy.
Qed.

Lemma hues_ok_delete k (m : Hues) : hues_ok m -> hues_ok (JsMap.delete k m).
Proof.
  intros (Hf & Hr & Hd). split; [|split].
  - now apply hue_values_delete_Forall.
  - now apply hue_values_delete_Forall.
  - now apply distinct_delete.
Qed.

Lemma length_delete_le k (m : Hues) :
  (length (JsMap.delete k m) <= length m)%nat.
Proof.
  induction m as [|[k' v'] r IH]; simpl; [lia|].
  destruct (String.eqb k' k); simpl; lia.
Qed.

(** A socket that connects while fewer than 2^40 are counted is given a
    hue that keeps the hues in order. *)
Lemma hues_ok_assign k (m : Hues) :
  hues_ok m -> (Z.of_nat (length m) <= 2 ^ 40)%Z ->
  hues_ok (JsMap.set k (assignHue m) m).
Proof.
  intros Hok Hcount. pose proof Hok as (Hf & Hr & Hd).
  destruct (assignHue_on_circle m Hf Hr) as [Hc Hb].
  apply hues_ok_set; [assumption..|].
  now apply assignHue_free.
Qed.
End HueInvariant.

(* ================================================================== *)
(** ** RateLimiter: the front of the table is the identity inserted first *)
(* ================================================================== *)

Section History.
Import JsMap JsMapFacts.
Variable cfg : Config.

Lemma sorted_snoc l n :
  StronglySorted lt l -> Forall (fun m => (m < n)%nat) l ->
  StronglySorted lt (l ++ [n]).
Proof.
  induction 1 as [|x l Hs IH Hx]; intros Hall; simpl.
  - repeat constructor.
  - inversion Hall as [|? ? Hxn Hl]; subst. constructor; [auto|].
    apply Forall_app. split; [assumption | repeat constructor; assumption].
Qed.

Lemma sorted_tl l : StronglySorted lt l -> StronglySorted lt (tl l).
Proof. destruct l; simpl; [auto | now inversion 1]. Qed.

(** The entries that survive a sweep keep their insertion numbers. *)
Lemma swept_births (f : string * Window -> bool) (b : Births) :
  forall t : RateTable,
  keys b = keys t ->
  let b' := map fst (filter (fun bt => f (snd bt)) (combine b t)) in
  keys b' = keys (filter f t)
  /\ (forall x, In x b' -> In x b).
Proof.
  induction b as [|[k m] b IH]; intros [|[k' d] t] Hk; simpl in *;
    try discriminate; [split; [reflexivity | tauto]|].
  injection Hk as <- Hk. destruct (IH t Hk) as [IH1 IH2].
  destruct (f (k, d)); simpl.
  - split; [now f_equal | intros x [<-|H]; auto].
  - split; [assumption | auto].
Qed.

Lemma sorted_sublist (b b' : Births) :
  StronglySorted lt (map snd b) ->
  (forall (t : RateTable) (f : string * Window -> bool),
     b' = map fst (filter (fun bt => f (snd bt)) (combine b t))
     -> StronglySorted lt (map snd b')).
Proof.
  intros Hs t f ->. revert t.
  induction b as [|[k m] b IH]; intros [|[k' d] t]; simpl; try constructor.
  simpl in Hs. inversion Hs as [|? ? Hb Hm]; subst.
  destruct (f (k', d)); simpl; [|auto].
  constructor; [auto|].
  apply Forall_forall. intros y Hy.
  rewrite Forall_forall in Hm. apply Hm.
  apply in_map_iff in Hy. destruct Hy as ([k2 m2] & <- & Hin).
  apply in_map_iff in Hin. destruct Hin as ([[k3 m3] kv] & E & Hin).
  simpl in E. injection E as -> ->.
  apply filter_In in Hin. destruct Hin as [Hin _].
  apply in_combine_l in Hin.
  apply in_map_iff. exists (k2, m2). auto.
Qed.

Lemma history_step_ok es s e :
  history_ok cfg es s -> history_ok cfg (es ++ [e]) (history_step cfg s e).
Proof.
  destruct s as [[t b] n]. unfold history_ok, history_step.
  intros (Hn & Ht & Hk & Hwf & Hs & Hb).
  assert (Hold : forall k m, In (k, m) b ->
            (m < S n)%nat
            /\ exists now, nth_error (es ++ [e]) m = Some (Message k now)).
  { intros k m Hin. destruct (Hb k m Hin) as [Hm (now & Hnow)].
    split; [lia|]. exists now. rewrite nth_error_app1 by lia. exact Hnow. }
  assert (Hrun : table_step cfg t e = table_run cfg (es ++ [e]) empty).
  { unfold table_run. rewrite fold_left_app. simpl. now rewrite Ht. }
  split; [rewrite length_app; simpl; lia|].
  split; [exact Hrun|]. clear Hrun.
  destruct e as [ip now|now]; simpl.
  - (* a message *)
    split; [|split; [now apply rate_check_wf|]].
    + destruct (rate_check_cases cfg ip now t) as [(d & Hg & Hnow)|Hf].
      * assert (Hl : no_live_window ip now t = false).
        { unfold no_live_window. rewrite Hg.
          destruct (Z.gtb_spec now (expires d)); [lia | reflexivity]. }
        rewrite Hl, (rate_check_live cfg ip now d) by assumption. simpl.
        rewrite keys_set_present; [assumption|].
        apply get_In_keys. congruence.
      * rewrite Hf, rate_check_fresh by assumption. simpl.
        set (X := if CACHE_LIMIT_IPS cfg <=? size t then tl t else t).
        set (b1 := if CACHE_LIMIT_IPS cfg <=? size t then tl b else b).
        assert (Hk1 : keys b1 = keys X).
        { subst b1 X. destruct (_ <=? _); [|assumption].
          now rewrite !keys_tl, Hk. }
        destruct (has ip b1) eqn:Hh.
        -- apply has_true_iff in Hh. rewrite Hk1 in Hh.
           now rewrite keys_set_present.
        -- apply has_false_iff in Hh. rewrite Hk1 in Hh.
           rewrite keys_set_absent by assumption.
           unfold keys at 1. rewrite map_app. simpl. fold (keys b1).
           now rewrite Hk1.
    + destruct (no_live_window ip now t); [|split; assumption].
      set (b1 := if CACHE_LIMIT_IPS cfg <=? size t then tl b else b).
      assert (Hsub : forall x, In x b1 -> In x b).
      { subst b1. destruct (_ <=? _); [|auto].
        intros x Hx. destruct b; [exact Hx | now right]. }
      assert (Hs1 : StronglySorted lt (map snd b1)).
      { subst b1. destruct (_ <=? _); [|assumption].
        replace (map snd (tl b)) with (tl (map snd b)) by now destruct b.
        now apply sorted_tl. }
      destruct (has ip b1); [split; [assumption | auto]|].
      split.
      * rewrite map_app. simpl. apply sorted_snoc; [assumption|].
        apply Forall_forall. intros m Hm.
        apply in_map_iff in Hm. destruct Hm as ([k m'] & <- & Hin).
        simpl. now apply (Hb k m'), Hsub.
      * intros k m Hin. apply in_app_or in Hin.
        destruct Hin as [Hin|[E|[]]]; [auto|].
        injection E as <- <-. split; [lia|]. exists now.
        rewrite nth_error_app2 by lia.
        replace (n - length es)%nat with 0%nat by lia. reflexivity.
  - (* the sweep *)
    destruct (swept_births (fun kv => negb (now >? expires (snd kv))) b t Hk)
      as [H1 H2].
    split; [exact H1|]. split; [now apply wf_filter|].
    split.
    { apply (sorted_sublist b _ Hs t
               (fun kv => negb (now >? expires (snd kv)))). reflexivity. }
    intros k m Hin. apply Hold. now apply H2.
Qed.

Lemma history_all_ok es : history_ok cfg es (history cfg es).
Proof.
  unfold history.
  induction es as [|e es IH] using rev_ind.
  - simpl. repeat split; try constructor; contradiction.
  - rewrite fold_left_app. simpl. now apply history_step_ok.
Qed.
End History.

(** Claim C8.  Whatever messages arrive (from any identities, at any
    times) and whenever the sweep runs, the rate table built from the empty
    table holds at most [CACHE_LIMIT_IPS] identities (1000 in the source),
    each once.  When a fresh window is allocated in a table that is at
    capacity, exactly one entry is evicted first: the one at the front of
    the table, which is the identity inserted by an earlier event than
    every other identity in the table.  The fresh window is then set in
    what remains: an identity that is new to the remaining table goes to
    the back, one that is still there keeps its place.  The table is still
    within capacity afterwards. *)
Theorem rate_table_capacity :
  forall (cfg : Config) (es : list TableEvent) (ip : string) (now : Z),
    1 <= CACHE_LIMIT_IPS cfg ->
    let t := table_run cfg es JsMap.empty in
    let births := snd (fst (history cfg es)) in
    JsMap.size t <= CACHE_LIMIT_IPS cfg
    /\ JsMap.wf t
    /\ JsMap.keys births = JsMap.keys t
    /\ (forall k m, In (k, m) births ->
          exists sent, nth_error es m = Some (Message k sent))
    /\ (CACHE_LIMIT_IPS cfg <= JsMap.size t ->
        exists oldest d rest first later,
          t = (oldest, d) :: rest
          /\ births = (oldest, first) :: later
          /\ (forall k m, In (k, m) later -> (first < m)%nat)
          /\ JsMap.first_key t = Some oldest
          /\ ~ In oldest (JsMap.keys rest)
          /\ JsMap.size rest = JsMap.size t - 1
          /\ allocate_window cfg ip now t
             = JsMap.set ip (fresh_window now) rest
          /\ (no_live_window ip now t = true ->
              fst (rate_check cfg ip now t)
              = JsMap.set ip {| count := 1; expires := now + 60000 |} rest)
          /\ JsMap.size (fst (rate_check cfg ip now t))
             <= CACHE_LIMIT_IPS cfg
          /\ (~ In ip (JsMap.keys rest) ->
              JsMap.keys (allocate_window cfg ip now t)
              = JsMap.keys rest ++ [ip])
          /\ (In ip (JsMap.keys rest) ->
              JsMap.keys (allocate_window cfg ip now t) = JsMap.keys rest)).
Proof.
  intros cfg es ip now Hcap t births.
  assert (Hsize : JsMap.size t <= CACHE_LIMIT_IPS cfg).
  { apply table_run_bounded; [assumption|]. unfold JsMap.size. simpl. lia. }
  pose proof (history_all_ok cfg es) as Hh.
  subst births. destruct (history cfg es) as [[t' b] n].
  destruct Hh as (_ & Ht & Hk & Hwf & Hs & Hb). simpl fst. simpl snd.
  fold t in Ht. subst t'.
  split; [assumption|]. split; [assumption|]. split; [assumption|].
  split; [intros k m Hin; now apply (Hb k m)|].
  intros Hfull. destruct t as [|[oldest d] rest] eqn:Et.
  { unfold JsMap.size in Hfull. simpl in Hfull. lia. }
  destruct b as [|[k0 first] later]; [discriminate|].
  simpl in Hk. injection Hk as -> Hk.
  exists oldest, d, rest, first, later.
  split; [reflexivity|]. split; [reflexivity|].
  split.
  { intros k m Hin. simpl in Hs. inversion Hs as [|? ? _ Hlt]; subst.
    rewrite Forall_forall in Hlt. apply Hlt.
    apply in_map_iff. exists (k, m). auto. }
  split; [reflexivity|].
  split; [now inversion Hwf|].
  split; [unfold JsMap.size; simpl length; lia|].
  split; [now rewrite allocate_window_full|].
  split.
  - intros Hf. rewrite rate_check_fresh by assumption. simpl fst.
    destruct (Z.leb_spec (CACHE_LIMIT_IPS cfg) (JsMap.size ((oldest, d) :: rest)));
      [reflexivity | lia].
  - split; [now apply rate_check_bounded|].
    rewrite allocate_window_full by assumption. simpl tl.
    split; intros Hip.
    + now apply JsMapFacts.keys_set_absent.
    + now apply JsMapFacts.keys_set_present.
Qed.

Lemma rate_table_capacity_witness :
  let cfg := default_config in
  let es := map (fun i => Message (numbered i) (Z.of_nat i)) (seq 0 1000) in
  1 <= CACHE_LIMIT_IPS cfg
  /\ JsMap.size (table_run cfg es JsMap.empty) <= CACHE_LIMIT_IPS cfg.
Proof.
  intros cfg es.
  assert (H : 1 <= CACHE_LIMIT_IPS cfg) by (vm_compute; discriminate).
  split; [exact H|].
  exact (proj1 (rate_table_capacity cfg es "203a9f1c" 70000 H)).
Defined.

(** The table of the default configuration filled by 1000 identities, then
    a message of a new one: the identity of the first event is gone, the
    new one is last. *)
Example full_table_evicts_first :
  let es := map (fun i => Message (numbered i) (Z.of_nat i)) (seq 0 1000) in
  let t := table_run default_config es JsMap.empty in
  let t' := table_step default_config t (Message "203a9f1c" 1000) in
  JsMap.size t = 1000
  /\ JsMap.first_key t = Some (numbered 0)
  /\ JsMap.has (numbered 0) t' = false
  /\ JsMap.first_key t' = Some (numbered 1)
  /\ last (JsMap.keys t') "" = "203a9f1c"
  /\ JsMap.size t' = 1000.
Proof. vm_compute. repeat split. Qed.

(* ================================================================== *)
(* ================================================================== *)
(** * Further properties of the server *)
(* ================================================================== *)
(* ================================================================== *)

(** ** The sweep of the rate table *)

Section Sweep.
Import JsMap JsMapFacts.

Lemma sweep_get now (t : RateTable) ip :
  wf t ->
  get ip (sweep now t)
  = match get ip t with
    | Some d => if now >? expires d then None else Some d
    | None => None
    end.
Proof.
  unfold sweep. induction t as [|[k v] r IH]; simpl; [reflexivity|].
  intros Hwf. inversion Hwf as [|? ? Hk Hr]; subst. specialize (IH Hr).
  destruct (String.eqb_spec k ip) as [->|Hne].
  - destruct (now >? expires v); simpl.
    + rewrite IH. destruct (get ip r) eqn:E; [|reflexivity].
      exfalso. apply Hk. apply get_In_keys. congruence.
    + now rewrite String.eqb_refl.
  - destruct (negb (now >? expires v)); simpl; [|exact IH].
    destruct (String.eqb_spec k ip); [congruence | exact IH].
Qed.

Lemma sweep_live now (t : RateTable) :
  Forall (fun kv => now <= expires (snd kv)) (sweep now t).
Proof.
  unfold sweep. apply Forall_forall. intros kv Hin.
  apply filter_In in Hin. destruct Hin as [_ H].
  destruct (Z.gtb_spec now (expires (snd kv))); [discriminate | lia].
Qed.

Lemma sweep_idempotent now (t : RateTable) :
  sweep now (sweep now t) = sweep now t.
Proof.
  unfold sweep. induction t as [|kv r IH]; simpl; [reflexivity|].
  destruct (negb (now >? expires (snd kv))) eqn:E; simpl; [|exact IH].
  now rewrite E, IH.
Qed.
End Sweep.

(** X1.  The sweep deletes exactly the windows whose expiry has passed:
    an identity whose window expires at or after the sweep keeps that
    window, count included; every other identity is gone; what is left is
    within the old size, and sweeping again at the same time changes
    nothing. *)
Theorem sweep_deletes_exactly_expired :
  forall (now : Z) (t : RateTable) (ip : string),
    JsMap.wf t ->
    JsMap.get ip (sweep now t)
    = match JsMap.get ip t with
      | Some d => if now >? expires d then None else Some d
      | None => None
      end
    /\ Forall (fun kv => now <= expires (snd kv)) (sweep now t)
    /\ JsMap.wf (sweep now t)
    /\ JsMap.size (sweep now t) <= JsMap.size t
    /\ sweep now (sweep now t) = sweep now t.
Proof.
  intros now t ip Hwf.
  split; [now apply sweep_get|].
  split; [apply sweep_live|].
  split; [now apply wf_filter|].
  split; [apply sweep_bounded | apply sweep_idempotent].
Qed.

Lemma sample_table_wf : JsMap.wf sample_table.
Proof. apply distinctb_NoDup. reflexivity. Qed.

Lemma sweep_deletes_exactly_expired_witness :
  JsMap.wf sample_table
  /\ JsMap.get "aa11" (sweep 100000 sample_table) = None
  /\ JsMap.get "bb22" (sweep 100000 sample_table)
     = Some {| count := 7; expires := 130000 |}.
Proof.
  split; [exact sample_table_wf|].
  split.
  - rewrite (proj1 (sweep_deletes_exactly_expired 100000 sample_table "aa11"
                      sample_table_wf)). reflexivity.
  - rewrite (proj1 (sweep_deletes_exactly_expired 100000 sample_table "bb22"
                      sample_table_wf)). reflexivity.
Defined.

(** ** The sweep and the verdicts that follow it *)

Section SweepVerdicts.
Variables (cfg : Config) (now : Z).

Lemma sweep_swept_of t : JsMap.wf t -> swept_of now (sweep now t) t.
Proof.
  intros Hwf ip. rewrite (sweep_get now t ip Hwf).
  destruct (JsMap.get ip t) as [d|]; [|now left].
  destruct (Z.gtb_spec now (expires d)); [|now left].
  right. split; [reflexivity|]. exists d. split; [reflexivity | lia].
Qed.

(** With room in both tables, a message at or after [now] writes the same
    window into both and has the same verdict. *)
Lemma rate_check_swept ip now' t' t :
  swept_of now t' t -> now <= now' ->
  JsMap.size t' < CACHE_LIMIT_IPS cfg ->
  JsMap.size t < CACHE_LIMIT_IPS cfg ->
  snd (rate_check cfg ip now' t') = snd (rate_check cfg ip now' t)
  /\ exists d, fst (rate_check cfg ip now' t') = JsMap.set ip d t'
               /\ fst (rate_check cfg ip now' t) = JsMap.set ip d t.
Proof.
  intros HR Hle Hs' Hs.
  assert (Hfresh : forall t0, JsMap.size t0 < CACHE_LIMIT_IPS cfg ->
            no_live_window ip now' t0 = true ->
            rate_check cfg ip now' t0
            = (JsMap.set ip {| count := 1; expires := now' + 60000 |} t0,
               1 <=? MAX_REQ_PER_MIN cfg)).
  { intros t0 H0 Hn. rewrite rate_check_fresh by assumption.
    destruct (Z.leb_spec (CACHE_LIMIT_IPS cfg) (JsMap.size t0)); [lia|].
    reflexivity. }
  destruct (rate_check_cases cfg ip now' t) as [(d & Hg & Hn)|Hf].
  - (* live in [t], so it was not swept *)
    assert (Hg' : JsMap.get ip t' = Some d).
    { destruct (HR ip) as [E|(_ & d0 & E0 & Hd0)]; [congruence|].
      assert (d0 = d) by congruence. subst d0. lia. }
    rewrite (rate_check_live cfg ip now' d t') by assumption.
    rewrite (rate_check_live cfg ip now' d t) by assumption.
    simpl. split; [reflexivity|]. eauto.
  - assert (Hf' : no_live_window ip now' t' = true).
    { unfold no_live_window in *.
      destruct (HR ip) as [E|(E & _)]; rewrite E; [exact Hf | reflexivity]. }
    rewrite (Hfresh t' Hs' Hf'), (Hfresh t Hs Hf).
    simpl. split; [reflexivity|]. eauto.
Qed.

Lemma swept_of_set ip d t' t :
  swept_of now t' t -> swept_of now (JsMap.set ip d t') (JsMap.set ip d t).
Proof.
  intros HR k. destruct (string_dec k ip) as [->|Hne].
  - left. now rewrite !JsMapFacts.get_set_same.
  - rewrite !JsMapFacts.get_set_other by congruence. apply HR.
Qed.

Lemma verdicts_swept msgs : forall t' t,
  swept_of now t' t ->
  Forall (fun m => now <= snd m) msgs ->
  JsMap.size t' + Z.of_nat (length msgs) <= CACHE_LIMIT_IPS cfg ->
  JsMap.size t + Z.of_nat (length msgs) <= CACHE_LIMIT_IPS cfg ->
  verdicts cfg msgs t' = verdicts cfg msgs t.
Proof.
  induction msgs as [|[ip now'] msgs IH]; intros t' t HR Hall Hs' Hs;
    [reflexivity|].
  inversion Hall as [|? ? Hle Hrest]; subst. cbn [snd] in Hle.
  simpl length in Hs', Hs. simpl verdicts.
  destruct (rate_check_swept ip now' t' t HR Hle ltac:(lia) ltac:(lia))
    as (Hv & d & E' & E).
  rewrite Hv. f_equal. rewrite E', E. apply IH.
  - now apply swept_of_set.
  - exact Hrest.
  - pose proof (JsMapFacts.size_set_le ip d t'). lia.
  - pose proof (JsMapFacts.size_set_le ip d t). lia.
Qed.
End SweepVerdicts.

(** X2.  The sweep does not change what the limiter answers while the
    table has room.  For the first message that arrives at or after the
    time of the sweep, the verdict and the window of the identity
    afterwards are the same whether or not the sweep has run.  For
    messages of any identities that all arrive at or after the sweep, on a
    table that has room for each of them, every verdict is the same
    whether or not the sweep has run. *)
Theorem sweep_keeps_verdicts :
  forall (cfg : Config) (now now' : Z) (t : RateTable) (ip : string)
         (msgs : list (string * Z)),
    JsMap.wf t ->
    now <= now' ->
    Forall (fun m => now <= snd m) msgs ->
    JsMap.size t + Z.of_nat (length msgs) <= CACHE_LIMIT_IPS cfg ->
    snd (rate_check cfg ip now' (sweep now t))
    = snd (rate_check cfg ip now' t)
    /\ JsMap.get ip (fst (rate_check cfg ip now' (sweep now t)))
       = JsMap.get ip (fst (rate_check cfg ip now' t))
    /\ verdicts cfg msgs (sweep now t) = verdicts cfg msgs t.
Proof.
  intros cfg now now' t ip msgs Hwf Hle Hall Hroom.
  pose proof (sweep_get now t ip Hwf) as Hs.
  assert (Hfresh : forall t0, no_live_window ip now' t0 = true ->
            snd (rate_check cfg ip now' t0) = (1 <=? MAX_REQ_PER_MIN cfg)
            /\ JsMap.get ip (fst (rate_check cfg ip now' t0))
               = Some {| count := 1; expires := now' + 60000 |}).
  { intros t0 H0. rewrite rate_check_fresh by assumption. simpl.
    split; [reflexivity | apply JsMapFacts.get_set_same]. }
  assert (Hlive : forall t0 d, JsMap.get ip t0 = Some d -> now' <= expires d ->
            snd (rate_check cfg ip now' t0)
            = (count d + 1 <=? MAX_REQ_PER_MIN cfg)
            /\ JsMap.get ip (fst (rate_check cfg ip now' t0))
               = Some {| count := count d + 1; expires := expires d |}).
  { intros t0 d Hg Hd. rewrite (rate_check_live cfg ip now' d) by assumption.
    simpl. split; [reflexivity | apply JsMapFacts.get_set_same]. }
  assert (Hone : snd (rate_check cfg ip now' (sweep now t))
                 = snd (rate_check cfg ip now' t)
                 /\ JsMap.get ip (fst (rate_check cfg ip now' (sweep now t)))
                    = JsMap.get ip (fst (rate_check cfg ip now' t))).
  { destruct (JsMap.get ip t) as [d|] eqn:Eg.
    - destruct (Z.gtb_spec now (expires d)) as [Hexp|Hok].
      + (* swept: expired then, expired now *)
        destruct (Hfresh (sweep now t)) as [-> ->].
        { unfold no_live_window. now rewrite Hs. }
        destruct (Hfresh t) as [-> ->]; [|split; reflexivity].
        unfold no_live_window. rewrite Eg. apply Z.gtb_lt. lia.
      + destruct (Z_le_gt_dec now' (expires d)) as [Hl|Hg].
        * destruct (Hlive (sweep now t) d Hs Hl) as [-> ->].
          destruct (Hlive t d Eg Hl) as [-> ->]. split; reflexivity.
        * destruct (Hfresh (sweep now t)) as [-> ->].
          { unfold no_live_window. rewrite Hs. apply Z.gtb_lt. lia. }
          destruct (Hfresh t) as [-> ->]; [|split; reflexivity].
          unfold no_live_window. rewrite Eg. apply Z.gtb_lt. lia.
    - destruct (Hfresh (sweep now t)) as [-> ->].
      { unfold no_live_window. now rewrite Hs. }
      destruct (Hfresh t) as [-> ->]; [|split; reflexivity].
      unfold no_live_window. now rewrite Eg. }
  destruct Hone as [H1 H2]. split; [exact H1|]. split; [exact H2|].
  apply (verdicts_swept cfg now msgs).
  - now apply sweep_swept_of.
  - exact Hall.
  - pose proof (sweep_bounded now t). lia.
  - exact Hroom.
Qed.

Lemma sweep_keeps_verdicts_witness :
  let msgs := [("cc33", 100000); ("bb22", 100001); ("aa11", 100002)] in
  (JsMap.wf sample_table /\ 100000 <= 100001
   /\ Forall (fun m => 100000 <= snd m) msgs
   /\ JsMap.size sample_table + Z.of_nat (length msgs)
      <= CACHE_LIMIT_IPS default_config)
  /\ snd (rate_check default_config "bb22" 100001 (sweep 100000 sample_table))
     = snd (rate_check default_config "bb22" 100001 sample_table)
  /\ verdicts default_config msgs (sweep 100000 sample_table)
     = verdicts default_config msgs sample_table.
Proof.
  intros msgs.
  assert (H : 100000 <= 100001) by lia.
  assert (Hall : Forall (fun m => 100000 <= snd m) msgs)
    by (repeat constructor; simpl; lia).
  assert (Hroom : JsMap.size sample_table + Z.of_nat (length msgs)
                  <= CACHE_LIMIT_IPS default_config)
    by (vm_compute; discriminate).
  split; [repeat split; assumption || exact sample_table_wf|].
  destruct (sweep_keeps_verdicts default_config 100000 100001
              sample_table "bb22" msgs sample_table_wf H Hall Hroom)
    as (H1 & _ & H3).
  split; [exact H1 | exact H3].
Defined.

(** On a full table the sweep shows in a later verdict.  The table holds
    two windows, its limit; one identity has used up its allowance of 3
    and the window of the other has expired.  A newcomer and then the
    first identity send.  Without the sweep the newcomer evicts the oldest
    window, that of the first identity, whose next message passes; after
    the sweep there is room for the newcomer and that message is
    rejected. *)
Example sweep_changes_later_verdict :
  JsMap.size full_table = CACHE_LIMIT_IPS tight_config
  /\ verdicts tight_config [("cc33", 100000); ("aa11", 100001)] full_table
     = [true; true]
  /\ verdicts tight_config [("cc33", 100000); ("aa11", 100001)]
       (sweep 100000 full_table)
     = [true; false].
Proof. repeat split. Qed.

(** ** The display name of a relayed file *)

Lemma tidy_not_slash c : tidy c -> is_slash c = false.
Proof.
  intros [H| ->]; [|reflexivity].
  destruct (is_slash c) eqn:E; [|reflexivity].
  unfold is_slash, is_char in E. apply Ascii.eqb_eq in E. subst c. discriminate.
Qed.

Lemma replace_keep_tidy l : Forall tidy (replace_unsafe_keep_underscore l).
Proof.
  unfold replace_unsafe_keep_underscore. apply Forall_map, Forall_forall.
  intros c _. unfold tidy.
  destruct (is_name_char c) eqn:E; simpl; [now left|].
  destruct (is_underscore c) eqn:Eu; [|now right].
  right. now apply is_underscore_eq.
Qed.

Lemma replace_keep_id l :
  Forall tidy l -> replace_unsafe_keep_underscore l = l.
Proof.
  intros H. unfold replace_unsafe_keep_underscore.
  rewrite <- (map_id l) at 2. apply map_ext_in. intros c Hc.
  rewrite Forall_forall in H. destruct (H c Hc) as [E| ->]; [|reflexivity].
  now rewrite E.
Qed.

Lemma collapse_id l : single_underscores l -> collapse_underscores l = l.
Proof.
  induction l as [|c r IH]; intros H; [reflexivity|].
  destruct r as [|d r]; [reflexivity|].
  change (collapse_underscores (c :: d :: r))
    with (if is_underscore c && is_underscore d
          then collapse_underscores (d :: r)
          else c :: collapse_underscores (d :: r)).
  destruct H as [Hcd Hr].
  destruct (is_underscore c && is_underscore d) eqn:E.
  - apply andb_true_iff in E. tauto.
  - now rewrite IH.
Qed.

Lemma take_while_all {A} (p : A -> bool) l :
  Forall (fun x => p x = true) l -> take_while p l = l.
Proof.
  induction 1 as [|x l Hx _ IH]; simpl; [reflexivity|]. now rewrite Hx, IH.
Qed.

(** A name without separators is its own last portion. *)
Lemma last_component_plain l :
  Forall (fun c => is_slash c = false) l -> last_component l = l.
Proof.
  intros H. unfold last_component.
  assert (Hr : Forall (fun c => is_slash c = false) (rev l)).
  { apply Forall_forall. intros c Hc. rewrite Forall_forall in H.
    apply H. now apply in_rev. }
  rewrite drop_while_id.
  - rewrite take_while_all; [apply rev_involutive|].
    eapply Forall_impl; [|exact Hr]. intros c Hc. simpl. now rewrite Hc.
  - intros x r E. rewrite E in Hr. now inversion Hr.
Qed.

Lemma display_name_chars base :
  chars (display_name base)
  = collapse_underscores
      (replace_unsafe_keep_underscore (last_component (chars base))).
Proof. unfold display_name, basename. now rewrite !chars_text. Qed.

Lemma display_name_is_clean_chars base : Forall tidy (chars (display_name base)).
Proof.
  rewrite display_name_chars. apply collapse_Forall, replace_keep_tidy.
Qed.

(** X3.  The name put on a relayed file consists of letters, digits,
    dots, hyphens and underscores only: it holds no path separator and no
    two underscores side by side.  Cleaning a cleaned name changes
    nothing. *)
Theorem display_name_is_clean :
  forall (base : string),
    let name := display_name base in
    Forall tidy (chars name)
    /\ ~ In "/"%char (chars name)
    /\ single_underscores (chars name)
    /\ display_name name = name.
Proof.
  intros base name.
  assert (Ht : Forall tidy (chars name)).
  { subst name. rewrite display_name_chars.
    apply collapse_Forall, replace_keep_tidy. }
  assert (Hs : single_underscores (chars name)).
  { subst name. rewrite display_name_chars. apply collapse_single. }
  split; [exact Ht|]. split; [|split; [exact Hs|]].
  - intros Hin. rewrite Forall_forall in Ht.
    apply Ht in Hin. apply tidy_not_slash in Hin. discriminate.
  - rewrite <- (text_chars (display_name name)), display_name_chars.
    rewrite last_component_plain.
    + rewrite replace_keep_id, collapse_id by assumption. apply text_chars.
    + eapply Forall_impl; [|exact Ht]. apply tidy_not_slash.
Qed.

(** ** What the listener relays *)

Section RelayContents.
Variables (cfg : Config) (w : World).

(** Every broadcast of the file branch is the message with its three file
    fields rewritten from the server's own findings. *)
Lemma relay_file_broadcast msg st payload :
  In payload (broadcasts (snd (relay_file cfg w msg st))) ->
  exists content m base,
    prop_get "content" msg = VStr content
    /\ file_source cfg w content (fileMetaCache st) m
    /\ payload
       = VObj (prop_set "size" (VNum (inject_Z (size m)))
                 (prop_set "fileType" (VStr (mime m))
                    (prop_set "name" (VStr (display_name base)) msg))).
Proof.
  unfold relay_file, file_source.
  destruct (prop_get "content" msg) as [| | | |content| |] eqn:Ec;
    try (simpl; tauto).
  destruct (startsWith content "/uploads/") eqn:Eu;
    destruct (startsWith content "data:") eqn:Ed; simpl negb; simpl andb;
    try (simpl; tauto).
  - (* both prefixes cannot hold, but the code does not care *)
    destruct (Z.gtb_spec (slength content) MAX_PATH_LENGTH); [simpl; tauto|].
    destruct (js_String _ _) as [base|]; [|simpl; tauto].
    destruct (getCachedFileMeta _ _ _ _) as [[m|] cache] eqn:Eg;
      [|simpl; tauto].
    unfold broadcasts. simpl. intros [<-|[]].
    exists content, m, base. split; [reflexivity|]. split; [|reflexivity].
    left. rewrite Eg. auto.
  - destruct (Z.gtb_spec (slength content) MAX_PATH_LENGTH); [simpl; tauto|].
    destruct (js_String _ _) as [base|]; [|simpl; tauto].
    destruct (getCachedFileMeta _ _ _ _) as [[m|] cache] eqn:Eg;
      [|simpl; tauto].
    unfold broadcasts. simpl. intros [<-|[]].
    exists content, m, base. split; [reflexivity|]. split; [|reflexivity].
    left. rewrite Eg. auto.
  - destruct (js_String _ _) as [base|]; [|simpl; tauto].
    destruct (split_on "," (chars content)) as [|head [|part rest]] eqn:Es;
      try (simpl; tauto).
    unfold broadcasts. simpl. intros [<-|[]].
    exists content, (inlineMeta w (base64_decode w (text part))), base.
    split; [reflexivity|]. split; [|reflexivity].
    right. split; [assumption|]. split; [assumption|].
    exists head, part, rest. auto.
Qed.

Lemma enriched_get sock now st props k :
  ~ In k server_fields ->
  prop_get k (enriched sock now st props) = prop_get k props.
Proof.
  intros Hk. unfold enriched, server_fields in *. simpl in Hk.
  rewrite !prop_get_set_other; [reflexivity | | |]; intros ->; tauto.
Qed.

(** Every broadcast is the enriched text message, or comes out of the
    file branch run on the enriched message. *)
Lemma on_message_broadcast sock now msg st payload :
  In payload (broadcasts (snd (on_message cfg w sock now msg st))) ->
  exists props content,
    msg = VObj props
    /\ prop_get "content" props = VStr content
    /\ ((prop_get "type" props = VStr "text"
         /\ slength content < 65536
         /\ payload = VObj (enriched sock now st props))
        \/ (prop_get "type" props = VStr "file"
            /\ In payload
                 (broadcasts
                    (snd (relay_file cfg w (enriched sock now st props)
                            (with_limits
                               (fst (rate_check cfg (ipHash sock) now
                                       (ipRateLimits st))) st)))))).
Proof.
  unfold on_message. destruct (rate_check _ _ _ _) as [t a]. simpl fst.
  destruct a; simpl negb; cbv iota; [|simpl; tauto].
  destruct msg as [| | | | |items|props]; try (simpl; tauto).
  change (activeHues (with_limits t st)) with (activeHues st).
  change (match JsMap.get (id sock) (activeHues st) with
          | Some h => h
          | None => 210%Q
          end) with (hue_of sock st).
  fold (enriched sock now st props).
  assert (Hget : forall k, ~ In k server_fields ->
            prop_get k (enriched sock now st props) = prop_get k props)
    by (intros k; apply enriched_get).
  rewrite (Hget "type") by (simpl; intuition discriminate).
  rewrite (Hget "content") by (simpl; intuition discriminate).
  destruct (prop_get "type" props) as [| | | |ty| |] eqn:Et;
    try (simpl; tauto).
  destruct (String.eqb_spec ty "text") as [->|Hnt].
  - destruct (prop_get "content" props) as [| | | |content| |] eqn:Ec;
      try (simpl; tauto).
    destruct (Z.ltb_spec (slength content) 65536); [|simpl; tauto].
    unfold broadcasts. simpl. intros [<-|[]].
    exists props, content. repeat split; try assumption. left. auto.
  - destruct (String.eqb_spec ty "file") as [->|Hnf].
    + intros Hin.
      destruct (relay_file_broadcast _ _ _ Hin) as (content & m & base & Hc & _).
      rewrite Hget in Hc by (simpl; intuition discriminate).
      exists props, content. repeat split; try assumption. right. auto.
    + assert (E : match ty with
                  | "text" => (with_limits t st, done [])
                  | "file" => (with_limits t st, done [])
                  | _ => (with_limits t st, done [])
                  end = (with_limits t st, done [])).
      { repeat break_match; reflexivity. }
      intros Hin. exfalso. revert Hin.
      repeat break_match; simpl; try tauto; subst; congruence.
Qed.
End RelayContents.

Lemma file_fields_get k v1 v2 v3 msg :
  ~ In k file_fields ->
  prop_get k (prop_set "size" v3 (prop_set "fileType" v2 (prop_set "name" v1 msg)))
  = prop_get k msg.
Proof.
  intros Hk. unfold file_fields in Hk. simpl in Hk.
  rewrite !prop_get_set_other; [reflexivity | | |]; intros ->; tauto.
Qed.

Lemma relay_passes_content cfg w sock now msg st payload :
  In payload (broadcasts (snd (on_message cfg w sock now msg st))) ->
  field "content" payload = field "content" msg.
Proof.
  intros Hin.
  destruct (on_message_broadcast cfg w sock now msg st payload Hin)
    as (props & content & -> & Hc & [(Ht & _ & ->) | (Ht & Hrelay)]).
  - simpl. apply enriched_get. simpl. intuition discriminate.
  - destruct (relay_file_broadcast cfg w _ _ _ Hrelay)
      as (c & m & base & _ & _ & ->).
    simpl. rewrite file_fields_get by (simpl; intuition discriminate).
    apply enriched_get. simpl. intuition discriminate.
Qed.

(** X4.  Apart from the fields the server writes ([senderId], [timestamp]
    and [hue] on every message; [name], [fileType] and [size] on a file
    message) every property of a relayed message goes out exactly as it came
    in: the content, the type, the correlation id [tempId] and anything
    else the client sent. *)
Theorem relay_passes_other_fields :
  forall (cfg : Config) (w : World) (sock : Socket) (now : Z) (msg : JsVal)
         (st : ServerState) (payload : JsVal) (k : string),
    In payload (broadcasts (snd (on_message cfg w sock now msg st))) ->
    ~ In k server_fields ->
    field "type" msg = VStr "text" \/ ~ In k file_fields ->
    field k payload = field k msg.
Proof.
  intros cfg w sock now msg st payload k Hin Hs Hf.
  destruct (on_message_broadcast cfg w sock now msg st payload Hin)
    as (props & content & -> & Hc & [(Ht & _ & ->) | (Ht & Hrelay)]).
  - simpl. now apply enriched_get.
  - destruct (relay_file_broadcast cfg w _ _ _ Hrelay)
      as (c & m & base & _ & _ & ->).
    simpl in *. destruct Hf as [Hf|Hf]; [congruence|].
    rewrite file_fields_get by assumption. now apply enriched_get.
Qed.

Lemma relay_passes_other_fields_witness :
  let msg := client_file_message "/uploads/00ff-a.txt" "a.txt" in
  let out := snd (on_message default_config sample_world sample_socket 5
                    msg initial_state) in
  let payload := hd VUndefined (broadcasts out) in
  (In payload (broadcasts out)
   /\ ~ In "tempId" server_fields
   /\ (field "type" msg = VStr "text" \/ ~ In "tempId" file_fields))
  /\ field "tempId" payload = VStr "t-1700000000000-ab12c".
Proof.
  intros msg out payload.
  assert (H1 : In payload (broadcasts out)) by (left; reflexivity).
  assert (H2 : ~ In "tempId" server_fields)
    by (simpl; intuition discriminate).
  assert (H3 : field "type" msg = VStr "text" \/ ~ In "tempId" file_fields)
    by (right; simpl; intuition discriminate).
  split; [tauto|].
  exact (relay_passes_other_fields default_config sample_world sample_socket
           5 msg initial_state payload "tempId" H1 H2 H3).
Defined.

(** X5.  The type and size that go out with a file message are the
    server's findings, never the client's: for a reference into the upload
    directory they are what the metadata cache (or detection on the stored
    file) says of the file named by the last portion of the path, for an
    inline blob they are detected on, and counted from, the decoded
    payload.  The name that goes out is a cleaned name. *)
Theorem relay_file_metadata :
  forall (cfg : Config) (w : World) (sock : Socket) (now : Z) (msg : JsVal)
         (st : ServerState) (payload : JsVal),
    field "type" msg = VStr "file" ->
    In payload (broadcasts (snd (on_message cfg w sock now msg st))) ->
    exists content m name,
      field "content" msg = VStr content
      /\ file_source cfg w content (fileMetaCache st) m
      /\ field "fileType" payload = VStr (mime m)
      /\ field "size" payload = VNum (inject_Z (size m))
      /\ field "name" payload = VStr name
      /\ Forall tidy (chars name).
Proof.
  intros cfg w sock now msg st payload Hty Hin.
  destruct (on_message_broadcast cfg w sock now msg st payload Hin)
    as (props & content & -> & Hc & [(Ht & _) | (Ht & Hrelay)]).
  { simpl in Hty. congruence. }
  destruct (relay_file_broadcast cfg w _ _ _ Hrelay)
    as (c & m & base & Hc' & Hsrc & ->).
  rewrite enriched_get in Hc' by (simpl; intuition discriminate).
  assert (c = content) by congruence. subst c.
  exists content, m, (display_name base). simpl.
  split; [assumption|]. split; [exact Hsrc|].
  rewrite prop_get_set_other by discriminate.
  rewrite !prop_get_set_same.
  rewrite !prop_get_set_other by discriminate.
  rewrite prop_get_set_same.
  repeat split. apply (display_name_is_clean_chars base).
Qed.

Lemma relay_file_metadata_witness :
  let msg := client_file_message "/uploads/00ff-a.txt" "../../etc/passwd" in
  let out := snd (on_message default_config sample_world sample_socket 5
                    msg initial_state) in
  let payload := hd VUndefined (broadcasts out) in
  (field "type" msg = VStr "file" /\ In payload (broadcasts out))
  /\ field "fileType" payload = VStr "text/plain"
  /\ field "size" payload = VNum (inject_Z 5)
  /\ field "name" payload = VStr "passwd".
Proof.
  intros msg out payload.
  assert (H1 : field "type" msg = VStr "file") by reflexivity.
  assert (H2 : In payload (broadcasts out)) by (left; reflexivity).
  split; [tauto|].
  destruct (relay_file_metadata default_config sample_world sample_socket 5
              msg initial_state payload H1 H2)
    as (content & m & name & _ & _ & _ & _ & _ & _).
  repeat split.
Defined.

Section RelayOutcome.
Variables (cfg : Config) (w : World).

Lemma relay_file_one_event msg st :
  (length (events (snd (relay_file cfg w msg st))) <= 1)%nat.
Proof. unfold relay_file. repeat break_match; simpl; lia. Qed.

Lemma on_message_one_event sock now msg st :
  (length (events (snd (on_message cfg w sock now msg st))) <= 1)%nat.
Proof.
  unfold on_message. destruct (rate_check _ _ _ _) as [t a].
  destruct a; simpl negb; cbv iota; [|simpl; lia].
  repeat break_match; simpl; try lia; apply relay_file_one_event.
Qed.

(** A name that is no array and no object can always be printed. *)
Lemma js_String_plain num v :
  match v with VArr _ | VObj _ => False | _ => True end ->
  exists s, js_String num v = Some s.
Proof. destruct v as [| |[]| | | |]; simpl; intros H; eauto; contradiction. Qed.

Lemma relay_file_returns msg st content :
  prop_get "content" msg = VStr content ->
  match prop_get "name" msg with VArr _ | VObj _ => False | _ => True end ->
  completion (snd (relay_file cfg w msg st)) = Returned.
Proof.
  intros Hc Hn. unfold relay_file. rewrite Hc.
  assert (Hs : exists s,
             js_String (number_toString w)
               (if truthy (prop_get "name" msg) then prop_get "name" msg
                else VStr "file") = Some s).
  { destruct (truthy (prop_get "name" msg)); [|simpl; eauto].
    now apply js_String_plain. }
  destruct Hs as [s ->].
  repeat break_match; reflexivity.
Qed.
End RelayOutcome.

(** X6.  The listener emits at most one event per message, and it relays
    nothing but text and file messages with a string as content: a text
    message only when the content is shorter than 65536 characters, a file
    message only when the content starts with [/uploads/] (and is then at
    most 256 characters long) or with [data:].  Arrays, messages of another
    type, oversized text and references elsewhere are never relayed. *)
Theorem relay_gatekeeping :
  forall (cfg : Config) (w : World) (sock : Socket) (now : Z) (msg : JsVal)
         (st : ServerState),
    (length (events (snd (on_message cfg w sock now msg st))) <= 1)%nat
    /\ forall payload,
         In payload (broadcasts (snd (on_message cfg w sock now msg st))) ->
         exists props content,
           msg = VObj props
           /\ prop_get "content" props = VStr content
           /\ field "content" payload = VStr content
           /\ ((prop_get "type" props = VStr "text"
                /\ slength content < 65536)
               \/ (prop_get "type" props = VStr "file"
                   /\ ((startsWith content "/uploads/" = true
                        /\ slength content <= 256)
                       \/ startsWith content "data:" = true))).
Proof.
  intros cfg w sock now msg st.
  split; [apply on_message_one_event|].
  intros payload Hin.
  assert (Hcontent : field "content" payload = field "content" msg).
  { apply (relay_passes_content cfg w sock now msg st payload Hin). }
  destruct (on_message_broadcast cfg w sock now msg st payload Hin)
    as (props & content & -> & Hc & [(Ht & Hlen & _) | (Ht & Hrelay)]).
  - exists props, content. simpl in Hcontent.
    repeat split; try assumption; [congruence | now left].
  - destruct (relay_file_broadcast cfg w _ _ _ Hrelay)
      as (c & m & base & Hc' & Hsrc & _).
    rewrite enriched_get in Hc' by (simpl; intuition discriminate).
    assert (c = content) by congruence. subst c.
    exists props, content. simpl in Hcontent.
    repeat split; try assumption; [congruence|].
    right. split; [assumption|].
    destruct Hsrc as [(Hu & Hl & _) | (_ & Hd & _)]; [left | right]; auto.
Qed.

(** X7.  A message whose content is a string and whose name is neither an
    array nor an object never makes the listener throw, whatever its type
    and its other fields; such are all the messages the page's own
    [SocketManager.send] builds. *)
Theorem string_content_never_throws :
  forall (cfg : Config) (w : World) (sock : Socket) (now : Z) (props : Props)
         (st : ServerState) (content : string),
    prop_get "content" props = VStr content ->
    match prop_get "name" props with
    | VArr _ | VObj _ => False
    | _ => True
    end ->
    completion (snd (on_message cfg w sock now (VObj props) st)) = Returned.
Proof.
  intros cfg w sock now props st content Hc Hn.
  unfold on_message. destruct (rate_check _ _ _ _) as [t a]. simpl fst.
  destruct a; simpl negb; cbv iota; [|reflexivity].
  change (activeHues (with_limits t st)) with (activeHues st).
  change (match JsMap.get (id sock) (activeHues st) with
          | Some h => h
          | None => 210%Q
          end) with (hue_of sock st).
  fold (enriched sock now st props).
  assert (Hc' : prop_get "content" (enriched sock now st props) = VStr content).
  { rewrite enriched_get; [assumption | simpl; intuition discriminate]. }
  assert (Hn' : prop_get "name" (enriched sock now st props)
                = prop_get "name" props).
  { apply enriched_get. simpl. intuition discriminate. }
  rewrite Hc'.
  repeat break_match; try reflexivity;
    apply (relay_file_returns cfg w _ _ content Hc'); now rewrite Hn'.
Qed.

Lemma string_content_never_throws_witness :
  let props := [("type", VStr "file"); ("content", VStr "data:,aGk=");
                ("name", VNum 7)] in
  (prop_get "content" props = VStr "data:,aGk="
   /\ match prop_get "name" props with
      | VArr _ | VObj _ => False
      | _ => True
      end)
  /\ completion (snd (on_message default_config sample_world sample_socket 5
                        (VObj props) initial_state)) = Returned.
Proof.
  intros props.
  assert (H1 : prop_get "content" props = VStr "data:,aGk=") by reflexivity.
  assert (H2 : match prop_get "name" props with
               | VArr _ | VObj _ => False
               | _ => True
               end) by exact I.
  split; [tauto|].
  exact (string_content_never_throws default_config sample_world
           sample_socket 5 props initial_state "data:,aGk=" H1 H2).
Defined.

(** ** Stored names, their addresses and the metadata cache *)

Lemma chars_append a b : chars (String.append a b) = chars a ++ chars b.
Proof. induction a as [|c a IH]; simpl; [reflexivity|]. now rewrite IH. Qed.

Lemma take_while_app {A} (p : A -> bool) l1 l2 :
  Forall (fun x => p x = true) l1 ->
  take_while p (l1 ++ l2) = l1 ++ take_while p l2.
Proof.
  induction 1 as [|x l Hx _ IH]; simpl; [reflexivity|]. now rewrite Hx, IH.
Qed.

Lemma take_while_holds {A} (p : A -> bool) l :
  Forall (fun x => p x = true) (take_while p l).
Proof.
  induction l as [|x l IH]; simpl; [constructor|].
  destruct (p x) eqn:E; constructor; assumption.
Qed.

Lemma last_component_no_slash p :
  Forall (fun c => is_slash c = false) (last_component p).
Proof.
  unfold last_component. apply Forall_rev.
  eapply Forall_impl; [|apply take_while_holds].
  intros c Hc. simpl in Hc. now apply negb_true_iff in Hc.
Qed.

(** The last portion of a directory followed by a plain name is that
    name. *)
Lemma last_component_under_uploads l :
  l <> [] -> Forall (fun c => is_slash c = false) l ->
  last_component (chars "/uploads/" ++ l) = l.
Proof.
  intros Hne Hl. unfold last_component. rewrite rev_app_distr.
  assert (Hr : Forall (fun c => is_slash c = false) (rev l))
    by now apply Forall_rev.
  rewrite drop_while_id.
  - rewrite take_while_app.
    + simpl. rewrite app_nil_r. apply rev_involutive.
    + eapply Forall_impl; [|exact Hr]. intros c Hc. simpl. now rewrite Hc.
  - intros x r E. destruct (rev l) as [|y r'] eqn:El.
    + apply (f_equal (@rev ascii)) in El. rewrite rev_involutive in El.
      simpl in El. contradiction.
    + simpl in E. injection E as <- _. now inversion Hr.
Qed.

Lemma hex_not_slash c : is_hex_char c = true -> is_slash c = false.
Proof.
  intros H. destruct (is_slash c) eqn:E; [|reflexivity].
  unfold is_slash, is_char in E. apply Ascii.eqb_eq in E. subst c. discriminate.
Qed.

Lemma storage_filename_chars rnd originalname :
  chars (storage_filename rnd originalname)
  = to_hex (random_bytes rnd) ++ chars "-"
    ++ safeName (chars (basename_ext originalname (extname originalname)))
    ++ chars (extname originalname).
Proof. unfold storage_filename. apply chars_text. Qed.

Lemma storage_filename_no_slash rnd originalname :
  Forall (fun c => is_slash c = false)
    (chars (storage_filename rnd originalname)).
Proof.
  rewrite storage_filename_chars.
  apply Forall_app; split; [|apply Forall_app; split; [|apply Forall_app; split]].
  - eapply Forall_impl; [|apply to_hex_chars]. apply hex_not_slash.
  - repeat constructor.
  - eapply Forall_impl; [|apply safeName_tidy]. apply tidy_not_slash.
  - pose proof (last_component_no_slash (chars originalname)) as H.
    rewrite storage_name_split in H. now apply Forall_app in H.
Qed.

Lemma slength_chars s : slength s = Z.of_nat (length (chars s)).
Proof.
  unfold slength. f_equal. induction s as [|c s IH]; simpl; congruence.
Qed.

Lemma starts_with_app p l : starts_with p (p ++ l) = true.
Proof.
  induction p as [|c p IH]; simpl; [reflexivity|].
  now rewrite Ascii.eqb_refl.
Qed.

Lemma basename_upload_url rnd originalname :
  basename (upload_url (storage_filename rnd originalname))
  = storage_filename rnd originalname.
Proof.
  unfold basename, upload_url. rewrite chars_append.
  rewrite last_component_under_uploads.
  - apply text_chars.
  - rewrite storage_filename_chars.
    destruct (to_hex (random_bytes rnd)) eqn:E; [|discriminate].
    pose proof (to_hex_length (random_bytes rnd)) as Hl.
    rewrite E in Hl. discriminate.
  - apply storage_filename_no_slash.
Qed.

(** X8.  The name under which an upload is stored holds no path
    separator, so the address [/uploads/<name>] the route answers with
    leads back to exactly that name: the address starts with [/uploads/]
    and its last portion is the stored name.  The address is 26 characters
    longer than cleaned base name and extension together, hence within the
    256 characters the relay accepts whenever the extension has at most 130
    characters. *)
Theorem stored_name_round_trip :
  forall (rnd : Random8) (originalname : string),
    let stored := storage_filename rnd originalname in
    let url := upload_url stored in
    ~ In "/"%char (chars stored)
    /\ basename url = stored
    /\ startsWith url "/uploads/" = true
    /\ slength url
       = 26 + Z.of_nat (length (safeName (chars (basename_ext originalname
                                                   (extname originalname)))))
         + slength (extname originalname)
    /\ (slength (extname originalname) <= 130 ->
        slength url <= MAX_PATH_LENGTH).
Proof.
  intros rnd originalname stored url.
  assert (Hlen : slength url
            = 26 + Z.of_nat (length (safeName (chars (basename_ext originalname
                                                        (extname originalname)))))
              + slength (extname originalname)).
  { subst url stored. unfold upload_url.
    rewrite !slength_chars, chars_append, storage_filename_chars.
    rewrite !length_app, to_hex_length.
    change (length (chars "/uploads/")) with 9%nat.
    change (length (chars "-")) with 1%nat.
    change (length (random_bytes rnd)) with 8%nat. lia. }
  split; [|split; [|split; [|split]]].
  - intros Hin.
    pose proof (storage_filename_no_slash rnd originalname) as H.
    rewrite Forall_forall in H. apply H in Hin. discriminate.
  - apply basename_upload_url.
  - subst url. unfold startsWith, upload_url. rewrite chars_append.
    apply starts_with_app.
  - exact Hlen.
  - intros Hext. rewrite Hlen.
    pose proof (safeName_length
                  (chars (basename_ext originalname (extname originalname)))).
    unfold MAX_PATH_LENGTH. lia.
Qed.

Lemma detectFileMeta_None w p :
  detectFileMeta w p = None <-> files w p = None.
Proof.
  unfold detectFileMeta. destruct (files w p) as [content|].
  - destruct (fileTypeFromFile w p); split; discriminate.
  - tauto.
Qed.

Lemma get_cacheFileMeta cfg k v (c : Cache) :
  JsMap.get k (cacheFileMeta cfg k v c) = Some v.
Proof. unfold cacheFileMeta. apply JsMapFacts.get_set_same. Qed.

(** X9.  A lookup of file metadata fails only for a name that is not
    cached and whose file cannot be read, and a failure is not cached: the
    cache is left as it was.  Once a lookup has found the metadata, the next
    lookup of that name answers the same from the cache, whatever has
    become of the file, and leaves the cache alone.  What is cached under a
    name is what a [get] of that name returns. *)
Theorem cache_lookup_round_trip :
  forall (cfg : Config) (w w' : World) (k : string) (c : Cache),
    let r := fst (getCachedFileMeta cfg w k c) in
    let c' := snd (getCachedFileMeta cfg w k c) in
    (r = None <-> JsMap.get k c = None /\ files w (upload_path w k) = None)
    /\ (r = None -> c' = c)
    /\ (forall m, r = Some m ->
          JsMap.get k c' = Some m
          /\ getCachedFileMeta cfg w' k c' = (Some m, c'))
    /\ (forall v, JsMap.get k (cacheFileMeta cfg k v c) = Some v).
Proof.
  intros cfg w w' k c. cbv zeta.
  destruct (JsMap.get k c) as [m0|] eqn:Eg.
  - rewrite (lookup_hit cfg w k m0 c Eg). cbn [fst snd].
    split; [split; [discriminate | intros [? _]; discriminate]|].
    split; [discriminate|]. split; [|intros v; apply get_cacheFileMeta].
    intros m E. injection E as <-. split; [exact Eg|].
    now apply lookup_hit.
  - assert (E : getCachedFileMeta cfg w k c
                = match detectFileMeta w (upload_path w k) with
                  | Some meta => (Some meta, cacheFileMeta cfg k meta c)
                  | None => (None, c)
                  end)
      by (unfold getCachedFileMeta; now rewrite Eg).
    rewrite E. clear E.
    destruct (detectFileMeta w (upload_path w k)) as [m0|] eqn:Ed;
      cbn [fst snd].
    + split.
      { split; [discriminate|]. intros [_ H].
        apply detectFileMeta_None in H. congruence. }
      split; [discriminate|]. split; [|intros v; apply get_cacheFileMeta].
      intros m E. injection E as <-.
      split; [apply get_cacheFileMeta|].
      apply lookup_hit. apply get_cacheFileMeta.
    + split.
      { split; [|reflexivity]. intros _. split; [reflexivity|].
        now apply detectFileMeta_None. }
      split; [reflexivity|]. split; [discriminate|].
      intros v. apply get_cacheFileMeta.
Qed.
Section UploadThenRelay.
Variables (cfg : Config) (w : World).

Lemma upload_handler_ok req st :
  status (response (snd (upload_handler cfg w req st))) = 200 ->
  exists f n,
    file req = Some f
    /\ parseInt (content_length req) = Some n
    /\ body (response (snd (upload_handler cfg w req st)))
       = UrlBody (upload_url (filename f))
    /\ fst (upload_handler cfg w req st)
       = match detectFileMeta w (path f) with
         | Some meta =>
             with_cache (cacheFileMeta cfg (filename f) meta (fileMetaCache st))
               (with_pending (pendingUploadBytes st + n) st)
         | None => with_pending (pendingUploadBytes st + n) st
         end.
Proof.
  unfold upload_handler.
  destruct (upload_err req); [discriminate|].
  destruct (statfs_avail w) as [avail|]; [|discriminate].
  destruct (admission _ _ _ _) as [| |n] eqn:Ea; try discriminate.
  apply admission_accepted in Ea. destruct Ea as (Hp & _).
  destruct (file req) as [f|]; [|discriminate].
  intros _. exists f, n. repeat split. assumption.
Qed.

Lemma upload_handler_limits req st :
  ipRateLimits (fst (upload_handler cfg w req st)) = ipRateLimits st
  /\ activeHues (fst (upload_handler cfg w req st)) = activeHues st.
Proof.
  unfold upload_handler. repeat break_match; split; reflexivity.
Qed.

Lemma relay_file_cached msg st content name m :
  prop_get "content" msg = VStr content ->
  startsWith content "/uploads/" = true ->
  slength content <= MAX_PATH_LENGTH ->
  prop_get "name" msg = VStr name ->
  JsMap.get (basename content) (fileMetaCache st) = Some m ->
  relay_file cfg w msg st
  = (st, done [ToAll "message"
                 (VObj (prop_set "size" (VNum (inject_Z (size m)))
                          (prop_set "fileType" (VStr (mime m))
                             (prop_set "name"
                                (VStr (display_name
                                         (if String.eqb name "" then "file"
                                          else name))) msg))))]).
Proof.
  intros Hc Hu Hl Hn Hg. unfold relay_file. rewrite Hc, Hu, Hn.
  simpl negb. simpl andb.
  destruct (Z.gtb_spec (slength content) MAX_PATH_LENGTH); [lia|].
  rewrite (lookup_hit cfg w _ m _ Hg).
  destruct st; unfold with_cache; simpl.
  now destruct (String.eqb name "").
Qed.

Lemma on_message_file sock now props st :
  snd (rate_check cfg (ipHash sock) now (ipRateLimits st)) = true ->
  prop_get "type" props = VStr "file" ->
  on_message cfg w sock now (VObj props) st
  = relay_file cfg w (enriched sock now st props)
      (with_limits (fst (rate_check cfg (ipHash sock) now (ipRateLimits st)))
         st).
Proof.
  intros Ha Ht. unfold on_message.
  destruct (rate_check _ _ _ _) as [t a]. simpl in Ha. subst a.
  simpl negb. cbv iota. simpl fst.
  change (activeHues (with_limits t st)) with (activeHues st).
  change (match JsMap.get (id sock) (activeHues st) with
          | Some h => h
          | None => 210%Q
          end) with (hue_of sock st).
  fold (enriched sock now st props).
  rewrite (enriched_get sock now st props "type")
    by (simpl; intuition discriminate).
  rewrite Ht. reflexivity.
Qed.
End UploadThenRelay.

Lemma startsWith_upload_url stored :
  startsWith (upload_url stored) "/uploads/" = true.
Proof.
  unfold startsWith, upload_url. rewrite chars_append. apply starts_with_app.
Qed.

Lemma slength_upload_url rnd originalname :
  slength (extname originalname) <= 130 ->
  slength (upload_url (storage_filename rnd originalname)) <= MAX_PATH_LENGTH.
Proof.
  intros Hext. unfold upload_url.
  rewrite !slength_chars, chars_append, storage_filename_chars in *.
  rewrite !length_app, to_hex_length.
  change (length (chars "/uploads/")) with 9%nat.
  change (length (chars "-")) with 1%nat.
  change (length (random_bytes rnd)) with 8%nat.
  pose proof (safeName_length
                (chars (basename_ext originalname (extname originalname)))).
  unfold MAX_PATH_LENGTH. lia.
Qed.

(** X10.  An upload that was answered with status 200 can be shared at
    once: the answer carries the address [/uploads/<stored name>], and a
    file message with that address as its content, sent by any socket that
    passes the rate limit, goes out to everyone as one [message] event
    whose type and size are those detected on the stored file at upload
    time.  They come from the metadata cache: the relay answers the same
    in a world where the file can no longer be read. *)
Theorem uploaded_file_is_relayed :
  forall (cfg : Config) (w w' : World) (rnd : Random8)
         (originalname declared : string) (st : ServerState) (m : FileMeta)
         (sock : Socket) (now : Z) (props : Props) (name : string),
    let stored := storage_filename rnd originalname in
    let up := upload_handler cfg w (stored_upload w rnd originalname declared)
                st in
    status (response (snd up)) = 200 ->
    detectFileMeta w (upload_path w stored) = Some m ->
    slength (extname originalname) <= 130 ->
    prop_get "type" props = VStr "file" ->
    prop_get "content" props = VStr (upload_url stored) ->
    prop_get "name" props = VStr name ->
    snd (rate_check cfg (ipHash sock) now (ipRateLimits st)) = true ->
    body (response (snd up)) = UrlBody (upload_url stored)
    /\ exists payload,
         snd (on_message cfg w' sock now (VObj props) (fst up))
         = done [ToAll "message" payload]
         /\ field "content" payload = VStr (upload_url stored)
         /\ field "fileType" payload = VStr (mime m)
         /\ field "size" payload = VNum (inject_Z (size m))
         /\ field "senderId" payload = VStr (id sock).
Proof.
  intros cfg w w' rnd originalname declared st m sock now props name stored up
    H200 Hdet Hext Hty Hc Hn Hrate.
  destruct (upload_handler_ok cfg w _ st H200) as (f & n & Hf & _ & Hb & Hst).
  simpl in Hf. injection Hf as <-. simpl in Hb, Hst.
  fold stored in Hb, Hst. rewrite Hdet in Hst. fold up in Hb, Hst.
  split; [exact Hb|].
  pose proof (basename_upload_url rnd originalname) as Hbase.
  pose proof (startsWith_upload_url stored) as Hstart.
  pose proof (slength_upload_url rnd originalname Hext) as Hlen.
  fold stored in Hbase, Hlen.
  assert (Hlim : ipRateLimits (fst up) = ipRateLimits st)
    by apply upload_handler_limits.
  rewrite on_message_file by (rewrite ?Hlim; assumption).
  erewrite relay_file_cached with (content := upload_url stored) (m := m)
                                  (name := name).
  - eexists. split; [reflexivity|]. simpl.
    repeat (rewrite prop_get_set_same
            || rewrite prop_get_set_other by discriminate).
    rewrite enriched_get by (simpl; intuition discriminate).
    repeat split; try assumption.
    unfold enriched. rewrite !prop_get_set_other by discriminate.
    apply prop_get_set_same.
  - rewrite enriched_get by (simpl; intuition discriminate). assumption.
  - assumption.
  - assumption.
  - rewrite enriched_get by (simpl; intuition discriminate). assumption.
  - rewrite Hbase, Hst. simpl. apply get_cacheFileMeta.
Qed.

Lemma uploaded_file_is_relayed_witness :
  let stored := storage_filename sample_random "pixel.png" in
  let up := upload_handler default_config world_after_upload
              (stored_upload world_after_upload sample_random "pixel.png" "12")
              initial_state in
  let props := [("type", VStr "file");
                ("content", VStr "/uploads/00ff1a2b3c4d5e09-pixel.png");
                ("name", VStr "pixel.png"); ("fileType", VStr "text/html");
                ("size", VNum 1)] in
  let m := {| mime := "application/octet-stream"; size := 12 |} in
  (status (response (snd up)) = 200
   /\ detectFileMeta world_after_upload (upload_path world_after_upload stored)
      = Some m
   /\ slength (extname "pixel.png") <= 130
   /\ prop_get "type" props = VStr "file"
   /\ prop_get "content" props = VStr (upload_url stored)
   /\ prop_get "name" props = VStr "pixel.png"
   /\ snd (rate_check default_config (ipHash sample_socket) 5
             (ipRateLimits initial_state)) = true)
  /\ body (response (snd up)) = UrlBody (upload_url stored)
  /\ exists payload,
       snd (on_message default_config world_file_gone sample_socket 5
              (VObj props) (fst up))
       = done [ToAll "message" payload]
       /\ field "content" payload = VStr (upload_url stored)
       /\ field "fileType" payload = VStr (mime m)
       /\ field "size" payload = VNum (inject_Z (size m))
       /\ field "senderId" payload = VStr (id sample_socket).
Proof.
  intros stored up props m.
  assert (H1 : status (response (snd up)) = 200) by reflexivity.
  assert (H2 : detectFileMeta world_after_upload
                 (upload_path world_after_upload stored) = Some m)
    by reflexivity.
  assert (H3 : slength (extname "pixel.png") <= 130)
    by (vm_compute; discriminate).
  assert (H4 : prop_get "type" props = VStr "file") by reflexivity.
  assert (H5 : prop_get "content" props = VStr (upload_url stored))
    by reflexivity.
  assert (H6 : prop_get "name" props = VStr "pixel.png") by reflexivity.
  assert (H7 : snd (rate_check default_config (ipHash sample_socket) 5
                      (ipRateLimits initial_state)) = true) by reflexivity.
  split; [tauto|].
  exact (uploaded_file_is_relayed default_config world_after_upload
           world_file_gone sample_random "pixel.png" "12" initial_state m
           sample_socket 5 props "pixel.png" H1 H2 H3 H4 H5 H6 H7).
Defined.

(** ** The server as a whole: what every run preserves *)

Section ServerInvariant.
Variable cfg : Config.

(** The upload route writes the metadata cache and the counter, nothing
    else. *)
Lemma upload_handler_effect w req st :
  let r := upload_handler cfg w req st in
  ipRateLimits (fst r) = ipRateLimits st
  /\ activeHues (fst r) = activeHues st
  /\ (fileMetaCache (fst r) = fileMetaCache st
      \/ exists k m,
           fileMetaCache (fst r) = cacheFileMeta cfg k m (fileMetaCache st))
  /\ match listener (snd r) with
     | Some tr =>
         0 < len tr
         /\ pendingUploadBytes (fst r) = pendingUploadBytes st + due tr
     | None => pendingUploadBytes (fst r) = pendingUploadBytes st
     end.
Proof.
  intros r.
  destruct (upload_handler_limits cfg w req st) as [Hl Hh].
  split; [exact Hl|]. split; [exact Hh|]. split.
  - subst r. unfold upload_handler.
    repeat break_match; simpl; eauto.
  - destruct (listener (snd r)) as [tr|] eqn:E.
    + destruct (upload_handler_accepted cfg w req st tr E)
        as (Ht & _ & Hpos & Hp).
      split; [assumption|]. unfold due. now rewrite Ht.
    + subst r. now rewrite (upload_handler_rejected cfg w req st E).
Qed.

(** The file branch writes the metadata cache only, through
    [cacheFileMeta]. *)
Lemma relay_file_cache w msg st :
  fileMetaCache (fst (relay_file cfg w msg st)) = fileMetaCache st
  \/ exists k m,
       fileMetaCache (fst (relay_file cfg w msg st))
       = cacheFileMeta cfg k m (fileMetaCache st).
Proof.
  unfold relay_file.
  destruct (prop_get "content" msg); try (now left).
  destruct (negb _ && negb _); [now left|].
  destruct (_ && _); [now left|].
  destruct (js_String _ _); [|now left].
  destruct (startsWith s "/uploads/").
  - unfold getCachedFileMeta.
    destruct (JsMap.get _ _) as [m|]; [now left|].
    destruct (detectFileMeta _ _) as [m|]; [|now left].
    right. simpl. eauto.
  - destruct (split_on _ _) as [|? [|? ?]]; now left.
Qed.

(** The listener writes the rate table and, in the file branch, the
    metadata cache. *)
Lemma on_message_effect w sock now msg st :
  let r := on_message cfg w sock now msg st in
  ipRateLimits (fst r)
  = fst (rate_check cfg (ipHash sock) now (ipRateLimits st))
  /\ activeHues (fst r) = activeHues st
  /\ pendingUploadBytes (fst r) = pendingUploadBytes st
  /\ (fileMetaCache (fst r) = fileMetaCache st
      \/ exists k m,
           fileMetaCache (fst r) = cacheFileMeta cfg k m (fileMetaCache st)).
Proof.
  intros r. split; [apply on_message_limits|].
  subst r. unfold on_message. destruct (rate_check _ _ _ _) as [t a].
  destruct a; simpl negb; cbv iota; [|simpl; auto].
  repeat break_match; simpl; auto;
    match goal with
    | |- context [relay_file cfg w ?m ?s] =>
        destruct (relay_file_frame cfg w m s) as (_ & Hh & Hp & _);
        destruct (relay_file_cache w m s) as [Hc|Hc];
        rewrite Hh, Hp; simpl; auto
    end.
Qed.

Lemma Forall_update_nth {A} (P : A -> Prop) (f : A -> A) (l : list A) :
  forall i, (forall x, P x -> P (f x)) ->
  Forall P l -> Forall P (update_nth i f l).
Proof.
  induction l as [|x l IH]; intros i Hf H; simpl; [destruct i; constructor|].
  inversion H; subst. destruct i; constructor; auto.
Qed.

Ltac split_conj := repeat match goal with |- _ /\ _ => split end.

(** *** The counter of pending bytes *)

Lemma server_step_ledger r e : ledger_ok r -> ledger_ok (server_step cfg r e).
Proof.
  intros (Hp & Hl).
  destruct e as [w req|s i|w sock now msg|now|size sock|size sock];
    unfold ledger_ok; simpl.
  - pose proof (upload_handler_effect w req (server r)) as H.
    destruct (upload_handler cfg w req (server r)) as [st res].
    simpl in H. destruct H as (_ & _ & _ & Epen). simpl.
    destruct (listener res) as [tr|].
    + destruct Epen as [Hpos Epen].
      rewrite outstanding_app, outstanding_one.
      split; [lia|].
      apply Forall_app. split; [assumption|].
      constructor; [assumption|constructor].
    + split; [lia | assumption].
  - destruct (nth_error (listeners r) i) as [tr|] eqn:E;
      [|unfold ledger_ok; tauto].
    assert (Hlen : 0 < len tr).
    { rewrite Forall_forall in Hl. apply Hl. eapply nth_error_In; eauto. }
    rewrite on_signal_release. unfold releaseSpace.
    destruct (tracked tr) eqn:Et; simpl;
      (split;
       [ rewrite (outstanding_update _ _ _ _ E); unfold due; simpl;
         rewrite Et; lia
       | apply Forall_update_nth; [|assumption]; intros x _; assumption ]).
  - destruct (on_message_effect w sock now msg (server r))
      as (_ & _ & Epen & _).
    rewrite Epen. tauto.
  - tauto.
  - unfold connection. destruct (size >? MAX_USERS cfg); simpl; tauto.
  - tauto.
Qed.

Lemma server_run_ledger es : forall r,
  ledger_ok r -> ledger_ok (server_run cfg es r).
Proof.
  unfold server_run. induction es as [|e es IH]; intros r H; simpl.
  - assumption.
  - apply IH. now apply server_step_ledger.
Qed.

Lemma outstanding_in_flight trs :
  outstanding trs = total (map len (filter tracked trs)).
Proof.
  induction trs as [|tr trs IH]; simpl; [reflexivity|].
  unfold due. destruct (tracked tr); simpl; rewrite IH; lia.
Qed.

Lemma total_positive l :
  Forall (fun n => 0 < n) l -> 0 <= total l /\ (total l = 0 -> l = []).
Proof.
  induction 1 as [|n l Hn _ [IH1 IH2]]; simpl.
  - split; [lia | reflexivity].
  - split; [lia|]. intros E. lia.
Qed.

(** *** The hues in use *)

Lemma server_step_hues r e :
  hues_ok (activeHues (server r)) ->
  Z.of_nat (length (activeHues (server r))) <= 2 ^ 40 ->
  hues_ok (activeHues (server (server_step cfg r e)))
  /\ (length (activeHues (server (server_step cfg r e)))
      <= S (length (activeHues (server r))))%nat.
Proof.
  intros Hh Hcount.
  destruct e as [w req|s i|w sock now msg|now|size sock|size sock]; simpl.
  - pose proof (upload_handler_effect w req (server r)) as H.
    destruct (upload_handler cfg w req (server r)) as [st res].
    simpl in H. destruct H as (_ & Eh & _). simpl. rewrite Eh.
    split; [assumption | lia].
  - destruct (nth_error (listeners r) i) as [tr|]; [|split; [assumption|lia]].
    destruct (on_signal s tr (pendingUploadBytes (server r))).
    simpl. split; [assumption | lia].
  - destruct (on_message_effect w sock now msg (server r)) as (_ & Eh & _).
    rewrite Eh. split; [assumption | lia].
  - split; [assumption | lia].
  - unfold connection. destruct (size >? MAX_USERS cfg); simpl;
      [split; [assumption | lia]|].
    split; [now apply hues_ok_assign | apply JsMapFacts.length_set_le].
  - split; [now apply hues_ok_delete | ].
    pose proof (length_delete_le (id sock) (activeHues (server r))). lia.
Qed.

(** The hues stay in order as long as fewer than 2^40 events have
    happened; each event adds one hue at most. *)
Lemma server_run_hues es : forall r,
  hues_ok (activeHues (server r)) ->
  Z.of_nat (length (activeHues (server r))) + Z.of_nat (length es)
    <= 2 ^ 40 ->
  hues_ok (activeHues (server (server_run cfg es r)))
  /\ Z.of_nat (length (activeHues (server (server_run cfg es r))))
     <= Z.of_nat (length (activeHues (server r))) + Z.of_nat (length es).
Proof.
  unfold server_run. induction es as [|e es IH]; intros r H Hcount; simpl.
  - split; [assumption | lia].
  - simpl length in Hcount.
    destruct (server_step_hues r e H ltac:(lia)) as [H1 Hl].
    destruct (IH (server_step cfg r e) H1 ltac:(lia)) as [H2 Hl2].
    split; [exact H2 | lia].
Qed.

(** *** The two bounded maps *)

Hypothesis files_cap : 1 <= CACHE_LIMIT_FILES cfg.
Hypothesis ips_cap : 1 <= CACHE_LIMIT_IPS cfg.

Lemma cache_write_ok (c c' : Cache) :
  c' = c \/ (exists k m, c' = cacheFileMeta cfg k m c) ->
  JsMap.wf c -> JsMap.size c <= CACHE_LIMIT_FILES cfg ->
  JsMap.wf c' /\ JsMap.size c' <= CACHE_LIMIT_FILES cfg.
Proof.
  intros [->|(k & m & ->)] Hw Hs; [tauto|].
  split; [now apply cacheFileMeta_wf | now apply cacheFileMeta_bounded].
Qed.

Lemma server_step_maps r e :
  maps_ok cfg (server r) -> maps_ok cfg (server (server_step cfg r e)).
Proof.
  intros (Hcw & Hcs & Htw & Hts).
  destruct e as [w req|s i|w sock now msg|now|size sock|size sock];
    unfold maps_ok; simpl.
  - pose proof (upload_handler_effect w req (server r)) as H.
    destruct (upload_handler cfg w req (server r)) as [st res].
    simpl in H. destruct H as (El & _ & Ec & _). simpl.
    rewrite El.
    destruct (cache_write_ok _ _ Ec Hcw Hcs). tauto.
  - destruct (nth_error (listeners r) i) as [tr|]; [|tauto].
    destruct (on_signal s tr (pendingUploadBytes (server r))). simpl. tauto.
  - destruct (on_message_effect w sock now msg (server r))
      as (El & _ & _ & Ec).
    rewrite El.
    destruct (cache_write_ok _ _ Ec Hcw Hcs).
    split_conj; try assumption.
    + now apply rate_check_wf.
    + now apply rate_check_bounded.
  - split_conj; try assumption.
    + now apply wf_filter.
    + pose proof (sweep_bounded now (ipRateLimits (server r))). lia.
  - unfold connection. destruct (size >? MAX_USERS cfg); simpl; tauto.
  - tauto.
Qed.

Lemma server_run_maps es : forall r,
  maps_ok cfg (server r) -> maps_ok cfg (server (server_run cfg es r)).
Proof.
  unfold server_run. induction es as [|e es IH]; intros r H; simpl.
  - assumption.
  - apply IH. now apply server_step_maps.
Qed.
End ServerInvariant.

(** X11.  Whatever happens to the server, in whatever order (uploads,
    signals on their responses, messages of any shape from any socket,
    sweeps, connections and disconnections), the metadata cache holds at
    most [CACHE_LIMIT_FILES] names and the rate table at most
    [CACHE_LIMIT_IPS] identities, each once: no sequence of requests makes
    either map grow beyond its limit. *)
Theorem server_maps_stay_bounded :
  forall (cfg : Config) (es : list ServerEvent),
    1 <= CACHE_LIMIT_FILES cfg ->
    1 <= CACHE_LIMIT_IPS cfg ->
    let st := server (server_run cfg es boot) in
    JsMap.size (fileMetaCache st) <= CACHE_LIMIT_FILES cfg
    /\ NoDup (JsMap.keys (fileMetaCache st))
    /\ JsMap.size (ipRateLimits st) <= CACHE_LIMIT_IPS cfg
    /\ NoDup (JsMap.keys (ipRateLimits st)).
Proof.
  intros cfg es Hf Hi st.
  assert (H0 : maps_ok cfg (server boot)).
  { unfold maps_ok, boot, JsMap.wf, JsMap.size. simpl.
    repeat split; try constructor; lia. }
  destruct (server_run_maps cfg Hf Hi es boot H0) as (H1 & H2 & H3 & H4).
  fold st in H1, H2, H3, H4. unfold JsMap.wf in *. tauto.
Qed.

Lemma server_maps_stay_bounded_witness :
  let st := server (server_run default_config sample_run boot) in
  (1 <= CACHE_LIMIT_FILES default_config
   /\ 1 <= CACHE_LIMIT_IPS default_config)
  /\ JsMap.size (fileMetaCache st) <= CACHE_LIMIT_FILES default_config
  /\ NoDup (JsMap.keys (fileMetaCache st))
  /\ JsMap.size (ipRateLimits st) <= CACHE_LIMIT_IPS default_config
  /\ NoDup (JsMap.keys (ipRateLimits st)).
Proof.
  intros st.
  assert (H1 : 1 <= CACHE_LIMIT_FILES default_config)
    by (vm_compute; discriminate).
  assert (H2 : 1 <= CACHE_LIMIT_IPS default_config)
    by (vm_compute; discriminate).
  split; [tauto|].
  exact (server_maps_stay_bounded default_config sample_run H1 H2).
Defined.

(** X12.  Whatever happens to the server, in whatever order,
    [pendingUploadBytes] is exactly the sum of the declared lengths of the
    uploads in flight (admitted, their response neither finished nor
    closed).  It is never negative, and it is zero exactly when no upload
    is in flight: messages, sweeps, connections and rejected uploads leave
    it alone, and no signal releases twice. *)
Theorem pending_bytes_are_in_flight :
  forall (cfg : Config) (es : list ServerEvent),
    let r := server_run cfg es boot in
    pendingUploadBytes (server r) = total (map len (in_flight r))
    /\ 0 <= pendingUploadBytes (server r)
    /\ (pendingUploadBytes (server r) = 0 <-> in_flight r = []).
Proof.
  intros cfg es r.
  assert (H0 : ledger_ok boot) by (split; [reflexivity | constructor]).
  destruct (server_run_ledger cfg es boot H0) as [Hp Hl]. fold r in Hp, Hl.
  rewrite outstanding_in_flight in Hp. fold (in_flight r) in Hp.
  assert (Hpos : Forall (fun n => 0 < n) (map len (in_flight r))).
  { apply Forall_map. unfold in_flight. rewrite Forall_forall in *.
    intros tr Hin. apply filter_In in Hin. now apply Hl. }
  destruct (total_positive _ Hpos) as [Hge Hz].
  split; [exact Hp|]. split; [lia|]. split.
  - intros E. rewrite Hp in E. apply Hz in E.
    now apply map_eq_nil in E.
  - intros E. rewrite Hp, E. reflexivity.
Qed.

(** X13.  Whatever happens to the server, in whatever order, over up to
    2^40 events, the hues of the sockets that are connected are pairwise
    different binary64 numbers in [0, 360): the conditions under which
    [assignHue] returns a hue nobody has hold in every state the server
    reaches, so every welcomed socket is given a hue of its own. *)
Theorem connected_hues_are_distinct :
  forall (cfg : Config) (es : list ServerEvent) (size : Z) (sock : Socket),
    Z.of_nat (length es) <= 2 ^ 40 ->
    let st := server (server_run cfg es boot) in
    let hue := assignHue (activeHues st) in
    Forall is_binary64 (hue_values (activeHues st))
    /\ Forall on_circle (hue_values (activeHues st))
    /\ distinct_hues (hue_values (activeHues st))
    /\ is_binary64 hue
    /\ on_circle hue
    /\ (forall h, In h (hue_values (activeHues st)) -> ~ hue == h)
    /\ (size <= MAX_USERS cfg ->
        snd (connection cfg size sock st)
        = Welcomed [ToSocket (id sock) "session" (VObj [("hue", VNum hue)]);
                    ToAll "userCountUpdate" (VNum (inject_Z size))]
        /\ JsMap.get (id sock) (activeHues (fst (connection cfg size sock st)))
           = Some hue).
Proof.
  intros cfg es size sock Hlen st hue.
  assert (H0 : hues_ok (activeHues (server boot)))
    by (repeat split; constructor).
  destruct (server_run_hues cfg es boot H0 ltac:(simpl; lia))
    as [(Hf & Hr & Hd) Hcount].
  fold st in Hf, Hr, Hd, Hcount. simpl in Hcount.
  destruct (assignHue_on_circle (activeHues st) Hf Hr) as [Hc Hb].
  fold hue in Hc, Hb.
  split; [exact Hf|]. split; [exact Hr|]. split; [exact Hd|].
  split; [exact Hb|]. split; [exact Hc|].
  split; [apply assignHue_free; [assumption.. | lia]|].
  intros Hsize. unfold connection.
  destruct (Z.gtb_spec size (MAX_USERS cfg)); [lia|]. simpl.
  split; [reflexivity|]. apply JsMapFacts.get_set_same.
Qed.

Lemma connected_hues_are_distinct_witness :
  let st := server (server_run default_config sample_run boot) in
  let hue := assignHue (activeHues st) in
  (Z.of_nat (length sample_run) <= 2 ^ 40
   /\ 1 <= MAX_USERS default_config)
  /\ snd (connection default_config 1 sample_socket st)
     = Welcomed [ToSocket (id sample_socket) "session"
                   (VObj [("hue", VNum hue)]);
                 ToAll "userCountUpdate" (VNum (inject_Z 1))]
  /\ JsMap.get (id sample_socket)
       (activeHues (fst (connection default_config 1 sample_socket st)))
     = Some hue.
Proof.
  intros st hue.
  assert (Hlen : Z.of_nat (length sample_run) <= 2 ^ 40)
    by (vm_compute; discriminate).
  assert (H : 1 <= MAX_USERS default_config) by (vm_compute; discriminate).
  split; [split; assumption|].
  destruct (connected_hues_are_distinct default_config sample_run 1
              sample_socket Hlen) as (_ & _ & _ & _ & _ & _ & Hw).
  exact (Hw H).
Defined.

(** ** Admitted uploads and the free space *)

Lemma upload_handler_headroom cfg w req st avail tr :
  statfs_avail w = inl avail ->
  listener (snd (upload_handler cfg w req st)) = Some tr ->
  len tr <= avail - (DISK_RESERVED cfg + pendingUploadBytes st).
Proof.
  intros Hfs. unfold upload_handler.
  destruct (upload_err req); [discriminate|].
  rewrite Hfs.
  destruct (admission _ _ _ _) as [| |n] eqn:Ea; try discriminate.
  apply admission_accepted in Ea. destruct Ea as (_ & _ & Hroom).
  destruct (file req) as [f|]; simpl; intros H; injection H as <-; exact Hroom.
Qed.

Lemma filter_tracked_app (a b : list Tracker) :
  filter tracked (a ++ b) = filter tracked a ++ filter tracked b.
Proof. apply filter_app. Qed.

(** X14.  The upload route never promises more than the disk can take:
    whatever has happened to the server before, when an upload is admitted
    with [avail] bytes sampled as free, it joins the uploads in flight, and
    the declared lengths of all uploads in flight together with the
    reserve [DISK_RESERVED] fit in [avail]. *)
Theorem admitted_uploads_fit :
  forall (cfg : Config) (es : list ServerEvent) (w : World)
         (req : UploadRequest) (avail : Z) (tr : Tracker),
    let r := server_run cfg es boot in
    let r' := server_step cfg r (EvUpload w req) in
    statfs_avail w = inl avail ->
    listener (snd (upload_handler cfg w req (server r))) = Some tr ->
    in_flight r' = in_flight r ++ [tr]
    /\ total (map len (in_flight r')) + DISK_RESERVED cfg <= avail.
Proof.
  intros cfg es w req avail tr r r' Hfs Hl.
  pose proof (upload_handler_headroom cfg w req (server r) avail tr Hfs Hl)
    as Hroom.
  destruct (upload_handler_accepted cfg w req (server r) tr Hl)
    as (Ht & _ & _ & Hp).
  assert (H0 : ledger_ok boot) by (split; [reflexivity | constructor]).
  destruct (server_run_ledger cfg es boot H0) as [Hb _]. fold r in Hb.
  assert (Hin : in_flight r' = in_flight r ++ [tr]).
  { subst r'. unfold in_flight. simpl.
    destruct (upload_handler cfg w req (server r)) as [st res].
    simpl in Hl |- *. rewrite Hl. rewrite filter_tracked_app. simpl.
    now rewrite Ht. }
  split; [exact Hin|].
  rewrite Hin, map_app. unfold total. rewrite fold_right_app. simpl.
  fold (total (map len (in_flight r))).
  assert (E : forall l a, fold_right Z.add a l = total l + a).
  { clear. induction l as [|x l IH]; intros a; simpl; [lia|].
    rewrite IH. unfold total. lia. }
  rewrite E. unfold in_flight. rewrite <- outstanding_in_flight, <- Hb. lia.
Qed.

Lemma admitted_uploads_fit_witness :
  let req := stored_upload world_after_upload sample_random "pixel.png" "12" in
  let r := server_run default_config sample_run boot in
  let r' := server_step default_config r (EvUpload world_after_upload req) in
  let tr := {| len := 12; tracked := true |} in
  (statfs_avail world_after_upload = inl (8 * 1024 * 1024 * 1024)
   /\ listener (snd (upload_handler default_config world_after_upload req
                       (server r))) = Some tr)
  /\ in_flight r' = in_flight r ++ [tr]
  /\ total (map len (in_flight r')) + DISK_RESERVED default_config
     <= 8 * 1024 * 1024 * 1024.
Proof.
  intros req r r' tr.
  assert (H1 : statfs_avail world_after_upload
               = inl (8 * 1024 * 1024 * 1024)) by reflexivity.
  assert (H2 : listener (snd (upload_handler default_config world_after_upload
                                req (server r))) = Some tr)
    by reflexivity.
  split; [tauto|].
  exact (admitted_uploads_fit default_config sample_run world_after_upload
           req (8 * 1024 * 1024 * 1024) tr H1 H2).
Defined.

(** ** HueAllocator: how far the new hue is from the others *)

(** X15.  The hue given to a newcomer keeps its distance: with [n]
    sockets connected, whose hues are distinct binary64 numbers of the
    circle, the new hue is, the shorter way round and up to a rounding
    error of 2^-41 degrees, at least half of every gap between
    neighbouring hues away from each hue in use, and hence at least
    [180 / n] degrees away.  (The rounding error is there: see
    [assign_rounds].) *)
Theorem new_hue_keeps_its_distance :
  forall (activeHues : Hues) (h : Q),
    Forall is_binary64 (hue_values activeHues) ->
    Forall on_circle (hue_values activeHues) ->
    distinct_hues (hue_values activeHues) ->
    In h (hue_values activeHues) ->
    let hues := sort_hues (hue_values activeHues) in
    (forall j, (j < length hues)%nat ->
       (exact_gap_at hues j * (1 # 2) - 2 ^ (-41)
        <= circular_distance (assignHue activeHues) h)%Q)
    /\ (180 / inject_Z (Z.of_nat (length activeHues)) - 2 ^ (-41)
        <= circular_distance (assignHue activeHues) h)%Q.
Proof.
  intros activeHues h Hfloat Hrange Hdistinct Hin hues.
  assert (Hne : activeHues <> []) by (intros ->; contradiction).
  pose proof (sort_hues_perm (hue_values activeHues)) as Hperm.
  fold hues in Hperm.
  pose proof (sort_hues_sorted (hue_values activeHues)) as Hs.
  pose proof (sorted_hues_nonempty activeHues Hne) as Hn.
  pose proof (sorted_hues_on_circle activeHues Hrange) as Hr.
  pose proof (sorted_hues_binary64 activeHues Hfloat) as Hf.
  pose proof (sorted_hues_distinct activeHues Hdistinct) as Hd.
  pose proof (sorted_hues_length activeHues) as Hlen.
  fold hues in Hs, Hn, Hr, Hf, Hd, Hlen.
  destruct (assignHue_largest_gap activeHues Hne)
    as (i & Hi & -> & Hpos & Hmax & _).
  fold hues in Hi, Hpos, Hmax |- *.
  assert (Hin' : In h hues)
    by (eapply Permutation_in; [symmetry; exact Hperm | assumption]).
  destruct (In_nth hues h 0%Q Hin') as (j & Hj & <-).
  fold (hue_at hues j).
  pose proof (midpoint_apart hues Hs Hn Hr Hf Hd i j Hi Hj Hpos) as Hhalf.
  pose proof (largest_gap_lower hues Hs Hn Hr Hf Hd i Hi Hmax) as Hmean.
  rewrite Hlen in Hmean.
  change (2 ^ (-41))%Q with (1 # 2199023255552)%Q.
  split.
  - intros k Hk.
    pose proof (largest_gap_near hues Hr Hf i k Hi Hk (Hmax k Hk)).
    eapply Qle_trans; [|exact Hhalf]. lra.
  - eapply Qle_trans; [|exact Hhalf].
    assert (Hpos' : (0 < inject_Z (Z.of_nat (length activeHues)))%Q).
    { change 0%Q with (inject_Z 0). rewrite <- Zlt_Qlt.
      destruct activeHues; [congruence | simpl; lia]. }
    assert (Hdiv : (180 / inject_Z (Z.of_nat (length activeHues))
                    <= (exact_gap_at hues i + (1 # 4398046511104))
                       * (1 # 2))%Q).
    { apply Qle_shift_div_r; [exact Hpos'|].
      setoid_replace ((exact_gap_at hues i + (1 # 4398046511104)) * (1 # 2)
                      * inject_Z (Z.of_nat (length activeHues)))%Q
        with ((1 # 2) * (inject_Z (Z.of_nat (length activeHues))
                         * (exact_gap_at hues i + (1 # 4398046511104))))%Q
        by ring.
      lra. }
    lra.
Qed.

Lemma new_hue_keeps_its_distance_witness :
  (Forall is_binary64 (hue_values sample_hues)
   /\ Forall on_circle (hue_values sample_hues)
   /\ distinct_hues (hue_values sample_hues)
   /\ In 30%Q (hue_values sample_hues))
  /\ (180 / inject_Z (Z.of_nat (length sample_hues)) - 2 ^ (-41)
      <= circular_distance (assignHue sample_hues) 30)%Q.
Proof.
  assert (Hin : In 30%Q (hue_values sample_hues)) by (simpl; tauto).
  split;
    [split; [exact sample_hues_binary64
            | split; [exact sample_hues_on_circle
                     | split; [exact sample_hues_distinct | exact Hin]]]|].
  exact (proj2 (new_hue_keeps_its_distance sample_hues 30
                  sample_hues_binary64 sample_hues_on_circle
                  sample_hues_distinct Hin)).
Defined.

(** ** RateLimiter: what an eviction does to the limit *)

(** X16.  Eviction forgets a live window.  In a full rate table whose
    oldest entry is the live window of an identity that has used up its
    allowance, that identity is refused; but one message from an identity
    that is not in the table evicts the window, and the very next message
    of the first identity passes again, at the same instant, counted as
    the first of a fresh window. *)
Theorem eviction_restores_allowance :
  forall (cfg : Config) (victim newcomer : string) (now : Z) (d : Window)
         (rest : RateTable),
    let t := (victim, d) :: rest in
    1 <= MAX_REQ_PER_MIN cfg ->
    JsMap.wf t ->
    CACHE_LIMIT_IPS cfg <= JsMap.size t ->
    now <= expires d ->
    MAX_REQ_PER_MIN cfg <= count d ->
    JsMap.get newcomer t = None ->
    let t1 := fst (rate_check cfg newcomer now t) in
    snd (rate_check cfg victim now t) = false
    /\ JsMap.get victim t1 = None
    /\ snd (rate_check cfg victim now t1) = true
    /\ JsMap.get victim (fst (rate_check cfg victim now t1))
       = Some {| count := 1; expires := now + 60000 |}.
Proof.
  intros cfg victim newcomer now d rest t Hceil Hwf Hfull Hlive Hused Hnew t1.
  assert (Hget : JsMap.get victim t = Some d)
    by (subst t; simpl; now rewrite String.eqb_refl).
  assert (Hne : victim <> newcomer) by (intros ->; congruence).
  assert (Hfresh : no_live_window newcomer now t = true)
    by (unfold no_live_window; now rewrite Hnew).
  assert (Ht1 : t1 = JsMap.set newcomer {| count := 1; expires := now + 60000 |}
                       rest).
  { subst t1. rewrite rate_check_fresh by assumption. simpl fst.
    destruct (Z.leb_spec (CACHE_LIMIT_IPS cfg) (JsMap.size t)); [|lia].
    reflexivity. }
  assert (Hgone : JsMap.get victim t1 = None).
  { rewrite Ht1, JsMapFacts.get_set_other by congruence.
    destruct (JsMap.get victim rest) eqn:E; [|reflexivity].
    exfalso. inversion Hwf as [|? ? Hnin _]; subst.
    apply Hnin. apply JsMapFacts.get_In_keys. congruence. }
  assert (Hfresh1 : no_live_window victim now t1 = true)
    by (unfold no_live_window; now rewrite Hgone).
  split; [|split; [exact Hgone|]].
  - rewrite (rate_check_live cfg victim now d t Hget Hlive). simpl.
    apply Z.leb_gt. lia.
  - rewrite (rate_check_fresh cfg victim now t1 Hfresh1). simpl.
    split; [apply Z.leb_le; lia | apply JsMapFacts.get_set_same].
Qed.

Lemma eviction_restores_allowance_witness :
  let cfg := {| CACHE_LIMIT_FILES := 1000; CACHE_LIMIT_IPS := 2;
                DISK_RESERVED := 0; MAX_REQ_PER_MIN := 3;
                MAX_UPLOAD_SIZE := 1000; MAX_USERS := 100 |} in
  let d := {| count := 3; expires := 50000 |} in
  let rest := [("bb22", {| count := 1; expires := 50000 |})] in
  let t := ("aa11", d) :: rest in
  let t1 := fst (rate_check cfg "cc33" 100 t) in
  (1 <= MAX_REQ_PER_MIN cfg /\ JsMap.wf t /\ CACHE_LIMIT_IPS cfg <= JsMap.size t
   /\ 100 <= expires d /\ MAX_REQ_PER_MIN cfg <= count d
   /\ JsMap.get "cc33" t = None)
  /\ snd (rate_check cfg "aa11" 100 t) = false
  /\ JsMap.get "aa11" t1 = None
  /\ snd (rate_check cfg "aa11" 100 t1) = true
  /\ JsMap.get "aa11" (fst (rate_check cfg "aa11" 100 t1))
     = Some {| count := 1; expires := 100 + 60000 |}.
Proof.
  intros cfg d rest t t1.
  assert (H1 : 1 <= MAX_REQ_PER_MIN cfg) by (vm_compute; discriminate).
  assert (H2 : JsMap.wf t).
  { unfold JsMap.wf, t, rest. simpl.
    repeat constructor; simpl; intuition discriminate. }
  assert (H3 : CACHE_LIMIT_IPS cfg <= JsMap.size t)
    by (vm_compute; discriminate).
  assert (H4 : 100 <= expires d) by (vm_compute; discriminate).
  assert (H5 : MAX_REQ_PER_MIN cfg <= count d) by (vm_compute; discriminate).
  assert (H6 : JsMap.get "cc33" t = None) by reflexivity.
  split; [tauto|].
  exact (eviction_restores_allowance cfg "aa11" "cc33" 100 d rest
           H1 H2 H3 H4 H5 H6).
Defined.

(** ** The client's log buffer *)

Lemma skipn_snoc {A} (l : list A) (x : A) n :
  (n <= length l)%nat -> skipn n (l ++ [x]) = skipn n l ++ [x].
Proof.
  intros H. rewrite skipn_app.
  replace (n - length l)%nat with 0%nat by lia. reflexivity.
Qed.

Lemma tl_skipn {A} (l : list A) n : tl (skipn n l) = skipn (S n) l.
Proof.
  revert l. induction n as [|n IH]; intros l.
  - destruct l; reflexivity.
  - destruct l as [|x l]; [reflexivity|].
    change (tl (skipn n l) = skipn (S n) l). apply IH.
Qed.

(** X17.  The log buffer of the client holds the latest entries: after any
    number of entries have been logged, it holds the last 200 of them (all
    of them while there are no more than 200), oldest first. *)
Theorem log_buffer_keeps_latest :
  forall entries : list string,
    LogManager.logged entries = skipn (length entries - 200) entries
    /\ (length (LogManager.logged entries) <= 200)%nat
    /\ (forall e, In e (LogManager.logged entries) -> In e entries).
Proof.
  assert (Hmain : forall entries,
            LogManager.logged entries = skipn (length entries - 200) entries).
  { induction entries as [|e entries IH] using rev_ind; [reflexivity|].
    unfold LogManager.logged in *. rewrite fold_left_app. simpl.
    rewrite IH. unfold LogManager.push, LogManager.limit.
    rewrite length_app, length_skipn, length_app. simpl length.
    destruct (Z.gtb_spec
                (Z.of_nat (length entries - (length entries - 200) + 1)) 200)
      as [Hover|Hfits].
    - rewrite <- skipn_snoc by lia. rewrite tl_skipn. f_equal. lia.
    - rewrite <- skipn_snoc by lia. f_equal. lia. }
  intros entries. rewrite Hmain. split; [reflexivity|]. split.
  - rewrite length_skipn. lia.
  - intros e He. rewrite <- (firstn_skipn (length entries - 200) entries).
    apply in_or_app. now right.
Qed.

(** ** Numbers written in decimal are read back *)

Section DecimalText.
Import Decimal.




End DecimalText.







(** ** RateLimiter: sockets of one address share one allowance *)

(** X19.  Sockets of one address share one allowance.  Sockets of any
    identities send messages; the first comes from a socket of the
    identity [ip] (the hash of its address) at [t0], when [ip] has no live
    window, the further messages of [ip] arrive no later than
    [t0 + 60000], and if other identities send in between, the rate table
    has room for each of their messages.  Then the window of [ip] counts
    the messages of all its sockets together and no others, and, counting
    them from 1, the [n]-th passes the limiter exactly when [n] is at most
    [MAX_REQ_PER_MIN], whichever socket sends it; every later one is
    answered with the [error] event on the socket that sent it and goes to
    nobody else.  Opening more connections does not raise the limit. *)
Theorem sockets_share_allowance :
  forall (cfg : Config) (w : World) (ip : string) (st : ServerState)
         (first : Socket) (t0 : Z) (m0 : JsVal)
         (msgs : list (Socket * (Z * JsVal))),
    ipHash first = ip ->
    no_live_window ip t0 (ipRateLimits st) = true ->
    Forall (fun m => ipHash (fst m) = ip -> fst (snd m) <= t0 + 60000) msgs ->
    (0 < sent_by_others ip msgs ->
     JsMap.size (ipRateLimits st) + sent_by_others ip msgs
       < CACHE_LIMIT_IPS cfg) ->
    let all := (first, (t0, m0)) :: msgs in
    let r := relay_all cfg w all st in
    length (snd r) = length all
    /\ JsMap.get ip (ipRateLimits (fst r))
       = Some {| count := sent_by ip all; expires := t0 + 60000 |}
    /\ forall n m out,
         nth_error all n = Some m -> nth_error (snd r) n = Some out ->
         ipHash (fst m) = ip ->
         (sent_by ip (firstn n all) + 1 <= MAX_REQ_PER_MIN cfg ->
          Forall is_broadcast (events out)
          /\ out <> rate_limit_rejection (fst m))
         /\ (MAX_REQ_PER_MIN cfg < sent_by ip (firstn n all) + 1 ->
             out = rate_limit_rejection (fst m)).
Proof.
  intros cfg w ip st first t0 m0 msgs Hip Hfresh Hall Hroom all r.
  split; [apply relay_all_length|].
  exact (relay_all_fresh_window cfg w ip first t0 m0 msgs st
           Hip Hfresh Hall Hroom).
Qed.

Lemma sockets_share_allowance_witness :
  let cfg := {| CACHE_LIMIT_FILES := 1000; CACHE_LIMIT_IPS := 1000;
                DISK_RESERVED := 0; MAX_REQ_PER_MIN := 2;
                MAX_UPLOAD_SIZE := 1000; MAX_USERS := 100 |} in
  let msgs := [(second_socket, (6, text_message "b"));
               ({| id := "s3"; ipHash := "77aa01b2" |},
                (6, text_message "x"));
               (second_socket, (7, text_message "c"))] in
  let all := (sample_socket, (5, text_message "a")) :: msgs in
  let r := relay_all cfg sample_world all initial_state in
  (ipHash sample_socket = "203a9f1c"
   /\ no_live_window "203a9f1c" 5 (ipRateLimits initial_state) = true
   /\ Forall (fun m => ipHash (fst m) = "203a9f1c" ->
                       fst (snd m) <= 5 + 60000) msgs
   /\ (0 < sent_by_others "203a9f1c" msgs ->
       JsMap.size (ipRateLimits initial_state)
       + sent_by_others "203a9f1c" msgs < CACHE_LIMIT_IPS cfg))
  /\ JsMap.get "203a9f1c" (ipRateLimits (fst r))
     = Some {| count := 3; expires := 60005 |}
  /\ nth_error (snd r) 3 = Some (rate_limit_rejection second_socket).
Proof.
  intros cfg msgs all r.
  assert (H1 : ipHash sample_socket = "203a9f1c") by reflexivity.
  assert (H2 : no_live_window "203a9f1c" 5 (ipRateLimits initial_state)
               = true) by reflexivity.
  assert (H3 : Forall (fun m => ipHash (fst m) = "203a9f1c" ->
                                fst (snd m) <= 5 + 60000) msgs).
  { repeat constructor; simpl; lia. }
  assert (H4 : 0 < sent_by_others "203a9f1c" msgs ->
               JsMap.size (ipRateLimits initial_state)
               + sent_by_others "203a9f1c" msgs < CACHE_LIMIT_IPS cfg)
    by (intros _; vm_compute; reflexivity).
  split; [tauto|].
  destruct (sockets_share_allowance cfg sample_world "203a9f1c" initial_state
              sample_socket 5 (text_message "a") msgs H1 H2 H3 H4)
    as (_ & Hget & Houts).
  split; [exact Hget|].
  destruct (nth_error (snd r) 3) as [out|] eqn:E.
  - destruct (Houts 3%nat (second_socket, (7, text_message "c")) out
                eq_refl E eq_refl) as [_ Hr].
    f_equal. apply Hr. vm_compute. reflexivity.
  - exfalso. apply nth_error_None in E. vm_compute in E. lia.
Defined.

(** ** The two checks on the number of sockets *)

(** X20.  The handshake refuses a socket with [ERR_SERVER_FULL] exactly
    when [MAX_USERS] sockets are counted already.  A socket that passed the
    handshake when [before] sockets were counted, and that finds no more
    than [before + 1] counted in the connection listener, is welcomed: it
    is given its hue and the user count goes out.  The listener closes a
    socket exactly when more than [MAX_USERS] are counted, and then
    neither changes the state nor emits anything. *)
Theorem admitted_socket_is_welcomed :
  forall (cfg : Config) (before after : Z) (sock : Socket) (st : ServerState),
    handshake cfg before = None ->
    after <= before + 1 ->
    (forall size, handshake cfg size = Some "ERR_SERVER_FULL"
                  <-> MAX_USERS cfg <= size)
    /\ after <= MAX_USERS cfg
    /\ connection cfg after sock st
       = (on_connection sock st,
          Welcomed [ToSocket (id sock) "session"
                      (VObj [("hue", VNum (assignHue (activeHues st)))]);
                    ToAll "userCountUpdate" (VNum (inject_Z after))])
    /\ JsMap.get (id sock) (activeHues (on_connection sock st))
       = Some (assignHue (activeHues st))
    /\ (forall size, MAX_USERS cfg < size ->
          connection cfg size sock st = (st, Closed)).
Proof.
  intros cfg before after sock st Hpass Hafter.
  assert (Hiff : forall size, handshake cfg size = Some "ERR_SERVER_FULL"
                              <-> MAX_USERS cfg <= size).
  { intros size. unfold handshake.
    destruct (Z.leb_spec (MAX_USERS cfg) size); split;
      try discriminate; try reflexivity; lia. }
  assert (Hlt : before < MAX_USERS cfg).
  { destruct (Z.lt_ge_cases before (MAX_USERS cfg)) as [H|H]; [exact H|].
    apply Hiff in H. congruence. }
  split; [exact Hiff|]. split; [lia|]. split; [|split].
  - unfold connection. destruct (Z.gtb_spec after (MAX_USERS cfg)); [lia|].
    reflexivity.
  - unfold on_connection. simpl. apply JsMapFacts.get_set_same.
  - intros size Hsize. unfold connection.
    destruct (Z.gtb_spec size (MAX_USERS cfg)); [reflexivity | lia].
Qed.

Lemma admitted_socket_is_welcomed_witness :
  (handshake default_config 99 = None /\ 100 <= 99 + 1)
  /\ connection default_config 100 sample_socket initial_state
     = (on_connection sample_socket initial_state,
        Welcomed [ToSocket "s1" "session" (VObj [("hue", VNum 210)]);
                  ToAll "userCountUpdate" (VNum (inject_Z 100))])
  /\ handshake default_config 100 = Some "ERR_SERVER_FULL".
Proof.
  assert (H1 : handshake default_config 99 = None) by reflexivity.
  assert (H2 : 100 <= 99 + 1) by lia.
  split; [tauto|].
  destruct (admitted_socket_is_welcomed default_config 99 100 sample_socket
              initial_state H1 H2) as (_ & _ & Hc & _).
  split; [exact Hc | reflexivity].
Defined.
